(** * big-dash: the dynamic SQL layer

  A shallow embedding of the query compiler and executor
  ([query-executor]: [escapeIdentifier], [buildWhereClause],
  [buildSelectQuery], [buildInsertQuery], [buildUpdateQuery],
  [buildDeleteQuery], [executeSelect] ...) and of the schema introspector
  ([introspectPostgresSchema], [getTableRowCount]).

  Conventions of the embedding:
  - a JavaScript string is a [string]; the only character the code ever
    inspects is the double quote, which is a single byte;
  - a [Record<string, unknown>] is the list of pairs [Object.entries]
    yields for it, in that order;
  - a [throw], like a rejected promise, is the [Throw] constructor of
    [result]; what is thrown is an [Error] or any other value;
  - a placeholder index is a natural number, printed in decimal; [limit]
    and [offset] are any number of the language, an IEEE 754 binary64,
    printed as a template literal prints it. *)

From Stdlib Require Import ZArith List String Ascii Bool Lia.
From Stdlib Require Import DecimalString DecimalNat.
From Stdlib Require SpecFloat.
Import ListNotations.

Local Open Scope list_scope.
Local Open Scope string_scope.

(** ** JavaScript values and the string primitives the code uses *)

Module Js.

(** [unknown]: the scalar kinds a filter or an assignment can carry. *)
Inductive value : Type :=
| VNull
| VUndefined
| VBool (b : bool)
| VNum (z : Z)
| VStr (s : string)
| VDate (ms : Z).

(** [v === null] *)
Definition is_null (v : value) : bool :=
  match v with
  | VNull => true
  | _ => false
  end.

(** [v === null || v === undefined], the test behind [??] and [?.]. *)
Definition is_nullish (v : value) : bool :=
  match v with
  | VNull | VUndefined => true
  | _ => false
  end.

(** [a ?? b] *)
Definition coalesce (a b : value) : value :=
  if is_nullish a then b else a.

(** A JavaScript object used as a record, as [Object.entries] lists it. *)
Definition record : Type := list (string * value).

(** [o.k]: the first entry under [k], [undefined] when there is none. *)
Fixpoint get (o : record) (k : string) : value :=
  match o with
  | [] => VUndefined
  | (k', v) :: o' => if String.eqb k' k then v else get o' k
  end.

Definition value_eqb (a b : value) : bool :=
  match a, b with
  | VNull, VNull => true
  | VUndefined, VUndefined => true
  | VBool x, VBool y => Bool.eqb x y
  | VNum x, VNum y => Z.eqb x y
  | VStr x, VStr y => String.eqb x y
  | VDate x, VDate y => Z.eqb x y
  | _, _ => false
  end.

(** What a [throw] or a rejected promise carries: an [Error] object, of
    which only the message matters here, or any other value. *)
Inductive error : Type :=
| Error (message : string)
| Thrown (v : value).

Inductive result (A : Type) : Type :=
| Ok (a : A)
| Throw (e : error).
Arguments Ok {A} a.
Arguments Throw {A} e.

(** [`${n}`] for a non-negative integer. *)
Definition show_nat (n : nat) : string :=
  NilEmpty.string_of_uint (Nat.to_uint n).

(** [xs.join(sep)] *)
Fixpoint join (sep : string) (xs : list string) : string :=
  match xs with
  | [] => ""
  | [x] => x
  | x :: xs' => x ++ sep ++ join sep xs'
  end.

Definition dquote : ascii := "034"%char.
Definition backslash : ascii := "\"%char.

(** [s.replace(re, by)] with [re] the global pattern of one double quote
    and [by] the two characters backslash, double quote. *)
Fixpoint replace_dquotes (s : string) : string :=
  match s with
  | EmptyString => EmptyString
  | String c s' =>
      if Ascii.eqb c dquote
      then String backslash (String dquote (replace_dquotes s'))
      else String c (replace_dquotes s')
  end.

(** [xs.push(x)] and [xs.push(...ys)], as the array they leave. *)
Definition push {A : Type} (xs : list A) (x : A) : list A := app xs [x].
Definition push_all {A : Type} (xs ys : list A) : list A := app xs ys.

(** [xs.map((x, i) => f x i)], the index starting at [i]. *)
Fixpoint mapi_from {A B : Type} (f : A -> nat -> B) (i : nat) (xs : list A)
  : list B :=
  match xs with
  | [] => []
  | x :: xs' => f x i :: mapi_from f (S i) xs'
  end.

Definition mapi {A B : Type} (f : A -> nat -> B) (xs : list A) : list B :=
  mapi_from f 0 xs.

(** The result of [parseInt]: an integer or [NaN]. *)
Inductive number : Type :=
| NaN
| Int (z : Z).

Definition is_space (c : ascii) : bool :=
  let n := nat_of_ascii c in
  (n =? 32)%nat || ((9 <=? n)%nat && (n <=? 13)%nat).

Definition digit_of (c : ascii) : option Z :=
  let n := nat_of_ascii c in
  if ((48 <=? n)%nat && (n <=? 57)%nat)%bool
  then Some (Z.of_nat (n - 48))
  else None.

Fixpoint skip_spaces (s : string) : string :=
  match s with
  | String c s' => if is_space c then skip_spaces s' else s
  | EmptyString => EmptyString
  end.

(** The longest prefix of decimal digits, accumulated left to right;
    [None] when no digit was read. *)
Fixpoint read_digits (acc : option Z) (s : string) : option Z :=
  match s with
  | EmptyString => acc
  | String c s' =>
      match digit_of c with
      | Some d =>
          read_digits
            (Some (match acc with Some a => 10 * a + d | None => d end)%Z) s'
      | None => acc
      end
  end.

(** [parseInt(s, 10)] on a string: leading white space, an optional
    sign, then the longest run of digits; [NaN] when there is none. *)
Definition parseInt_string (s : string) : number :=
  match skip_spaces s with
  | String "-" s' =>
      match read_digits None s' with
      | Some n => Int (- n)
      | None => NaN
      end
  | String "+" s' =>
      match read_digits None s' with
      | Some n => Int n
      | None => NaN
      end
  | s' =>
      match read_digits None s' with
      | Some n => Int n
      | None => NaN
      end
  end.

(** [parseInt(v, 10)]: the argument is first turned into a string.  An
    integer prints as its decimal digits; the other kinds print as words
    that begin with no digit. *)
Definition parseInt (v : value) : number :=
  match v with
  | VStr s => parseInt_string s
  | VNum z => Int z
  | VNull | VUndefined | VBool _ | VDate _ => NaN
  end.

(** [a < b] on numbers: false as soon as one side is [NaN]. *)
Definition lt (a : number) (b : Z) : bool :=
  match a with
  | NaN => false
  | Int z => (z <? b)%Z
  end.

End Js.

(** ** JavaScript numbers

  A [number] of the language is an IEEE 754 binary64: the standard
  library's [spec_float] together with the proof that it is one.  The
  code compares such numbers ([Math.min]) and splices them into a text,
  which prints them as [Number.prototype.toString] does. *)

Module Double.

Definition prec : Z := 53.
Definition emax : Z := 1024.

Record double : Type := mkDouble {
  repr : SpecFloat.spec_float;
  repr_valid : SpecFloat.valid_binary prec emax repr = true
}.

Definition nan : double := mkDouble SpecFloat.S754_nan eq_refl.

Definition infinity (negative : bool) : double :=
  mkDouble (SpecFloat.S754_infinity negative) eq_refl.

Definition zero (negative : bool) : double :=
  mkDouble (SpecFloat.S754_zero negative) eq_refl.

(** The number with a given representation; [NaN] stands in for a
    representation that is no binary64. *)
Definition of_repr (x : SpecFloat.spec_float) : double :=
  match SpecFloat.valid_binary prec emax x as b
        return SpecFloat.valid_binary prec emax x = b -> double with
  | true => fun H => mkDouble x H
  | false => fun _ => nan
  end eq_refl.

(** The number nearest to [m * 2^e], and the one nearest to an integer:
    what a numeric literal denotes. *)
Definition dyadic (m e : Z) : double :=
  of_repr (SpecFloat.binary_normalize prec emax m e false).

Definition of_Z (z : Z) : double := dyadic z 0.

Definition is_nan (x : double) : bool :=
  match repr x with
  | SpecFloat.S754_nan => true
  | _ => false
  end.

(** [x < y] and [x <= y]: false as soon as one side is [NaN]. *)
Definition ltb (x y : double) : bool := SpecFloat.SFltb (repr x) (repr y).
Definition leb (x y : double) : bool := SpecFloat.SFleb (repr x) (repr y).

Definition is_zero (negative : bool) (x : double) : bool :=
  match repr x with
  | SpecFloat.S754_zero s => Bool.eqb s negative
  | _ => false
  end.

(** One step of the loop of [Math.min]: the negative zero is below the
    positive one. *)
Definition min_step (lowest number : double) : double :=
  if (is_zero true number && is_zero false lowest)%bool then number
  else if ltb number lowest then number
  else lowest.

(** [Math.min(...args)]: [NaN] as soon as one argument is, else the lowest
    one, starting from plus infinity. *)
Definition Math_min (args : list double) : double :=
  if existsb is_nan args then nan
  else fold_left min_step args (infinity false).

(** *** [Number.prototype.toString], radix 10

  For a finite positive [x = m * 2^e] the language takes integers [n], [k]
  and [s] with [s] of [k] digits, [s * 10^(n-k)] a decimal that reads back
  as [x], and [k] as small as possible; of several such [s], the one
  nearest to [x].  The decimals that read back as [x] are those between
  the midpoints to the two neighbours of [x], the midpoints included when
  [m] is even.  Everything is counted in quarters of [2^e]. *)

Definition show_pos (z : Z) : string :=
  NilEmpty.string_of_uint (N.to_uint (Z.to_N z)).

(** The quotient rounded up, and rounded to the nearest integer, to the
    even one at a tie. *)
Definition cdiv (a b : Z) : Z := ((a + b - 1) / b)%Z.

Definition nearest_even (a b : Z) : Z :=
  let q := (a / b)%Z in
  let r := (a mod b)%Z in
  match (2 * r ?= b)%Z with
  | Lt => q
  | Gt => (q + 1)%Z
  | Eq => if Z.even q then q else (q + 1)%Z
  end.

Definition clamp (lo hi s : Z) : Z := Z.max lo (Z.min hi s).

(** The integer [s] nearest to [x / 10^p] among those for which
    [s * 10^p] reads back as [x], when there is one.  The neighbour below
    a power of two is half as far as the one above. *)
Definition candidate (m : positive) (e p : Z) : option Z :=
  let boundary := (Pos.eqb m (2 ^ 52) && (-1074 <? e)%Z)%bool in
  let X := (4 * Zpos m)%Z in
  let L := (X - (if boundary then 1 else 2))%Z in
  let H := (X + 2)%Z in
  let E := (e - 2)%Z in
  let A := (2 ^ Z.max E 0 * 10 ^ Z.max (- p) 0)%Z in
  let B := (2 ^ Z.max (- E) 0 * 10 ^ Z.max p 0)%Z in
  let closed := Z.even (Zpos m) in
  let s_lo := if closed then cdiv (L * A) B else (L * A / B + 1)%Z in
  let s_hi := if closed then (H * A / B)%Z else (cdiv (H * A) B - 1)%Z in
  if (s_lo <=? s_hi)%Z
  then Some (clamp s_lo s_hi (nearest_even (X * A) B))
  else None.

(** A power of ten above [x]: [x] is below [2^t] for [t] the number of
    bits of [m] plus [e], and the logarithm of 2 is below 0.30103. *)
Definition magnitude (m : positive) (e : Z) : Z :=
  ((Zpos (SpecFloat.digits2_pos m) + e) * 30103 / 100000 + 3)%Z.

(** The first position, going down from [p], that has a candidate: the
    shortest decimal.  Seventeen digits always read back, so the search
    ends before its steps do; the last step takes the nearest integer. *)
Fixpoint shortest (steps : nat) (m : positive) (e p : Z) : Z * Z :=
  match candidate m e p with
  | Some s => (s, p)
  | None =>
      match steps with
      | O =>
          (nearest_even (Zpos m * 2 ^ Z.max e 0 * 10 ^ Z.max (- p) 0)
                        (2 ^ Z.max (- e) 0 * 10 ^ Z.max p 0),
           p)
      | S steps' => shortest steps' m e (p - 1)
      end
  end.

Fixpoint zeros (n : nat) : string :=
  match n with
  | O => ""
  | S n' => "0" ++ zeros n'
  end.

Definition take (n : nat) (s : string) : string := String.substring 0 n s.

Definition drop (n : nat) (s : string) : string :=
  String.substring n (String.length s - n) s.

(** The [k] digits of [s] laid out for the exponent [n]: plain digits
    for [n] from -5 to 21, the exponent notation otherwise. *)
Definition format (digits : string) (n : Z) : string :=
  let k := Z.of_nat (String.length digits) in
  if ((-5 <=? n)%Z && (n <=? 21)%Z)%bool
  then
    if (k <=? n)%Z then digits ++ zeros (Z.to_nat (n - k))
    else if (0 <? n)%Z
    then take (Z.to_nat n) digits ++ "." ++ drop (Z.to_nat n) digits
    else "0." ++ zeros (Z.to_nat (- n)) ++ digits
  else
    let exponent :=
      "e" ++ (if (n <? 0)%Z then "-" else "+") ++ show_pos (Z.abs (n - 1)) in
    if (k =? 1)%Z then digits ++ exponent
    else take 1 digits ++ "." ++ drop 1 digits ++ exponent.

Definition toString_finite (m : positive) (e : Z) : string :=
  let '(s, p) := shortest 24 m e (magnitude m e) in
  let digits := show_pos s in
  format digits (p + Z.of_nat (String.length digits)).

(** [`${x}`] *)
Definition toString (x : double) : string :=
  match repr x with
  | SpecFloat.S754_nan => "NaN"
  | SpecFloat.S754_zero _ => "0"
  | SpecFloat.S754_infinity s => if s then "-Infinity" else "Infinity"
  | SpecFloat.S754_finite s m e =>
      (if s then "-" else "") ++ toString_finite m e
  end.

End Double.

(** ** The query compiler *)

Module QueryExecutor.
Import Js Double.

Inductive direction : Type := ASC | DESC.

Definition show_direction (d : direction) : string :=
  match d with
  | ASC => "ASC"
  | DESC => "DESC"
  end.

Record OrderBy : Type := mkOrderBy {
  column : string;
  dir : direction
}.

Record SelectOptions : Type := mkSelectOptions {
  sel_table : string;
  sel_columns : list string;
  sel_where : option record;
  sel_orderBy : option (list OrderBy);
  sel_limit : option double;
  sel_offset : option double
}.

Record InsertOptions : Type := mkInsertOptions {
  ins_table : string;
  ins_data : record
}.

Record UpdateOptions : Type := mkUpdateOptions {
  upd_table : string;
  upd_data : record;
  upd_where : record
}.

Record DeleteOptions : Type := mkDeleteOptions {
  del_table : string;
  del_where : record
}.

Record QueryResult : Type := mkQueryResult {
  sql : string;
  params : list value
}.

Definition MAX_ROWS : double := of_Z 1000.
Definition QUERY_TIMEOUT : Z := 30000.

Definition escapeIdentifier (identifier : string) : string :=
  String dquote (replace_dquotes identifier ++ String dquote "").

(** The three locals of [buildWhereClause]'s loop. *)
Record where_acc : Type := mkWhereAcc {
  conditions : list string;
  wparams : list value;
  paramIndex : nat
}.

(** One iteration of [for (const [key, value] of Object.entries(where))]. *)
Definition where_step (st : where_acc) (entry : string * value) : where_acc :=
  let '(key, v) := entry in
  if is_null v
  then mkWhereAcc
         (push (conditions st) (escapeIdentifier key ++ " IS NULL"))
         (wparams st)
         (paramIndex st)
  else mkWhereAcc
         (push (conditions st)
               (escapeIdentifier key ++ " = $" ++ show_nat (paramIndex st)))
         (push (wparams st) v)
         (S (paramIndex st)).

Definition where_loop (where_ : record) (startParamIndex : nat) : where_acc :=
  fold_left where_step where_ (mkWhereAcc [] [] startParamIndex).

Record WhereResult : Type := mkWhereResult {
  clause : string;
  clause_params : list value
}.

Definition buildWhereClause (where_ : record) (startParamIndex : nat)
  : WhereResult :=
  let st := where_loop where_ startParamIndex in
  mkWhereResult
    (if (0 <? List.length (conditions st))%nat
     then "WHERE " ++ join " AND " (conditions st)
     else "")
    (wparams st).

Definition select_columns (cols : list string) : string :=
  match nth_error cols 0 with
  | Some c =>
      if String.eqb c "*" then "*" else join ", " (map escapeIdentifier cols)
  | None => join ", " (map escapeIdentifier cols)
  end.

Definition buildSelectQuery (options : SelectOptions) : QueryResult :=
  let columns := select_columns (sel_columns options) in
  let sql0 :=
    "SELECT " ++ columns ++ " FROM " ++ escapeIdentifier (sel_table options) in
  let '(sql1, params1) :=
    match sel_where options with
    | Some w =>
        if (0 <? List.length w)%nat
        then
          let whereResult := buildWhereClause w 1 in
          (sql0 ++ " " ++ clause whereResult,
           push_all [] (clause_params whereResult))
        else (sql0, [])
    | None => (sql0, [])
    end in
  let sql2 :=
    match sel_orderBy options with
    | Some obs =>
        if (0 <? List.length obs)%nat
        then
          let orderClauses :=
            map (fun o =>
                   escapeIdentifier (column o) ++ " " ++ show_direction (dir o))
                obs in
          sql1 ++ " ORDER BY " ++ join ", " orderClauses
        else sql1
    | None => sql1
    end in
  let limit :=
    Math_min [match sel_limit options with Some l => l | None => MAX_ROWS end;
              MAX_ROWS] in
  let sql3 := sql2 ++ " LIMIT " ++ toString limit in
  let sql4 :=
    match sel_offset options with
    | Some off => sql3 ++ " OFFSET " ++ toString off
    | None => sql3
    end in
  mkQueryResult sql4 params1.

Definition buildInsertQuery (options : InsertOptions) : result QueryResult :=
  let entries := ins_data options in
  if (List.length entries =? 0)%nat
  then Throw (Error "No data provided for insert")
  else
    let columns := join ", " (map (fun e => escapeIdentifier (fst e)) entries) in
    let placeholders :=
      join ", " (mapi (fun _ i => "$" ++ show_nat (i + 1)) entries) in
    let params := map snd entries in
    let sql :=
      "INSERT INTO " ++ escapeIdentifier (ins_table options)
        ++ " (" ++ columns ++ ") VALUES (" ++ placeholders ++ ") RETURNING *" in
    Ok (mkQueryResult sql params).

Definition buildUpdateQuery (options : UpdateOptions) : result QueryResult :=
  let dataEntries := upd_data options in
  let whereEntries := upd_where options in
  if (List.length dataEntries =? 0)%nat
  then Throw (Error "No data provided for update")
  else if (List.length whereEntries =? 0)%nat
  then Throw (Error "WHERE clause required for update")
  else
    let setClauses :=
      mapi (fun e i => escapeIdentifier (fst e) ++ " = $" ++ show_nat (i + 1))
           dataEntries in
    let params := map snd dataEntries in
    let whereResult :=
      buildWhereClause (upd_where options) (List.length params + 1) in
    let params := push_all params (clause_params whereResult) in
    let sql :=
      "UPDATE " ++ escapeIdentifier (upd_table options)
        ++ " SET " ++ join ", " setClauses
        ++ " " ++ clause whereResult ++ " RETURNING *" in
    Ok (mkQueryResult sql params).

Definition buildDeleteQuery (options : DeleteOptions) : result QueryResult :=
  let whereEntries := del_where options in
  if (List.length whereEntries =? 0)%nat
  then Throw (Error "WHERE clause required for delete")
  else
    let whereResult := buildWhereClause (del_where options) 1 in
    let sql :=
      "DELETE FROM " ++ escapeIdentifier (del_table options)
        ++ " " ++ clause whereResult ++ " RETURNING *" in
    Ok (mkQueryResult sql (clause_params whereResult)).

End QueryExecutor.

(** ** The database driver, as the code sees it

  The code talks to PostgreSQL through [pg]'s [Pool]: it constructs one,
  awaits [pool.query] and awaits [pool.end].  A run is modelled by the list
  of events it leaves and by a [driver] that decides, from the events so
  far, what each call answers: rows, or a rejection. *)

Module Pg.
Import Js.

Record PostgresConfig : Type := mkPostgresConfig {
  host : string;
  port : Z;
  database : string;
  username : string;
  password : string;
  ssl : option bool
}.

(** The options object handed to [new Pool].  [pc_ssl] is [Some false] for
    the object whose [rejectUnauthorized] is false and [None] for [false]. *)
Record PoolConfig : Type := mkPoolConfig {
  pc_host : string;
  pc_port : Z;
  pc_database : string;
  pc_user : string;
  pc_password : string;
  pc_ssl : option bool;
  connectionTimeoutMillis : Z;
  query_timeout : option Z
}.

Definition row : Type := record.

Record QueryReply : Type := mkQueryReply {
  rows : list row;
  rowCount : value
}.

(** A pool object is known by the number of pools constructed before it. *)
Definition pool : Type := nat.

Inductive event : Type :=
| Created (p : pool) (c : PoolConfig)
| Queried (p : pool) (text : string) (values : list value)
| Ended (p : pool).

Definition trace : Type := list event.

Record driver : Type := mkDriver {
  query_reply : trace -> pool -> string -> list value -> result QueryReply;
  end_reply : trace -> pool -> result unit
}.

Definition is_created (e : event) : bool :=
  match e with Created _ _ => true | _ => false end.

Definition is_ended_of (p : pool) (e : event) : bool :=
  match e with Ended q => (q =? p)%nat | _ => false end.

Definition fresh_pool (t : trace) : pool :=
  List.length (filter is_created t).

(** An awaited computation: it reads the driver, extends the trace and
    either yields a value or throws. *)
Definition M (A : Type) : Type := driver -> trace -> result A * trace.

Definition ret {A : Type} (a : A) : M A := fun _ t => (Ok a, t).

Definition bind {A B : Type} (m : M A) (f : A -> M B) : M B :=
  fun d t =>
    match m d t with
    | (Ok a, t') => f a d t'
    | (Throw e, t') => (Throw e, t')
    end.

Definition lift {A : Type} (r : result A) : M A := fun _ t => (r, t).

(** [try { body } finally { fin }]: [fin] runs whatever [body] did; the
    outcome is [body]'s unless [fin] itself throws. *)
Definition try_finally {A : Type} (body : M A) (fin : M unit) : M A :=
  fun d t =>
    let '(r, t') := body d t in
    match fin d t' with
    | (Ok _, t'') => (r, t'')
    | (Throw e, t'') => (Throw e, t'')
    end.

Definition new_Pool (c : PoolConfig) : M pool :=
  fun _ t => (Ok (fresh_pool t), push t (Created (fresh_pool t) c)).

Definition pool_query (p : pool) (text : string) (values : list value)
  : M QueryReply :=
  fun d t => (query_reply d t p text values, push t (Queried p text values)).

Definition pool_end (p : pool) : M unit :=
  fun d t => (end_reply d t p, push t (Ended p)).

(** [config.ssl ? { rejectUnauthorized: false } : false] *)
Definition ssl_option (c : PostgresConfig) : option bool :=
  match ssl c with
  | Some true => Some false
  | _ => None
  end.

(** [rows[0]?.k] *)
Definition first_field (rs : list row) (k : string) : value :=
  match nth_error rs 0 with
  | Some r => get r k
  | None => VUndefined
  end.

End Pg.

Declare Scope pg_scope.
Delimit Scope pg_scope with pg.
Notation "x <- m ;; k" := (Pg.bind m (fun x => k))
(at level 61, m at next level, right associativity) : pg_scope.

(** ** The executor *)

Module Executor.
Import Js QueryExecutor Pg.
Local Open Scope pg_scope.

Record SelectResult : Type := mkSelectResult {
  sr_rows : list row;
  sr_rowCount : value
}.

Record InsertResult : Type := mkInsertResult {
  ir_row : option row
}.

Record UpdateResult : Type := mkUpdateResult {
  ur_rows : list row;
  ur_rowCount : value
}.

Record DeleteResult : Type := mkDeleteResult {
  dr_rows : list row;
  dr_rowCount : value
}.

Definition createPool (config : PostgresConfig) : M pool :=
  new_Pool (mkPoolConfig (host config) (port config) (database config)
              (username config) (password config) (ssl_option config)
              10000 (Some QUERY_TIMEOUT)).

Definition executeSelect (config : PostgresConfig) (options : SelectOptions)
  : M SelectResult :=
  pool <- createPool config ;;
  try_finally
    (let q := buildSelectQuery options in
     result <- pool_query pool (sql q) (params q) ;;
     ret (mkSelectResult (rows result) (coalesce (rowCount result) (VNum 0))))
    (pool_end pool).

Definition executeInsert (config : PostgresConfig) (options : InsertOptions)
  : M InsertResult :=
  pool <- createPool config ;;
  try_finally
    (q <- lift (buildInsertQuery options) ;;
     result <- pool_query pool (sql q) (params q) ;;
     ret (mkInsertResult (nth_error (rows result) 0)))
    (pool_end pool).

Definition executeUpdate (config : PostgresConfig) (options : UpdateOptions)
  : M UpdateResult :=
  pool <- createPool config ;;
  try_finally
    (q <- lift (buildUpdateQuery options) ;;
     result <- pool_query pool (sql q) (params q) ;;
     ret (mkUpdateResult (rows result) (coalesce (rowCount result) (VNum 0))))
    (pool_end pool).

Definition executeDelete (config : PostgresConfig) (options : DeleteOptions)
  : M DeleteResult :=
  pool <- createPool config ;;
  try_finally
    (q <- lift (buildDeleteQuery options) ;;
     result <- pool_query pool (sql q) (params q) ;;
     ret (mkDeleteResult (rows result) (coalesce (rowCount result) (VNum 0))))
    (pool_end pool).

End Executor.

(** ** The schema introspector *)

Module SchemaIntrospector.
Import Js Pg.
Local Open Scope pg_scope.

Record ColumnInfo : Type := mkColumnInfo {
  col_name : value;
  col_type : value;
  nullable : bool;
  hasDefault : bool;
  defaultValue : value
}.

Record TableInfo : Type := mkTableInfo {
  name : value;
  columns : list ColumnInfo;
  primaryKey : list value
}.

Record SchemaInfo : Type := mkSchemaInfo {
  tables : list TableInfo
}.

Definition TABLES_SQL : string := "
      SELECT table_name
      FROM information_schema.tables
      WHERE table_schema = 'public'
        AND table_type = 'BASE TABLE'
      ORDER BY table_name
    ".

Definition COLUMNS_SQL : string := "
        SELECT column_name, data_type, is_nullable, column_default
        FROM information_schema.columns
        WHERE table_schema = 'public'
          AND table_name = $1
        ORDER BY ordinal_position
      ".

Definition PRIMARY_KEY_SQL : string := "
        SELECT kcu.column_name
        FROM information_schema.table_constraints tc
        JOIN information_schema.key_column_usage kcu
          ON tc.constraint_name = kcu.constraint_name
          AND tc.table_schema = kcu.table_schema
        WHERE tc.constraint_type = 'PRIMARY KEY'
          AND tc.table_schema = 'public'
          AND tc.table_name = $1
        ORDER BY kcu.ordinal_position
      ".

Definition ESTIMATE_SQL : string := "
      SELECT reltuples::bigint AS estimate
      FROM pg_class
      WHERE relname = $1
    ".

Definition column_of_row (col : row) : ColumnInfo :=
  mkColumnInfo
    (get col "column_name")
    (get col "data_type")
    (value_eqb (get col "is_nullable") (VStr "YES"))
    (negb (is_null (get col "column_default")))
    (get col "column_default").

(** The body of [for (const row of tablesResult.rows)], with the array
    [tables] it pushes to. *)
Fixpoint introspect_tables (p : pool) (table_rows : list row)
         (tables : list TableInfo) : M (list TableInfo) :=
  match table_rows with
  | [] => ret tables
  | r :: rest =>
      let tableName := get r "table_name" in
      columnsResult <- pool_query p COLUMNS_SQL [tableName] ;;
      pkResult <- pool_query p PRIMARY_KEY_SQL [tableName] ;;
      let columns := map column_of_row (rows columnsResult) in
      let primaryKey := map (fun pk => get pk "column_name") (rows pkResult) in
      introspect_tables p rest
        (push tables (mkTableInfo tableName columns primaryKey))
  end.

Definition introspectPostgresSchema (config : PostgresConfig) : M SchemaInfo :=
  pool <- new_Pool (mkPoolConfig (host config) (port config) (database config)
                      (username config) (password config) (ssl_option config)
                      10000 None) ;;
  try_finally
    (tablesResult <- pool_query pool TABLES_SQL [] ;;
     tables <- introspect_tables pool (rows tablesResult) [] ;;
     ret (mkSchemaInfo tables))
    (pool_end pool).

(** The text of the exact count: the table name between two double quotes. *)
Definition count_sql (tableName : string) : string :=
  "SELECT COUNT(*) as count FROM "
    ++ String dquote (tableName ++ String dquote "").

Definition getTableRowCount (config : PostgresConfig) (tableName : string)
  : M number :=
  pool <- new_Pool (mkPoolConfig (host config) (port config) (database config)
                      (username config) (password config) (ssl_option config)
                      10000 (Some 5000%Z)) ;;
  try_finally
    (estimateResult <- pool_query pool ESTIMATE_SQL [VStr tableName] ;;
     let estimate :=
       parseInt (coalesce (first_field (rows estimateResult) "estimate")
                          (VStr "0")) in
     if lt estimate 10000
     then
       countResult <- pool_query pool (count_sql tableName) [] ;;
       ret (parseInt (coalesce (first_field (rows countResult) "count")
                               (VStr "0")))
     else ret estimate)
    (pool_end pool).

End SchemaIntrospector.

(** ** The anatomy of a compiled query

  What the specification says a compiled text is made of, written as
  data: a condition of a WHERE or SET clause is a column with an
  [IS NULL] test or a column with a numbered placeholder. *)

Module Anatomy.
Import Js Double QueryExecutor.

Inductive cond : Type :=
| IsNull (col : string)
| Equals (col : string) (placeholder : nat).

Definition render_cond (c : cond) : string :=
  match c with
  | IsNull k => escapeIdentifier k ++ " IS NULL"
  | Equals k n => escapeIdentifier k ++ " = $" ++ show_nat n
  end.

(** The placeholder numbers of a clause, in text order. *)
Fixpoint placeholders (cs : list cond) : list nat :=
  match cs with
  | [] => []
  | IsNull _ :: cs' => placeholders cs'
  | Equals _ n :: cs' => n :: placeholders cs'
  end.

(** The filters of a WHERE clause, numbered from [n]: a null filter takes
    no number. *)
Fixpoint where_conds (w : record) (n : nat) : list cond :=
  match w with
  | [] => []
  | (k, v) :: w' =>
      if is_null v
      then IsNull k :: where_conds w' n
      else Equals k n :: where_conds w' (S n)
  end.

(** The non-null filter values, in the order of the filters. *)
Fixpoint where_values (w : record) : list value :=
  match w with
  | [] => []
  | (_, v) :: w' => if is_null v then where_values w' else v :: where_values w'
  end.

(** The assignments of a SET clause, numbered from [n]: every one takes a
    number, null or not. *)
Fixpoint set_conds (d : record) (n : nat) : list cond :=
  match d with
  | [] => []
  | (k, _) :: d' => Equals k n :: set_conds d' (S n)
  end.

Definition placeholder_text (n : nat) : string := "$" ++ show_nat n.

Definition where_text (w : record) (n : nat) : string :=
  "WHERE " ++ join " AND " (map render_cond (where_conds w n)).

Definition order_text (obs : list OrderBy) : string :=
  " ORDER BY "
    ++ join ", "
         (map (fun o => escapeIdentifier (column o) ++ " " ++ show_direction (dir o))
              obs).

Definition offset_text (off : option double) : string :=
  match off with
  | Some m => " OFFSET " ++ toString m
  | None => ""
  end.

(** The WHERE and ORDER BY parts of a SELECT: absent when there is
    nothing to filter or to order by. *)
Definition select_where_text (w : option record) : string :=
  match w with
  | Some (e :: w') => " " ++ where_text (e :: w') 1
  | _ => ""
  end.

Definition select_order_text (ob : option (list OrderBy)) : string :=
  match ob with
  | Some (o :: obs) => order_text (o :: obs)
  | _ => ""
  end.

Definition select_params (w : option record) : list value :=
  match w with
  | Some w' => where_values w'
  | None => []
  end.

(** A SELECT up to its LIMIT clause. *)
Definition select_head (t : string) (cols : list string) (w : option record)
           (ob : option (list OrderBy)) : string :=
  "SELECT " ++ select_columns cols ++ " FROM " ++ escapeIdentifier t
    ++ select_where_text w ++ select_order_text ob.

Definition insert_text (t : string) (d : record) : string :=
  "INSERT INTO " ++ escapeIdentifier t
    ++ " (" ++ join ", " (map escapeIdentifier (map fst d))
    ++ ") VALUES ("
    ++ join ", " (map placeholder_text (seq 1 (List.length d)))
    ++ ") RETURNING *".

Definition update_text (t : string) (d w : record) : string :=
  "UPDATE " ++ escapeIdentifier t
    ++ " SET " ++ join ", " (map render_cond (set_conds d 1))
    ++ " " ++ where_text w (List.length d + 1) ++ " RETURNING *".

Definition delete_text (t : string) (w : record) : string :=
  "DELETE FROM " ++ escapeIdentifier t
    ++ " " ++ where_text w 1 ++ " RETURNING *".

Definition requested_or_default (l : option double) : double :=
  match l with
  | Some n => n
  | None => MAX_ROWS
  end.

(** Two filter maps of one shape: the same columns in the same order, null
    at the same places. *)
Definition same_shape (w w' : record) : Prop :=
  map fst w = map fst w'
  /\ map (fun e => is_null (snd e)) w = map (fun e => is_null (snd e)) w'.

Definition same_columns (d d' : record) : Prop :=
  map fst d = map fst d'.

(** Every non-null filter of [w] has, at its own place in [cs], a
    placeholder, and the number [n] of that placeholder is the position,
    counted from one, of the filter's value in [ps]. *)
Definition placed (w : record) (cs : list cond) (ps : list value) : Prop :=
  forall i k v,
    nth_error w i = Some (k, v) -> is_null v = false ->
    exists n,
      nth_error cs i = Some (Equals k n)
      /\ 1 <= n
      /\ nth_error ps (n - 1) = Some v.

(** The same for assignments, where null is a value like another. *)
Definition placed_all (d : record) (cs : list cond) (ps : list value) : Prop :=
  forall i k v,
    nth_error d i = Some (k, v) ->
    exists n,
      nth_error cs i = Some (Equals k n)
      /\ 1 <= n
      /\ nth_error ps (n - 1) = Some v.

(** A null filter is an [IS NULL] test, any other filter one placeholder. *)
Definition null_rule (e : string * value) (c : cond) : Prop :=
  if is_null (snd e)
  then c = IsNull (fst e)
  else exists n, c = Equals (fst e) n.

(** The text of a compilation, or the error it threw. *)
Definition text_of (r : result QueryResult) : result string :=
  match r with
  | Ok q => Ok (sql q)
  | Throw e => Throw e
  end.

(** The specification's escaping: the identifier between double quotes,
    every double quote inside it written twice. *)
Fixpoint double_dquotes (s : string) : string :=
  match s with
  | EmptyString => EmptyString
  | String c s' =>
      if Ascii.eqb c dquote
      then String dquote (String dquote (double_dquotes s'))
      else String c (double_dquotes s')
  end.

Definition escape_by_doubling (identifier : string) : string :=
  String dquote (double_dquotes identifier ++ String dquote "").

(** How a quoted identifier is read back under that escaping: two double
    quotes in a row stand for one, a single one closes the identifier.
    [read_quoted_body s] is the identifier read and the text left after the
    closing quote, [None] when no quote closes it. *)
Fixpoint read_quoted_body (s : string) : option (string * string) :=
  match s with
  | EmptyString => None
  | String c s' =>
      if Ascii.eqb c dquote
      then
        match s' with
        | String c' s'' =>
            if Ascii.eqb c' dquote
            then option_map (fun r => (String dquote (fst r), snd r))
                            (read_quoted_body s'')
            else Some (EmptyString, s')
        | EmptyString => Some (EmptyString, EmptyString)
        end
      else option_map (fun r => (String c (fst r), snd r)) (read_quoted_body s')
  end.

Definition read_quoted (s : string) : option (string * string) :=
  match s with
  | String c s' => if Ascii.eqb c dquote then read_quoted_body s' else None
  | EmptyString => None
  end.

(** The code's escaping, character by character. *)
Definition escape_char (c : ascii) : string :=
  if Ascii.eqb c dquote then String backslash (String dquote "") else String c "".

(** [s] with every character replaced by the string [f] gives for it. *)
Fixpoint expand (f : ascii -> string) (s : string) : string :=
  match s with
  | EmptyString => EmptyString
  | String c s' => f c ++ expand f s'
  end.

Definition occurs (c : ascii) (s : string) : Prop :=
  exists n, String.get n s = Some c.

End Anatomy.

(** ** Runs of the executor and of the introspector, as traces *)

Module Runs.
Import Js QueryExecutor Pg.

(** The events a run added to the trace it started from. *)
Definition news (before after : trace) : trace :=
  skipn (List.length before) after.

(** The texts and parameter arrays handed to the driver, in order. *)
Fixpoint queries_of (t : trace) : list (string * list value) :=
  match t with
  | [] => []
  | Queried _ text vs :: t' => (text, vs) :: queries_of t'
  | _ :: t' => queries_of t'
  end.

Definition queried_on (p : pool) (e : event) : Prop :=
  exists text vs, e = Queried p text vs.

(** A computation that only sends queries through the pool [p]. *)
Definition only_queries {A : Type} (p : pool) (m : M A) : Prop :=
  forall d t,
    exists qs, snd (m d t) = (t ++ qs)%list /\ Forall (queried_on p) qs.

(** The run opened one pool, the fresh one, queried it and ended it, in
    that order and with nothing after. *)
Definition scoped (before after : trace) : Prop :=
  exists c qs,
    after = (before
               ++ Created (fresh_pool before) c
               :: qs ++ [Ended (fresh_pool before)])%list
    /\ Forall (queried_on (fresh_pool before)) qs.

Definition is_ended (e : event) : bool :=
  match e with Ended _ => true | _ => false end.

(** One pool opened and one teardown, of that pool, as the last event. *)
Definition torn_down_once (before after : trace) : Prop :=
  scoped before after
  /\ List.length (filter is_created (news before after)) = 1
  /\ List.length (filter is_ended (news before after)) = 1
  /\ List.length (filter (is_ended_of (fresh_pool before)) (news before after)) = 1.

(** The outcome of [try { ... } finally { await pool.end() }] from the
    outcome of the body and the reply to [end]. *)
Definition after_end {A : Type} (r : result A) (e : result unit) : result A :=
  match e with
  | Ok _ => r
  | Throw err => Throw err
  end.

(** What the compiler hands over: one query, or none when it threw. *)
Definition compiled (r : result QueryResult) : list (string * list value) :=
  match r with
  | Ok q => [(sql q, params q)]
  | Throw _ => []
  end.

Definition executor_pool (config : PostgresConfig) : PoolConfig :=
  mkPoolConfig (host config) (port config) (database config)
    (username config) (password config) (ssl_option config)
    10000 (Some 30000%Z).

Definition introspector_pool (config : PostgresConfig) (query_timeout : option Z)
  : PoolConfig :=
  mkPoolConfig (host config) (port config) (database config)
    (username config) (password config) (ssl_option config)
    10000 query_timeout.

(** The frame every executor and introspector function is written in:
    construct a pool, run a body in a [try], end the pool in [finally]. *)
Definition with_pool {A : Type} (c : PoolConfig) (body : pool -> M A) : M A :=
  bind (new_Pool c) (fun p => try_finally (body p) (pool_end p)).

(** The four executors differ by the compiler they call and by the result
    they shape. *)
Definition execute_with {A : Type} (config : PostgresConfig)
           (compile : result QueryResult) (shape : QueryReply -> A) : M A :=
  with_pool (executor_pool config)
    (fun p =>
       bind (lift compile) (fun q =>
       bind (pool_query p (sql q) (params q)) (fun reply =>
       ret (shape reply)))).

(** The value of [estimateResult.rows[0]?.estimate ?? 0], parsed. *)
Definition estimate_of (reply : QueryReply) : number :=
  parseInt (coalesce (first_field (rows reply) "estimate") (VStr "0")).

Definition count_of (reply : QueryReply) : number :=
  parseInt (coalesce (first_field (rows reply) "count") (VStr "0")).

(** The [try] block of [getTableRowCount]. *)
Definition row_count_body (tableName : string) (p : pool) : M number :=
  bind (pool_query p SchemaIntrospector.ESTIMATE_SQL [VStr tableName])
    (fun estimateResult =>
       if lt (estimate_of estimateResult) 10000
       then bind (pool_query p (SchemaIntrospector.count_sql tableName) [])
              (fun countResult => ret (count_of countResult))
       else ret (estimate_of estimateResult)).

End Runs.

(** ** Sample inputs *)

Module Samples.
Import Js QueryExecutor Pg.

(** A table name with a double quote in it: a, double quote, b. *)
Definition quoted_name : string := String "a" (String dquote "b").

(** [s] between two double quotes, nothing escaped. *)
Definition quoted (s : string) : string :=
  String dquote (s ++ String dquote "").

Definition sample_config : PostgresConfig :=
  mkPostgresConfig "localhost" 5432 "testdb" "user" "pass" (Some false).

(** A driver that answers every query with no row and ends well. *)
Definition quiet_driver : driver :=
  mkDriver (fun _ _ _ _ => Ok (mkQueryReply [] VNull)) (fun _ _ => Ok tt).

(** A driver that rejects every query and ends well. *)
Definition failing_driver : driver :=
  mkDriver (fun _ _ _ _ => Throw (Error "Connection refused"))
           (fun _ _ => Ok tt).

(** A driver for a table at the threshold: the catalogue estimates 10000
    rows, an exact count finds 9987. *)
Definition threshold_driver : driver :=
  mkDriver
    (fun _ _ _ vs =>
       match vs with
       | [] => Ok (mkQueryReply [[("count", VStr "9987")]] (VNum 1))
       | _ => Ok (mkQueryReply [[("estimate", VStr "10000")]] (VNum 1))
       end)
    (fun _ _ => Ok tt).

(** A driver for a small table: an estimate of 42, an exact count of 40. *)
Definition small_driver : driver :=
  mkDriver
    (fun _ _ _ vs =>
       match vs with
       | [] => Ok (mkQueryReply [[("count", VStr "40")]] (VNum 1))
       | _ => Ok (mkQueryReply [[("estimate", VStr "42")]] (VNum 1))
       end)
    (fun _ _ => Ok tt).

(** A driver for a large table: an estimate of 250000. *)
Definition large_driver : driver :=
  mkDriver
    (fun _ _ _ vs =>
       match vs with
       | [] => Ok (mkQueryReply [[("count", VStr "249000")]] (VNum 1))
       | _ => Ok (mkQueryReply [[("estimate", VStr "250000")]] (VNum 1))
       end)
    (fun _ _ => Ok tt).

(** A driver for a database of one table with a composite key: the
    replies follow the order of the three kinds of query. *)
Definition order_items_driver : driver :=
  mkDriver
    (fun t _ _ _ =>
       match List.length t with
       | 1 => Ok (mkQueryReply [[("table_name", VStr "order_items")]] (VNum 1))
       | 2 => Ok (mkQueryReply
                    [[("column_name", VStr "order_id");
                      ("data_type", VStr "integer");
                      ("is_nullable", VStr "NO");
                      ("column_default", VNull)];
                     [("column_name", VStr "quantity");
                      ("data_type", VStr "integer");
                      ("is_nullable", VStr "YES");
                      ("column_default", VStr "1")]]
                    (VNum 2))
       | _ => Ok (mkQueryReply
                    [[("column_name", VStr "order_id")];
                     [("column_name", VStr "product_id")]]
                    (VNum 2))
       end)
    (fun _ _ => Ok tt).

End Samples.

(** ** The credential store: [isValidKey], [getKey], [encrypt], [decrypt]

    AES-256-GCM itself is Node's: it enters as two parameters, the cipher
    (ciphertext bytes and authentication tag of a plaintext) and the
    decipher (the plaintext of a hex ciphertext, or the error [final]
    throws).  The environment variable and the bytes [randomBytes] draws
    are arguments.  A [Buffer] is a list of bytes. *)

Module Encryption.
Import Js.

Definition Buffer : Type := list ascii.

Definition IV_LENGTH : nat := 16.
Definition AUTH_TAG_LENGTH : nat := 16.

(** The value of a hexadecimal digit, of either case. *)
Definition unhex (c : ascii) : option nat :=
  let n := nat_of_ascii c in
  if ((48 <=? n)%nat && (n <=? 57)%nat)%bool then Some (n - 48)
  else if ((97 <=? n)%nat && (n <=? 102)%nat)%bool then Some (n - 87)
  else if ((65 <=? n)%nat && (n <=? 70)%nat)%bool then Some (n - 55)
  else None.

Definition is_hex_digit (c : ascii) : bool :=
  match unhex c with
  | Some _ => true
  | None => false
  end.

Definition hex_char (n : nat) : ascii :=
  ascii_of_nat (if (n <? 10)%nat then 48 + n else 87 + n).

Definition byte_to_hex (b : ascii) : string :=
  let n := nat_of_ascii b in
  String (hex_char (n / 16)) (String (hex_char (n mod 16)) EmptyString).

(** [buf.toString(hex)]: two lower-case digits a byte. *)
Fixpoint toString_hex (b : Buffer) : string :=
  match b with
  | [] => EmptyString
  | x :: b' => byte_to_hex x ++ toString_hex b'
  end.

(** [Buffer.from(s, hex)]: one byte for each pair of digits, up to the
    first pair that is not two digits; a last single character is
    dropped. *)
Fixpoint from_hex (s : string) : Buffer :=
  match s with
  | String a (String b s') =>
      match unhex a, unhex b with
      | Some x, Some y => ascii_of_nat (16 * x + y) :: from_hex s'
      | _, _ => []
      end
  | _ => []
  end.

Definition colon : ascii := ":"%char.

(** [s.split(colon)]: the pieces between the colons, one more than there
    are colons. *)
Fixpoint split_colon (s : string) : list string :=
  match s with
  | EmptyString => [EmptyString]
  | String c s' =>
      if Ascii.eqb c colon
      then EmptyString :: split_colon s'
      else
        match split_colon s' with
        | p :: ps => String c p :: ps
        | [] => [String c EmptyString]
        end
  end.

Fixpoint count_colons (s : string) : nat :=
  match s with
  | EmptyString => 0
  | String c s' =>
      if Ascii.eqb c colon then S (count_colons s') else count_colons s'
  end.

(** The test of the pattern of exactly 64 hexadecimal digits. *)
Definition matches_hex64 (s : string) : bool :=
  ((String.length s =? 64)%nat
   && forallb is_hex_digit (list_ascii_of_string s))%bool.

Definition isValidKey (key : string) : bool :=
  if negb (String.length key =? 64)%nat then false else matches_hex64 key.

Definition key_error : error :=
  Error "ENCRYPTION_KEY must be set and be 64 hex characters (32 bytes)".

(** [getKey()], with the value of [process.env.ENCRYPTION_KEY]. *)
Definition getKey (env_key : option string) : result Buffer :=
  match env_key with
  | None => Throw key_error
  | Some keyHex =>
      if (String.eqb keyHex "" || negb (isValidKey keyHex))%bool
      then Throw key_error
      else Ok (from_hex keyHex)
  end.

Section Cipher.

(** [createCipheriv] with [update] and [final]: the ciphertext bytes, whose
    hex the code concatenates, and the tag [getAuthTag] returns. *)
Variable cipher : Buffer -> Buffer -> string -> Buffer * Buffer.

(** [createDecipheriv] with [setAuthTag], [update] from hex and [final]. *)
Variable decipher : Buffer -> Buffer -> Buffer -> string -> result string.

(** [encrypt(plaintext)], with the 16 bytes [randomBytes] returned. *)
Definition encrypt (env_key : option string) (iv : Buffer) (plaintext : string)
  : result string :=
  match getKey env_key with
  | Throw e => Throw e
  | Ok key =>
      let '(encrypted, authTag) := cipher key iv plaintext in
      Ok (toString_hex iv ++ ":" ++ toString_hex authTag ++ ":"
            ++ toString_hex encrypted)
  end.

Definition decrypt (env_key : option string) (encryptedText : string)
  : result string :=
  if String.eqb encryptedText ""
  then Throw (Error "Invalid encrypted text")
  else
    match split_colon encryptedText with
    | [ivHex; authTagHex; ciphertext] =>
        if (String.eqb ivHex "" || String.eqb authTagHex "")%bool
        then Throw (Error "Invalid encrypted text format")
        else
          match getKey env_key with
          | Throw e => Throw e
          | Ok key =>
              let iv := from_hex ivHex in
              let authTag := from_hex authTagHex in
              if negb (List.length iv =? IV_LENGTH)%nat
              then Throw (Error "Invalid IV length")
              else if negb (List.length authTag =? AUTH_TAG_LENGTH)%nat
              then Throw (Error "Invalid auth tag length")
              else decipher key iv authTag ciphertext
          end
    | _ => Throw (Error "Invalid encrypted text format")
    end.

End Cipher.

(** A stand-in cipher for examples: the plaintext as it is under a tag of
    sixteen zero bytes, which the decipher checks. *)
Definition zero_tag : Buffer := repeat zero 16.

Definition toy_cipher (key iv : Buffer) (plaintext : string) : Buffer * Buffer :=
  (list_ascii_of_string plaintext, zero_tag).

Definition buffer_eqb (a b : Buffer) : bool :=
  String.eqb (string_of_list_ascii a) (string_of_list_ascii b).

Definition toy_decipher (key iv authTag : Buffer) (ciphertext : string)
  : result string :=
  if buffer_eqb authTag zero_tag
  then Ok (string_of_list_ascii (from_hex ciphertext))
  else Throw (Error "Unsupported state or unable to authenticate data").

Definition sample_key : string :=
  "0123456789abcdef0123456789ABCDEF0123456789abcdef0123456789ABCDEF".

Definition sample_iv : Buffer :=
  list_ascii_of_string "0123456789abcdef".

End Encryption.

(** ** Roles: [hasMinimumRole] and [assertRole] *)

Module Organization.
Import Js.

Inductive Role : Type := VIEWER | EDITOR | ADMIN | OWNER.

Definition ROLE_HIERARCHY (r : Role) : nat :=
  match r with
  | VIEWER => 0
  | EDITOR => 1
  | ADMIN => 2
  | OWNER => 3
  end.

Definition show_role (r : Role) : string :=
  match r with
  | VIEWER => "VIEWER"
  | EDITOR => "EDITOR"
  | ADMIN => "ADMIN"
  | OWNER => "OWNER"
  end.

Definition hasMinimumRole (userRole requiredRole : Role) : bool :=
  (ROLE_HIERARCHY requiredRole <=? ROLE_HIERARCHY userRole)%nat.

Record TRPCError : Type := mkTRPCError {
  code : string;
  trpc_message : string
}.

(** A call that returns or throws a [TRPCError]. *)
Inductive outcome (A : Type) : Type :=
| Return (a : A)
| Raise (e : TRPCError).
Arguments Return {A} a.
Arguments Raise {A} e.

Definition assertRole (userRole requiredRole : Role) : outcome unit :=
  if negb (hasMinimumRole userRole requiredRole)
  then Raise (mkTRPCError "FORBIDDEN" (show_role requiredRole ++ " access required"))
  else Return tt.

End Organization.

(** ** Slugs: [generateSlug]

    [toLowerCase] is the built-in; it is a parameter of the model. *)

Module AppRouter.
Import Js.

Definition dash : ascii := "-"%char.

(** The class of the first pattern: a lower-case letter or a digit. *)
Definition is_slug_char (c : ascii) : bool :=
  let n := nat_of_ascii c in
  (((97 <=? n)%nat && (n <=? 122)%nat) || ((48 <=? n)%nat && (n <=? 57)%nat))%bool.

(** The first [replace]: every maximal run of characters outside the class
    becomes one dash.  [in_run] tells that the run the next character would
    belong to has its dash already. *)
Fixpoint replace_runs (in_run : bool) (s : string) : string :=
  match s with
  | EmptyString => EmptyString
  | String c s' =>
      if is_slug_char c then String c (replace_runs false s')
      else if in_run then replace_runs true s'
      else String dash (replace_runs true s')
  end.

(** The second [replace], global, of a dash at the start or at the end:
    first the one at the start, then, in what is left, the one at the end. *)
Definition strip_leading_dash (s : string) : string :=
  match s with
  | String c s' => if Ascii.eqb c dash then s' else s
  | EmptyString => EmptyString
  end.

Fixpoint strip_trailing_dash (s : string) : string :=
  match s with
  | EmptyString => EmptyString
  | String c EmptyString => if Ascii.eqb c dash then EmptyString else s
  | String c s' => String c (strip_trailing_dash s')
  end.

Section Slug.

Variable toLowerCase : string -> string.

Definition generateSlug (name : string) : string :=
  strip_trailing_dash
    (strip_leading_dash (replace_runs false (toLowerCase name))).

End Slug.

(** The letters and digits of a string, in order. *)
Definition slug_chars (s : string) : list ascii :=
  filter is_slug_char (list_ascii_of_string s).

(** Lower-case letters, digits and single dashes; after a dash, when
    [after_dash] is set, no other dash. *)
Fixpoint no_double (after_dash : bool) (s : string) : bool :=
  match s with
  | EmptyString => true
  | String c s' =>
      if Ascii.eqb c dash
      then (negb after_dash && no_double true s')%bool
      else (is_slug_char c && no_double false s')%bool
  end.

Fixpoint ends_with_dash (s : string) : bool :=
  match s with
  | EmptyString => false
  | String c EmptyString => Ascii.eqb c dash
  | String _ s' => ends_with_dash s'
  end.

(** A lower-casing of the bytes of plain letters, for examples. *)
Definition ascii_lower (c : ascii) : ascii :=
  let n := nat_of_ascii c in
  if ((65 <=? n)%nat && (n <=? 90)%nat)%bool then ascii_of_nat (n + 32) else c.

Fixpoint lower (s : string) : string :=
  match s with
  | EmptyString => EmptyString
  | String c s' => String (ascii_lower c) (lower s')
  end.

End AppRouter.

(** ** The connection test of the data source router *)

Module DataSource.
Import Js Pg.

Record TestResult : Type := mkTestResult {
  success : bool;
  test_error : option string;
  latencyMs : option Z
}.

(** [try { body } catch (err) { handler }] *)
Definition try_catch {A : Type} (body : M A) (handler : error -> M A) : M A :=
  fun d t =>
    match body d t with
    | (Ok a, t') => (Ok a, t')
    | (Throw e, t') => handler e d t'
    end.

(** [err instanceof Error ? err.message : "Unknown error"] *)
Definition error_text (err : error) : string :=
  match err with
  | Error message => message
  | Thrown _ => "Unknown error"
  end.

(** [testPostgresConnection(config)].  [now] is the clock: what
    [Date.now()] reads after the events so far. *)
Definition testPostgresConnection (now : trace -> Z) (config : PostgresConfig)
  : M TestResult :=
  fun d t0 =>
    let startTime := now t0 in
    bind
      (new_Pool (mkPoolConfig (host config) (port config) (database config)
                   (username config) (password config) (ssl_option config)
                   10000 (Some 5000%Z)))
      (fun pool =>
         try_finally
           (try_catch
              (bind (pool_query pool "SELECT NOW()" [])
                 (fun _ =>
                    fun _ t =>
                      (Ok (mkTestResult true None (Some (now t - startTime)%Z)),
                       t)))
              (fun err => ret (mkTestResult false (Some (error_text err)) None)))
           (pool_end pool))
      d t0.

End DataSource.

(** ** Where a run stops *)

Module Stops.
Import Js Pg Runs.

(** The run threw [e] because the driver rejected, with [e], the last
    query sent: nothing was sent after it. *)
Definition rejected_last (d : driver) (p : pool) (e : error) (after : trace)
  : Prop :=
  exists tr text vs,
    after = (tr ++ [Queried p text vs])%list
    /\ query_reply d tr p text vs = Throw e.

(** A computation whose every error is the rejection of its last query. *)
Definition stops_at_rejection {A : Type} (p : pool) (m : M A) : Prop :=
  forall d t e t', m d t = (Throw e, t') -> rejected_last d p e t'.

End Stops.

(** ** What a schema snapshot is made of *)

Module Snapshots.
Import Js Pg SchemaIntrospector Runs.

Definition table_name_of (r : row) : value := get r "table_name".

(** The two queries the loop sends for the table of one row. *)
Definition table_queries (r : row) : list (string * list value) :=
  [(COLUMNS_SQL, [table_name_of r]); (PRIMARY_KEY_SQL, [table_name_of r])].

(** The columns and the key of [tb] are what the driver answered to the two
    queries for its name, sent one after the other. *)
Definition table_from_replies (d : driver) (p : pool) (tb : TableInfo) : Prop :=
  exists tr columnsResult pkResult,
    query_reply d tr p COLUMNS_SQL [name tb] = Ok columnsResult
    /\ query_reply d (tr ++ [Queried p COLUMNS_SQL [name tb]])%list p
         PRIMARY_KEY_SQL [name tb]
       = Ok pkResult
    /\ columns tb = map column_of_row (rows columnsResult)
    /\ primaryKey tb = map (fun pk => get pk "column_name") (rows pkResult).

(** The [try] block of [introspectPostgresSchema]. *)
Definition introspect_body (p : pool) : M SchemaInfo :=
  bind (pool_query p TABLES_SQL []) (fun tablesResult =>
  bind (introspect_tables p (rows tablesResult) []) (fun tables =>
  ret (mkSchemaInfo tables))).

(** The [try] block of an executor whose compilation gave [q]. *)
Definition execute_body {A : Type} (compile : result QueryExecutor.QueryResult)
           (shape : QueryReply -> A) (p : pool) : M A :=
  bind (lift compile) (fun q =>
  bind (pool_query p (QueryExecutor.sql q) (QueryExecutor.params q))
    (fun reply => ret (shape reply))).

(** A driver with no statistics and no rows at all. *)
Definition empty_driver : driver :=
  mkDriver (fun _ _ _ _ => Ok (mkQueryReply [] VNull)) (fun _ _ => Ok tt).

(** A driver whose catalogue estimate is not a number. *)
Definition odd_driver : driver :=
  mkDriver
    (fun _ _ _ _ => Ok (mkQueryReply [[("estimate", VStr "n/a")]] (VNum 1)))
    (fun _ _ => Ok tt).

(** A driver that answers every query and fails to end. *)
Definition stuck_driver : driver :=
  mkDriver (fun _ _ _ _ => Ok (mkQueryReply [[("id", VNum 1)]] (VNum 1)))
           (fun _ _ => Throw (Error "end failed")).

(** A driver that rejects every query with a string, not an [Error]. *)
Definition rude_driver : driver :=
  mkDriver (fun _ _ _ _ => Throw (Thrown (VStr "connection timed out")))
           (fun _ _ => Ok tt).

(** A clock that counts the events. *)
Definition event_clock (t : trace) : Z := Z.of_nat (List.length t).

End Snapshots.

(** ** The proxy: [isProtectedRoute], [addSecurityHeaders],
    [addRateLimitHeaders], [proxy]

    A request is its path, the values of the two session cookies and of
    the request-id header; a response is a pass-through with the headers
    this code set on it, or a redirect, to a path and with the callback
    parameter when there is one.  [crypto.randomUUID()] is an argument. *)

Module Proxy.
Import Js.

Definition PROTECTED_ROUTES : list string := ["/new"; "/api/trpc"].
Definition AUTH_ROUTES : list string := ["/login"; "/register"].
Definition PUBLIC_ROUTES : list string := ["/"; "/api/auth"].

Definition RATE_LIMIT_WINDOW : nat := 60.
Definition RATE_LIMIT_MAX_REQUESTS : nat := 100.

(** [s.startsWith(p)] *)
Definition startsWith (s p : string) : bool := String.prefix p s.

(** [s.includes(c)] for a one-character [c]. *)
Fixpoint includes_char (c : ascii) (s : string) : bool :=
  match s with
  | EmptyString => false
  | String x s' => (Ascii.eqb x c || includes_char c s')%bool
  end.

(** [xs.includes(x)] *)
Definition includes (xs : list string) (x : string) : bool :=
  existsb (String.eqb x) xs.

Definition slash : ascii := "/"%char.

(** [s.split(sep)] for a one-character separator. *)
Fixpoint split_on (sep : ascii) (s : string) : list string :=
  match s with
  | EmptyString => [EmptyString]
  | String c s' =>
      if Ascii.eqb c sep
      then EmptyString :: split_on sep s'
      else
        match split_on sep s' with
        | p :: ps => String c p :: ps
        | [] => [String c EmptyString]
        end
  end.

(** [xs[i]] spliced into a string: the word undefined when there is no
    such element. *)
Definition element_text (xs : list string) (i : nat) : string :=
  match nth_error xs i with
  | Some x => x
  | None => "undefined"
  end.

Definition is_lower (c : ascii) : bool :=
  let n := nat_of_ascii c in ((97 <=? n)%nat && (n <=? 122)%nat)%bool.

Definition is_digit (c : ascii) : bool :=
  let n := nat_of_ascii c in ((48 <=? n)%nat && (n <=? 57)%nat)%bool.

Definition is_slug_tail (c : ascii) : bool :=
  (is_lower c || is_digit c || Ascii.eqb c "-"%char)%bool.

(** The test of the org slug pattern: a slash, a lower-case letter, then
    lower-case letters, digits and dashes to the end. *)
Definition orgSlugPattern (s : string) : bool :=
  match s with
  | String c0 (String c1 rest) =>
      (Ascii.eqb c0 slash && is_lower c1
       && forallb is_slug_tail (list_ascii_of_string rest))%bool
  | _ => false
  end.

Definition isProtectedRoute (pathname : string) : bool :=
  if existsb (fun route => startsWith pathname route) PROTECTED_ROUTES
  then true
  else
    let firstSegment := "/" ++ element_text (split_on slash pathname) 1 in
    if (negb (String.eqb firstSegment "")
        && orgSlugPattern firstSegment
        && negb (includes PUBLIC_ROUTES firstSegment)
        && negb (includes AUTH_ROUTES firstSegment))%bool
    then true
    else false.

Definition headers : Type := list (string * string).

(** [headers.set(name, value)]: the value replaces the one under the same
    name, or the pair comes last. *)
Fixpoint set_header (hs : headers) (name value : string) : headers :=
  match hs with
  | [] => [(name, value)]
  | (n, v) :: hs' =>
      if String.eqb n name then (n, value) :: hs'
      else (n, v) :: set_header hs' name value
  end.

(** [headers.get(name)] *)
Fixpoint get_header (hs : headers) (name : string) : option string :=
  match hs with
  | [] => None
  | (n, v) :: hs' => if String.eqb n name then Some v else get_header hs' name
  end.

Inductive response : Type :=
| Next (hs : headers)
| Redirect (path : string) (callbackUrl : option string).

Record request : Type := mkRequest {
  pathname : string;
  session_cookie : option string;
  secure_session_cookie : option string;
  request_id : option string
}.

Definition CONTENT_SECURITY_POLICY : string :=
  join "; "
    ["default-src 'self'";
     "script-src 'self' 'unsafe-inline' 'unsafe-eval'";
     "style-src 'self' 'unsafe-inline'";
     "img-src 'self' data: https:";
     "font-src 'self' data:";
     "connect-src 'self' https:";
     "frame-ancestors 'none'";
     "base-uri 'self'";
     "form-action 'self'"].

Definition PERMISSIONS_POLICY : string :=
  join ", "
    ["camera=()"; "microphone=()"; "geolocation=()"; "payment=()"; "usb=()";
     "magnetometer=()"; "gyroscope=()"; "accelerometer=()"].

Definition addSecurityHeaders (hs : headers) : headers :=
  let hs := set_header hs "Content-Security-Policy" CONTENT_SECURITY_POLICY in
  let hs := set_header hs "Strict-Transport-Security"
              "max-age=31536000; includeSubDomains; preload" in
  let hs := set_header hs "X-Content-Type-Options" "nosniff" in
  let hs := set_header hs "X-Frame-Options" "DENY" in
  let hs := set_header hs "Referrer-Policy" "strict-origin-when-cross-origin" in
  let hs := set_header hs "Permissions-Policy" PERMISSIONS_POLICY in
  set_header hs "X-XSS-Protection" "1; mode=block".

Definition addRateLimitHeaders (uuid : string) (hs : headers) (req : request)
  : headers :=
  let hs := set_header hs "X-RateLimit-Limit" (show_nat RATE_LIMIT_MAX_REQUESTS) in
  let hs := set_header hs "X-RateLimit-Window" (show_nat RATE_LIMIT_WINDOW) in
  let requestId :=
    match request_id req with
    | Some v => v
    | None => uuid
    end in
  set_header hs "X-Request-Id" requestId.

(** The value of the first cookie when it is there, of the second one
    otherwise: the code chains them with [??]. *)
Definition sessionToken (req : request) : option string :=
  match session_cookie req with
  | Some v => Some v
  | None => secure_session_cookie req
  end.

(** [!!sessionToken]: a token that is there and not empty. *)
Definition isAuthenticated (req : request) : bool :=
  match sessionToken req with
  | Some v => negb (String.eqb v "")
  | None => false
  end.

(** The paths the proxy lets through untouched. *)
Definition is_skipped (path : string) : bool :=
  (startsWith path "/_next" || startsWith path "/api/auth"
   || includes_char "."%char path)%bool.

Definition proxy (uuid : string) (req : request) : response :=
  if is_skipped (pathname req)
  then Next []
  else if includes AUTH_ROUTES (pathname req)
  then
    if isAuthenticated req
    then Redirect "/" None
    else Next (addSecurityHeaders [])
  else if (isProtectedRoute (pathname req) && negb (isAuthenticated req))%bool
  then Redirect "/login" (Some (pathname req))
  else Next (addRateLimitHeaders uuid (addSecurityHeaders []) req).

(** The security headers and their values. *)
Definition SECURITY_HEADERS : headers :=
  [("Content-Security-Policy", CONTENT_SECURITY_POLICY);
   ("Strict-Transport-Security", "max-age=31536000; includeSubDomains; preload");
   ("X-Content-Type-Options", "nosniff");
   ("X-Frame-Options", "DENY");
   ("Referrer-Policy", "strict-origin-when-cross-origin");
   ("Permissions-Policy", PERMISSIONS_POLICY);
   ("X-XSS-Protection", "1; mode=block")].

(** A path segment the slug pattern accepts: a lower-case letter, then
    lower-case letters, digits and dashes. *)
Definition slug_like (seg : string) : bool :=
  match seg with
  | String c rest =>
      (is_lower c && forallb is_slug_tail (list_ascii_of_string rest))%bool
  | EmptyString => false
  end.

End Proxy.

(** ** Facts about strings and lists *)

Module StringFacts.
Import Js.

Lemma append_assoc (a b c : string) : (a ++ b) ++ c = a ++ (b ++ c).
Proof. induction a as [|x a IH]; simpl; [reflexivity | now rewrite IH]. Qed.

Lemma append_nil_r (a : string) : a ++ "" = a.
Proof. induction a as [|x a IH]; simpl; [reflexivity | now rewrite IH]. Qed.

Lemma append_inv_head (a b c : string) : a ++ b = a ++ c -> b = c.
Proof.
  induction a as [|x a IH]; simpl; intros H; [exact H|].
  injection H as H. now apply IH.
Qed.

Lemma length_append (a b : string) :
  String.length (a ++ b) = String.length a + String.length b.
Proof. induction a as [|x a IH]; simpl; [reflexivity | now rewrite IH]. Qed.

Lemma append_inv_tail (a b c : string) : a ++ c = b ++ c -> a = b.
Proof.
  revert b. induction a as [|x a IH]; intros [|y b] H; simpl in H.
  - reflexivity.
  - apply (f_equal String.length) in H. simpl in H.
    rewrite length_append in H. lia.
  - apply (f_equal String.length) in H. simpl in H.
    rewrite length_append in H. lia.
  - injection H as -> H. f_equal. now apply IH.
Qed.

Lemma show_nat_inj (n m : nat) : show_nat n = show_nat m -> n = m.
Proof.
  unfold show_nat. intros H.
  assert (E : Some (Nat.to_uint n) = Some (Nat.to_uint m)).
  { rewrite <- (NilEmpty.usu (Nat.to_uint n)), <- (NilEmpty.usu (Nat.to_uint m)).
    now rewrite H. }
  injection E as E.
  rewrite <- (DecimalNat.Unsigned.of_to n), <- (DecimalNat.Unsigned.of_to m).
  now rewrite E.
Qed.

End StringFacts.

(** ** Facts about numbers *)

Module DoubleFacts.
Import Js Double.

Lemma SFcompare_antisym (a b : SpecFloat.spec_float) :
  SpecFloat.SFcompare b a = option_map CompOpp (SpecFloat.SFcompare a b).
Proof.
  destruct a as [sa|sa| |sa ma ea], b as [sb|sb| |sb mb eb];
    try destruct sa; try destruct sb; try reflexivity;
    cbn [SpecFloat.SFcompare option_map]; f_equal;
    rewrite (Z.compare_antisym ea eb);
    destruct (ea ?= eb)%Z; cbn [CompOpp]; try reflexivity.
  - rewrite Pos.compare_cont_antisym. cbn [CompOpp].
    now rewrite CompOpp_involutive.
  - now rewrite Pos.compare_cont_antisym.
Qed.

Lemma ltb_not_nan (x y : double) :
  ltb x y = true -> is_nan x = false /\ is_nan y = false.
Proof.
  unfold ltb, is_nan, SpecFloat.SFltb.
  destruct (repr x), (repr y); cbn [SpecFloat.SFcompare]; intros H;
    try discriminate; now split.
Qed.

(** Below plus infinity lies every number but [NaN] and plus infinity
    itself. *)
Lemma not_below_infinity (l : double) :
  is_nan l = false -> ltb l (infinity false) = false ->
  repr l = SpecFloat.S754_infinity false.
Proof.
  unfold is_nan, ltb, SpecFloat.SFltb. cbn [repr infinity].
  destruct (repr l) as [s|s| |s m e]; cbn [SpecFloat.SFcompare];
    try destruct s; intros Hn H; try discriminate; reflexivity.
Qed.

(** [Math.min(l, c)] for a [c] other than the negative zero that is below
    plus infinity: [c] when it is below [l], and [l] otherwise. *)
Lemma Math_min_two (l c : double) :
  is_nan l = false -> ltb c (infinity false) = true ->
  is_zero true c = false ->
  Math_min [l; c] = if ltb c l then c else l.
Proof.
  intros Hl Hc Hz. destruct (ltb_not_nan _ _ Hc) as [Hcn _].
  unfold Math_min. cbn [existsb fold_left]. rewrite Hl, Hcn. cbn [orb].
  unfold min_step at 2. cbn [is_zero repr infinity].
  rewrite Bool.andb_false_r.
  destruct (ltb l (infinity false)) eqn:E.
  - unfold min_step. rewrite Hz. reflexivity.
  - unfold min_step. rewrite Hz, Hc. cbn [andb].
    assert (R := not_below_infinity l Hl E).
    unfold ltb in *. rewrite R. cbn [repr infinity] in Hc. now rewrite Hc.
Qed.

Lemma Math_min_nan (l c : double) : is_nan l = true -> Math_min [l; c] = nan.
Proof. intros H. unfold Math_min. cbn [existsb]. now rewrite H. Qed.

Lemma not_above_is_below (l c : double) :
  is_nan l = false -> is_nan c = false -> ltb c l = false -> leb l c = true.
Proof.
  unfold is_nan, ltb, leb, SpecFloat.SFltb, SpecFloat.SFleb.
  intros Hl Hc. rewrite (SFcompare_antisym (repr c) (repr l)).
  destruct (SpecFloat.SFcompare (repr c) (repr l)) as [[| |]|] eqn:E;
    cbn [option_map CompOpp]; try reflexivity; try discriminate.
  intros _. destruct (repr l), (repr c); try discriminate;
    cbn [SpecFloat.SFcompare] in E; discriminate.
Qed.

Lemma MAX_ROWS_finite :
  ltb QueryExecutor.MAX_ROWS (infinity false) = true
  /\ is_zero true QueryExecutor.MAX_ROWS = false
  /\ is_nan QueryExecutor.MAX_ROWS = false
  /\ leb QueryExecutor.MAX_ROWS QueryExecutor.MAX_ROWS = true
  /\ toString QueryExecutor.MAX_ROWS = "1000".
Proof. repeat split; vm_compute; reflexivity. Qed.

End DoubleFacts.

(** ** Facts about the compiler *)

Module CompilerFacts.
Import Js Double QueryExecutor Anatomy StringFacts.

Lemma where_step_eq (st : where_acc) (k : string) (v : value) :
  where_step st (k, v)
  = if is_null v
    then mkWhereAcc (push (conditions st) (render_cond (IsNull k)))
                    (wparams st) (paramIndex st)
    else mkWhereAcc (push (conditions st) (render_cond (Equals k (paramIndex st))))
                    (push (wparams st) v) (S (paramIndex st)).
Proof. reflexivity. Qed.

Lemma where_fold_spec (w : record) :
  forall cs ps n,
    fold_left where_step w (mkWhereAcc cs ps n)
    = mkWhereAcc (cs ++ map render_cond (where_conds w n))%list
                 (ps ++ where_values w)%list
                 (n + List.length (where_values w)).
Proof.
  induction w as [|[k v] w IH]; intros cs ps n; cbn [fold_left].
  - simpl. now rewrite !app_nil_r, Nat.add_0_r.
  - rewrite where_step_eq. cbn [conditions wparams paramIndex].
    destruct (is_null v) eqn:E; rewrite IH; unfold push;
      cbn [where_conds where_values]; rewrite E;
      rewrite <- !app_assoc; cbn [map app List.length render_cond].
    + reflexivity.
    + now rewrite Nat.add_succ_r.
Qed.

Lemma where_loop_spec (w : record) (n : nat) :
  where_loop w n
  = mkWhereAcc (map render_cond (where_conds w n)) (where_values w)
               (n + List.length (where_values w)).
Proof. unfold where_loop. now rewrite where_fold_spec. Qed.

Lemma where_conds_length (w : record) (n : nat) :
  List.length (where_conds w n) = List.length w.
Proof.
  revert n; induction w as [|[k v] w IH]; intros n; simpl; [reflexivity|].
  destruct (is_null v); simpl; now rewrite IH.
Qed.

Lemma buildWhereClause_spec (w : record) (n : nat) :
  buildWhereClause w n
  = mkWhereResult (match w with [] => "" | _ => where_text w n end)
                  (where_values w).
Proof.
  unfold buildWhereClause. rewrite where_loop_spec. simpl.
  rewrite length_map, where_conds_length.
  destruct w; reflexivity.
Qed.

Lemma placeholders_where (w : record) (n : nat) :
  placeholders (where_conds w n) = seq n (List.length (where_values w)).
Proof.
  revert n; induction w as [|[k v] w IH]; intros n; simpl; [reflexivity|].
  destruct (is_null v); simpl; now rewrite IH.
Qed.

Lemma placeholders_set (d : record) (n : nat) :
  placeholders (set_conds d n) = seq n (List.length d).
Proof.
  revert n; induction d as [|[k v] d IH]; intros n; simpl; [reflexivity|].
  now rewrite IH.
Qed.

Lemma placeholders_app (cs cs' : list cond) :
  placeholders (cs ++ cs') = (placeholders cs ++ placeholders cs')%list.
Proof.
  induction cs as [|[k|k n] cs IH]; simpl; [reflexivity|exact IH|now rewrite IH].
Qed.

Lemma set_clauses_spec (d : record) (i : nat) :
  mapi_from (fun e j => escapeIdentifier (fst e) ++ " = $" ++ show_nat (j + 1)) i d
  = map render_cond (set_conds d (i + 1)).
Proof.
  revert i; induction d as [|[k v] d IH]; intros i; simpl; [reflexivity|].
  f_equal. apply (IH (S i)).
Qed.

Lemma insert_placeholders_spec {A} (d : list A) (i : nat) :
  mapi_from (fun _ j => "$" ++ show_nat (j + 1)) i d
  = map placeholder_text (seq (i + 1) (List.length d)).
Proof.
  revert i; induction d as [|x d IH]; intros i; simpl; [reflexivity|].
  f_equal. apply (IH (S i)).
Qed.

Lemma where_conds_shape (w w' : record) (n : nat) :
  same_shape w w' -> where_conds w n = where_conds w' n.
Proof.
  intros [Hk Hn]. revert w' n Hk Hn.
  induction w as [|[k v] w IH]; intros [|[k' v'] w'] n Hk Hn;
    simpl in *; try discriminate; [reflexivity|].
  injection Hk as -> Hk. injection Hn as -> Hn.
  destruct (is_null v'); f_equal; now apply IH.
Qed.

Lemma set_conds_columns (d d' : record) (n : nat) :
  same_columns d d' -> set_conds d n = set_conds d' n.
Proof.
  unfold same_columns. revert d' n.
  induction d as [|[k v] d IH]; intros [|[k' v'] d'] n H;
    simpl in *; try discriminate; [reflexivity|].
  injection H as -> H. f_equal. now apply IH.
Qed.

Lemma same_shape_length (w w' : record) :
  same_shape w w' -> List.length w = List.length w'.
Proof.
  intros [H _]. apply (f_equal (@List.length _)) in H.
  now rewrite !length_map in H.
Qed.

Lemma buildSelectQuery_spec t cols w ob l off :
  buildSelectQuery (mkSelectOptions t cols w ob l off)
  = mkQueryResult
      (select_head t cols w ob
         ++ " LIMIT " ++ toString (Math_min [requested_or_default l; MAX_ROWS])
         ++ offset_text off)
      (select_params w).
Proof.
  unfold buildSelectQuery, select_head.
  cbn [sel_table sel_columns sel_where sel_orderBy sel_limit sel_offset].
  assert (Hw :
    match w with
    | Some w0 =>
        if (0 <? List.length w0)%nat
        then
          (("SELECT " ++ select_columns cols ++ " FROM " ++ escapeIdentifier t)
             ++ " " ++ clause (buildWhereClause w0 1),
           push_all [] (clause_params (buildWhereClause w0 1)))
        else ("SELECT " ++ select_columns cols ++ " FROM " ++ escapeIdentifier t, [])
    | None => ("SELECT " ++ select_columns cols ++ " FROM " ++ escapeIdentifier t, [])
    end
    = ("SELECT " ++ select_columns cols ++ " FROM " ++ escapeIdentifier t
         ++ select_where_text w, select_params w)).
  { destruct w as [[|e w0]|]; cbn [List.length Nat.ltb Nat.leb select_where_text select_params where_values].
    - now rewrite append_nil_r.
    - rewrite buildWhereClause_spec. cbn [clause clause_params push_all app].
      now rewrite !append_assoc.
    - now rewrite append_nil_r. }
  rewrite Hw. clear Hw.
  assert (Ho : forall s0,
    match ob with
    | Some obs =>
        if (0 <? List.length obs)%nat
        then s0 ++ " ORDER BY "
               ++ join ", "
                    (map (fun o => escapeIdentifier (column o) ++ " "
                                     ++ show_direction (dir o)) obs)
        else s0
    | None => s0
    end = s0 ++ select_order_text ob).
  { intros s0. destruct ob as [[|o obs]|]; cbn [List.length Nat.ltb Nat.leb select_order_text].
    - now rewrite append_nil_r.
    - reflexivity.
    - now rewrite append_nil_r. }
  rewrite Ho. clear Ho.
  unfold requested_or_default, MAX_ROWS.
  destruct off as [m|]; cbn [offset_text];
    rewrite ?append_nil_r, !append_assoc; reflexivity.
Qed.

Lemma buildInsertQuery_spec t d :
  buildInsertQuery (mkInsertOptions t d)
  = match d with
    | [] => Throw (Error "No data provided for insert")
    | _ => Ok (mkQueryResult (insert_text t d) (map snd d))
    end.
Proof.
  unfold buildInsertQuery. cbn [ins_table ins_data].
  destruct d as [|e d]; [reflexivity|].
  cbn [List.length Nat.eqb]. unfold mapi.
  rewrite insert_placeholders_spec, <- map_map. reflexivity.
Qed.

Lemma buildUpdateQuery_spec t d w :
  buildUpdateQuery (mkUpdateOptions t d w)
  = match d, w with
    | [], _ => Throw (Error "No data provided for update")
    | _, [] => Throw (Error "WHERE clause required for update")
    | _, _ => Ok (mkQueryResult (update_text t d w)
                                (map snd d ++ where_values w)%list)
    end.
Proof.
  unfold buildUpdateQuery. cbn [upd_table upd_data upd_where].
  destruct d as [|e d]; [reflexivity|].
  destruct w as [|f w]; [reflexivity|].
  cbn [List.length Nat.eqb]. unfold mapi.
  rewrite set_clauses_spec, buildWhereClause_spec, length_map.
  reflexivity.
Qed.

Lemma buildDeleteQuery_spec t w :
  buildDeleteQuery (mkDeleteOptions t w)
  = match w with
    | [] => Throw (Error "WHERE clause required for delete")
    | _ => Ok (mkQueryResult (delete_text t w) (where_values w))
    end.
Proof.
  unfold buildDeleteQuery. cbn [del_table del_where].
  destruct w as [|f w]; [reflexivity|].
  cbn [List.length Nat.eqb].
  rewrite buildWhereClause_spec. reflexivity.
Qed.

End CompilerFacts.

(** ** Where the values go *)

Module PlacementFacts.
Import Js Double QueryExecutor Anatomy StringFacts CompilerFacts.

Lemma where_conds_nth (w : record) :
  forall n i k v,
    nth_error w i = Some (k, v) -> is_null v = false ->
    exists m,
      nth_error (where_conds w n) i = Some (Equals k m)
      /\ n <= m
      /\ nth_error (where_values w) (m - n) = Some v.
Proof.
  induction w as [|[k0 v0] w IH]; intros n [|i] k v Hi Hv;
    simpl in Hi; try discriminate.
  - injection Hi as -> ->. simpl. rewrite Hv.
    exists n. rewrite Nat.sub_diag. simpl. auto.
  - simpl. destruct (is_null v0) eqn:E.
    + destruct (IH n i k v Hi Hv) as (m & H1 & H2 & H3).
      exists m. simpl. auto.
    + destruct (IH (S n) i k v Hi Hv) as (m & H1 & H2 & H3).
      exists m. simpl. repeat split; [exact H1|lia|].
      replace (m - n) with (S (m - S n)) by lia. exact H3.
Qed.

Lemma set_conds_nth (d : record) :
  forall n i k v,
    nth_error d i = Some (k, v) ->
    nth_error (set_conds d n) i = Some (Equals k (n + i))
    /\ nth_error (map snd d) i = Some v.
Proof.
  induction d as [|[k0 v0] d IH]; intros n [|i] k v Hi;
    simpl in Hi; try discriminate.
  - injection Hi as -> ->. simpl. now rewrite Nat.add_0_r.
  - simpl. destruct (IH (S n) i k v Hi) as [H1 H2].
    rewrite H1, H2. split; [|reflexivity]. do 2 f_equal. lia.
Qed.

Lemma placed_where (w : record) (front : list value) :
  placed w (where_conds w (List.length front + 1)) (front ++ where_values w).
Proof.
  intros i k v Hi Hv.
  destruct (where_conds_nth w (List.length front + 1) i k v Hi Hv)
    as (m & H1 & H2 & H3).
  exists m. repeat split; [exact H1|lia|].
  rewrite nth_error_app2 by lia.
  now replace (m - 1 - List.length front) with (m - (List.length front + 1)) by lia.
Qed.

Lemma placed_set (d : record) (back : list value) :
  placed_all d (set_conds d 1) (map snd d ++ back).
Proof.
  intros i k v Hi.
  destruct (set_conds_nth d 1 i k v Hi) as [H1 H2].
  exists (1 + i). repeat split; [exact H1|lia|].
  replace (1 + i - 1) with i by lia.
  rewrite nth_error_app1; [exact H2|].
  apply nth_error_Some. now rewrite H2.
Qed.

Lemma null_rule_where (w : record) (n : nat) :
  Forall2 null_rule w (where_conds w n).
Proof.
  revert n; induction w as [|[k v] w IH]; intros n; simpl; [constructor|].
  destruct (is_null v) eqn:E; constructor; auto;
    unfold null_rule; simpl; rewrite E; eauto.
Qed.

Lemma where_values_shape_length (w : record) :
  List.length (where_values w)
  = List.length (filter (fun e => negb (is_null (snd e))) w).
Proof.
  induction w as [|[k v] w IH]; simpl; [reflexivity|].
  destruct (is_null v); simpl; now rewrite IH.
Qed.

Lemma replace_dquotes_expand (s : string) :
  replace_dquotes s = expand escape_char s.
Proof.
  induction s as [|c s IH]; simpl; [reflexivity|].
  unfold escape_char. destruct (Ascii.eqb c dquote); simpl; now rewrite IH.
Qed.

Lemma dquote_after_backslash (s : string) :
  forall n,
    String.get n (replace_dquotes s) = Some dquote ->
    exists m, n = S m /\ String.get m (replace_dquotes s) = Some backslash.
Proof.
  induction s as [|c s IH]; intros n H; simpl in *.
  - destruct n; discriminate.
  - destruct (Ascii.eqb c dquote) eqn:E.
    + destruct n as [|[|n]]; simpl in H.
      * discriminate.
      * exists 0. split; reflexivity.
      * destruct (IH n H) as (m & -> & Hm).
        exists (S (S m)). split; [reflexivity|exact Hm].
    + destruct n as [|n]; simpl in H.
      * injection H as ->. rewrite Ascii.eqb_refl in E. discriminate.
      * destruct (IH n H) as (m & -> & Hm).
        exists (S m). split; [reflexivity|exact Hm].
Qed.

Lemma replace_dquotes_plain (s : string) :
  (forall n, String.get n s <> Some dquote) -> replace_dquotes s = s.
Proof.
  induction s as [|c s IH]; intros H; simpl; [reflexivity|].
  destruct (Ascii.eqb c dquote) eqn:E.
  - apply Ascii.eqb_eq in E. subst c. now destruct (H 0).
  - f_equal. apply IH. intros n. exact (H (S n)).
Qed.

Lemma replace_dquotes_changes (s : string) :
  occurs dquote s -> replace_dquotes s <> s.
Proof.
  intros [n H]. revert n H.
  induction s as [|c s IH]; intros n H; [destruct n; discriminate|].
  simpl. destruct (Ascii.eqb c dquote) eqn:E.
  - apply Ascii.eqb_eq in E. subst c. discriminate.
  - destruct n as [|n]; simpl in H.
    + injection H as ->. rewrite Ascii.eqb_refl in E. discriminate.
    + intros Heq. injection Heq as Heq. exact (IH n H Heq).
Qed.

Lemma doubling_reads_back (identifier : string) :
  read_quoted (escape_by_doubling identifier) = Some (identifier, "").
Proof.
  unfold escape_by_doubling, read_quoted. rewrite Ascii.eqb_refl.
  induction identifier as [|c s IH].
  - reflexivity.
  - cbn [double_dquotes]. destruct (Ascii.eqb c dquote) eqn:E.
    + apply Ascii.eqb_eq in E. subst c.
      cbn [append read_quoted_body]. rewrite !Ascii.eqb_refl.
      cbn [append] in IH. now rewrite IH.
    + cbn [append read_quoted_body]. rewrite E.
      cbn [append] in IH. now rewrite IH.
Qed.

Lemma read_quoted_body_plain (c : ascii) (s : string) :
  Ascii.eqb c dquote = false ->
  read_quoted_body (String c s)
  = option_map (fun r => (String c (fst r), snd r)) (read_quoted_body s).
Proof. intros H. cbn [read_quoted_body]. now rewrite H. Qed.

Lemma backslash_reads_short (identifier : string) :
  occurs dquote identifier ->
  read_quoted (escapeIdentifier identifier) <> Some (identifier, "").
Proof.
  unfold escapeIdentifier, read_quoted. rewrite Ascii.eqb_refl.
  intros [n H]. revert n H.
  induction identifier as [|c s IH]; intros n H; [destruct n; discriminate|].
  cbn [replace_dquotes]. destruct (Ascii.eqb c dquote) eqn:E.
  - apply Ascii.eqb_eq in E. subst c.
    clear IH. cbn [append]. rewrite read_quoted_body_plain by reflexivity.
    destruct (read_quoted_body _) as [[i r]|]; cbn [option_map fst snd];
      [|discriminate].
    intros Heq. injection Heq as Hc _ _. discriminate Hc.
  - destruct n as [|n]; simpl in H.
    + injection H as ->. rewrite Ascii.eqb_refl in E. discriminate.
    + cbn [append]. rewrite read_quoted_body_plain by exact E.
      specialize (IH n H).
      destruct (read_quoted_body _) as [[i r]|]; cbn [option_map fst snd];
        [|discriminate].
      intros Heq. injection Heq as -> ->. now apply IH.
Qed.

End PlacementFacts.


(** ** Facts about runs *)

Module RunFacts.
Import Js QueryExecutor Pg Executor SchemaIntrospector Runs.

Lemma news_app (t l : trace) : news t (t ++ l)%list = l.
Proof. unfold news. induction t as [|e t IH]; simpl; auto. Qed.

Lemma only_queries_ret {A} (p : pool) (a : A) : only_queries p (ret a).
Proof. intros d t. exists []. simpl. now rewrite app_nil_r. Qed.

Lemma only_queries_lift {A} (p : pool) (r : result A) : only_queries p (lift r).
Proof. intros d t. exists []. simpl. now rewrite app_nil_r. Qed.

Lemma only_queries_query (p : pool) (text : string) (vs : list value) :
  only_queries p (pool_query p text vs).
Proof.
  intros d t. exists [Queried p text vs]. simpl. split; [reflexivity|].
  constructor; [|constructor]. now exists text, vs.
Qed.

Lemma only_queries_bind {A B} (p : pool) (m : M A) (f : A -> M B) :
  only_queries p m -> (forall a, only_queries p (f a)) ->
  only_queries p (bind m f).
Proof.
  intros Hm Hf d t. unfold bind.
  destruct (Hm d t) as (qs & E & F).
  destruct (m d t) as [[a|e] t']; simpl in E; subst t'.
  - destruct (Hf a d (t ++ qs)%list) as (qs' & E' & F').
    exists (qs ++ qs')%list. rewrite E', app_assoc. split; [reflexivity|].
    now apply Forall_app.
  - exists qs. now split.
Qed.

Lemma only_queries_if {A} (p : pool) (b : bool) (m m' : M A) :
  only_queries p m -> only_queries p m' ->
  only_queries p (if b then m else m').
Proof. now destruct b. Qed.

Create HintDb runs.
#[local] Hint Resolve only_queries_ret only_queries_lift only_queries_query
  only_queries_if : runs.

Lemma only_queries_introspect_tables (p : pool) (table_rows : list row) :
  forall tables, only_queries p (introspect_tables p table_rows tables).
Proof.
  induction table_rows as [|r rest IH]; intros tables; cbn [introspect_tables].
  - auto with runs.
  - apply only_queries_bind; [auto with runs|]. intros columnsResult.
    apply only_queries_bind; [auto with runs|]. intros pkResult.
    apply IH.
Qed.

Lemma with_pool_scoped {A} (c : PoolConfig) (body : pool -> M A) :
  (forall p, only_queries p (body p)) ->
  forall d t, scoped t (snd (with_pool c body d t)).
Proof.
  intros H d t. unfold with_pool, bind, new_Pool, try_finally, pool_end, push.
  destruct (H (fresh_pool t) d (t ++ [Created (fresh_pool t) c])%list)
    as (qs & E & F).
  destruct (body (fresh_pool t) d (t ++ [Created (fresh_pool t) c])%list)
    as [r t'].
  simpl in E. subst t'. exists c, qs. split; [|exact F].
  destruct (end_reply d _ (fresh_pool t)); simpl;
    now rewrite <- !app_assoc.
Qed.

Lemma queries_leave_no_end (p : pool) (qs : trace) :
  Forall (queried_on p) qs ->
  filter is_created qs = []
  /\ filter is_ended qs = []
  /\ filter (is_ended_of p) qs = [].
Proof.
  induction 1 as [|e qs (text & vs & ->) _ (I1 & I2 & I3)]; simpl; auto.
Qed.

Lemma scoped_once (before after : trace) :
  scoped before after -> torn_down_once before after.
Proof.
  intros Hs. split; [exact Hs|].
  destruct Hs as (c & qs & -> & F).
  rewrite news_app.
  destruct (queries_leave_no_end _ _ F) as (I1 & I2 & I3).
  cbn [filter is_created is_ended is_ended_of].
  rewrite !filter_app, I1, I2, I3. cbn [filter is_created is_ended is_ended_of app].
  rewrite Nat.eqb_refl. auto.
Qed.

Lemma execute_with_run {A} (config : PostgresConfig)
      (compile : result QueryResult) (shape : QueryReply -> A) d t :
  execute_with config compile shape d t
  = let p := fresh_pool t in
    let t1 := (t ++ [Created p (executor_pool config)])%list in
    match compile with
    | Throw e =>
        (after_end (Throw e) (end_reply d t1 p), (t1 ++ [Ended p])%list)
    | Ok q =>
        let t2 := (t1 ++ [Queried p (sql q) (params q)])%list in
        (after_end
           (match query_reply d t1 p (sql q) (params q) with
            | Ok reply => Ok (shape reply)
            | Throw e => Throw e
            end)
           (end_reply d t2 p),
         (t2 ++ [Ended p])%list)
    end.
Proof.
  unfold execute_with, with_pool, bind, new_Pool, try_finally, lift,
    pool_query, pool_end, ret, push, after_end.
  cbv zeta. destruct compile as [q|e].
  - destruct (query_reply d _ (fresh_pool t) (sql q) (params q));
      destruct (end_reply d _ (fresh_pool t)); reflexivity.
  - destruct (end_reply d _ (fresh_pool t)); reflexivity.
Qed.

Lemma execute_with_only_queries {A} (compile : result QueryResult)
      (shape : QueryReply -> A) (p : pool) :
  only_queries p
    (bind (lift compile) (fun q =>
     bind (pool_query p (sql q) (params q)) (fun reply =>
     ret (shape reply)))).
Proof.
  apply only_queries_bind; [auto with runs|]. intros q.
  apply only_queries_bind; auto with runs.
Qed.

Lemma execute_with_issued {A} (config : PostgresConfig)
      (compile : result QueryResult) (shape : QueryReply -> A) d t :
  queries_of (news t (snd (execute_with config compile shape d t)))
  = compiled compile.
Proof.
  rewrite execute_with_run. cbv zeta.
  destruct compile as [q|e]; cbn [snd]; rewrite <- !app_assoc, news_app;
    reflexivity.
Qed.

Lemma executeSelect_eq config options d t :
  executeSelect config options d t
  = execute_with config (Ok (buildSelectQuery options))
      (fun reply =>
         mkSelectResult (rows reply) (coalesce (rowCount reply) (VNum 0)))
      d t.
Proof. reflexivity. Qed.

Lemma executeInsert_eq config options d t :
  executeInsert config options d t
  = execute_with config (buildInsertQuery options)
      (fun reply => mkInsertResult (nth_error (rows reply) 0)) d t.
Proof. reflexivity. Qed.

Lemma executeUpdate_eq config options d t :
  executeUpdate config options d t
  = execute_with config (buildUpdateQuery options)
      (fun reply =>
         mkUpdateResult (rows reply) (coalesce (rowCount reply) (VNum 0)))
      d t.
Proof. reflexivity. Qed.

Lemma executeDelete_eq config options d t :
  executeDelete config options d t
  = execute_with config (buildDeleteQuery options)
      (fun reply =>
         mkDeleteResult (rows reply) (coalesce (rowCount reply) (VNum 0)))
      d t.
Proof. reflexivity. Qed.

Lemma execute_with_scoped {A} (config : PostgresConfig)
      (compile : result QueryResult) (shape : QueryReply -> A) d t :
  scoped t (snd (execute_with config compile shape d t)).
Proof.
  apply with_pool_scoped. intros p. apply execute_with_only_queries.
Qed.

Lemma introspectPostgresSchema_scoped config d t :
  scoped t (snd (introspectPostgresSchema config d t)).
Proof.
  apply (with_pool_scoped (introspector_pool config None)
           (fun p =>
              bind (pool_query p TABLES_SQL []) (fun tablesResult =>
              bind (introspect_tables p (rows tablesResult) []) (fun tables =>
              ret (mkSchemaInfo tables))))).
  intros p. apply only_queries_bind; [auto with runs|]. intros tablesResult.
  apply only_queries_bind; [apply only_queries_introspect_tables|].
  auto with runs.
Qed.

Lemma getTableRowCount_eq config tableName :
  getTableRowCount config tableName
  = with_pool (introspector_pool config (Some 5000%Z))
      (row_count_body tableName).
Proof. reflexivity. Qed.

Lemma getTableRowCount_scoped config tableName d t :
  scoped t (snd (getTableRowCount config tableName d t)).
Proof.
  rewrite getTableRowCount_eq. apply with_pool_scoped. intros p.
  apply only_queries_bind; [auto with runs|]. intros estimateResult.
  apply only_queries_if; [|auto with runs].
  apply only_queries_bind; auto with runs.
Qed.

Lemma getTableRowCount_run config tableName d t reply :
  let p := fresh_pool t in
  let t1 := (t ++ [Created p (introspector_pool config (Some 5000%Z))])%list in
  let t2 := (t1 ++ [Queried p ESTIMATE_SQL [VStr tableName]])%list in
  let t3 := (t2 ++ [Queried p (count_sql tableName) []])%list in
  query_reply d t1 p ESTIMATE_SQL [VStr tableName] = Ok reply ->
  getTableRowCount config tableName d t
  = if lt (estimate_of reply) 10000
    then (after_end
            (match query_reply d t2 p (count_sql tableName) [] with
             | Ok c => Ok (count_of c)
             | Throw e => Throw e
             end)
            (end_reply d t3 p),
          (t3 ++ [Ended p])%list)
    else (after_end (Ok (estimate_of reply)) (end_reply d t2 p),
          (t2 ++ [Ended p])%list).
Proof.
  cbv zeta. intros H. rewrite getTableRowCount_eq.
  unfold with_pool, row_count_body, bind, new_Pool, try_finally, pool_query,
    pool_end, ret, push, after_end.
  rewrite H. destruct (lt (estimate_of reply) 10000).
  - destruct (query_reply d _ (fresh_pool t) (count_sql tableName) []);
      destruct (end_reply d _ (fresh_pool t)); reflexivity.
  - destruct (end_reply d _ (fresh_pool t)); reflexivity.
Qed.

Lemma introspect_rejected config d t e :
  let p := fresh_pool t in
  let t1 := (t ++ [Created p (introspector_pool config None)])%list in
  let t2 := (t1 ++ [Queried p TABLES_SQL []])%list in
  query_reply d t1 p TABLES_SQL [] = Throw e ->
  introspectPostgresSchema config d t
  = (after_end (Throw e) (end_reply d t2 p), (t2 ++ [Ended p])%list).
Proof.
  cbv zeta. intros H.
  unfold introspectPostgresSchema, bind, new_Pool, try_finally, pool_query,
    pool_end, ret, push, after_end.
  change (mkPoolConfig (host config) (port config) (database config)
            (username config) (password config) (ssl_option config)
            10000 None)
    with (introspector_pool config None).
  rewrite H. destruct (end_reply d _ (fresh_pool t)); reflexivity.
Qed.

End RunFacts.

(** ** The scenarios of the test suite *)

Module Scenarios.
Import Js Double QueryExecutor Pg Executor SchemaIntrospector Runs Samples.

Example select_basic :
  buildSelectQuery
    (mkSelectOptions "users" ["id"; "name"; "email"] None None None None)
  = mkQueryResult
      ("SELECT " ++ quoted "id" ++ ", " ++ quoted "name" ++ ", "
         ++ quoted "email" ++ " FROM " ++ quoted "users" ++ " LIMIT 1000")
      [].
Proof. reflexivity. Qed.

Example select_where :
  buildSelectQuery
    (mkSelectOptions "users" ["id"; "name"]
       (Some [("id", VNum 1); ("active", VBool true)]) None None None)
  = mkQueryResult
      ("SELECT " ++ quoted "id" ++ ", " ++ quoted "name" ++ " FROM "
         ++ quoted "users" ++ " WHERE " ++ quoted "id" ++ " = $1 AND "
         ++ quoted "active" ++ " = $2 LIMIT 1000")
      [VNum 1; VBool true].
Proof. reflexivity. Qed.

Example select_complex :
  buildSelectQuery
    (mkSelectOptions "posts" ["id"; "title"; "created_at"]
       (Some [("published", VBool true)])
       (Some [mkOrderBy "created_at" DESC; mkOrderBy "title" ASC])
       (Some (of_Z 25)) (Some (of_Z 0)))
  = mkQueryResult
      ("SELECT " ++ quoted "id" ++ ", " ++ quoted "title" ++ ", "
         ++ quoted "created_at" ++ " FROM " ++ quoted "posts"
         ++ " WHERE " ++ quoted "published" ++ " = $1 ORDER BY "
         ++ quoted "created_at" ++ " DESC, " ++ quoted "title"
         ++ " ASC LIMIT 25 OFFSET 0")
      [VBool true].
Proof. reflexivity. Qed.

Example select_null_filter :
  buildSelectQuery
    (mkSelectOptions "users" ["*"] (Some [("deleted_at", VNull)])
       None None None)
  = mkQueryResult
      ("SELECT * FROM " ++ quoted "users" ++ " WHERE "
         ++ quoted "deleted_at" ++ " IS NULL LIMIT 1000")
      [].
Proof. reflexivity. Qed.

Example select_pagination :
  sql (buildSelectQuery
         (mkSelectOptions "users" ["*"] None None (Some (of_Z 10)) (Some (of_Z 20))))
  = "SELECT * FROM " ++ quoted "users" ++ " LIMIT 10 OFFSET 20".
Proof. reflexivity. Qed.

(** Limits and offsets that are no small integers: the limit is cut at
    1000, the offset is printed as it is. *)
Example select_fraction :
  sql (buildSelectQuery
         (mkSelectOptions "users" ["*"] None None
            (Some (dyadic 1999 (-1))) (Some (of_Z (10 ^ 21)))))
  = "SELECT * FROM " ++ quoted "users" ++ " LIMIT 999.5 OFFSET 1e+21".
Proof. vm_compute. reflexivity. Qed.

Example select_negative :
  sql (buildSelectQuery
         (mkSelectOptions "users" ["*"] None None
            (Some (infinity true)) (Some (zero true))))
  = "SELECT * FROM " ++ quoted "users" ++ " LIMIT -Infinity OFFSET 0".
Proof. vm_compute. reflexivity. Qed.

Example toString_tenth : toString (dyadic 3602879701896397 (-55)) = "0.1".
Proof. vm_compute. reflexivity. Qed.

Example toString_large :
  toString (of_Z 123456789012345678901) = "123456789012345680000".
Proof. vm_compute. reflexivity. Qed.

Example toString_small : toString (dyadic 1 (-24)) = "5.960464477539063e-8".
Proof. vm_compute. reflexivity. Qed.

Example toString_micro : toString (dyadic 4722366482869645 (-72)) = "0.000001".
Proof. vm_compute. reflexivity. Qed.

Example insert_basic :
  buildInsertQuery
    (mkInsertOptions "users"
       [("name", VStr "John"); ("email", VStr "john@example.com")])
  = Ok (mkQueryResult
          ("INSERT INTO " ++ quoted "users" ++ " (" ++ quoted "name" ++ ", "
             ++ quoted "email" ++ ") VALUES ($1, $2) RETURNING *")
          [VStr "John"; VStr "john@example.com"]).
Proof. reflexivity. Qed.

Example update_basic :
  buildUpdateQuery
    (mkUpdateOptions "users"
       [("name", VStr "Jane"); ("updated_at", VDate 1704067200000)]
       [("id", VNum 1)])
  = Ok (mkQueryResult
          ("UPDATE " ++ quoted "users" ++ " SET " ++ quoted "name"
             ++ " = $1, " ++ quoted "updated_at" ++ " = $2 WHERE "
             ++ quoted "id" ++ " = $3 RETURNING *")
          [VStr "Jane"; VDate 1704067200000; VNum 1]).
Proof. reflexivity. Qed.

Example delete_basic :
  buildDeleteQuery (mkDeleteOptions "users" [("id", VNum 1)])
  = Ok (mkQueryResult
          ("DELETE FROM " ++ quoted "users" ++ " WHERE " ++ quoted "id"
             ++ " = $1 RETURNING *")
          [VNum 1]).
Proof. reflexivity. Qed.

Example delete_needs_where :
  buildDeleteQuery (mkDeleteOptions "users" [])
  = Throw (Error "WHERE clause required for delete").
Proof. reflexivity. Qed.

(** The security test of the suite: the quote of the hostile table name
    comes out behind a backslash. *)
Example select_hostile_table :
  sql (buildSelectQuery
         (mkSelectOptions
            ("users" ++ String dquote "; DROP TABLE users; --")
            ["*"] None None None None))
  = "SELECT * FROM "
      ++ quoted ("users" ++ String backslash (String dquote "; DROP TABLE users; --"))
      ++ " LIMIT 1000".
Proof. reflexivity. Qed.

Example parseInt_digits : parseInt (VStr "10000") = Int 10000.
Proof. reflexivity. Qed.

Example parseInt_prefix : parseInt (VStr " -12abc") = Int (-12).
Proof. reflexivity. Qed.

Example parseInt_no_digit : parseInt (VStr "abc") = NaN.
Proof. reflexivity. Qed.

Example introspect_composite_key :
  fst (introspectPostgresSchema sample_config order_items_driver [])
  = Ok (mkSchemaInfo
          [mkTableInfo (VStr "order_items")
             [mkColumnInfo (VStr "order_id") (VStr "integer") false false VNull;
              mkColumnInfo (VStr "quantity") (VStr "integer") true true (VStr "1")]
             [VStr "order_id"; VStr "product_id"]]).
Proof. reflexivity. Qed.

End Scenarios.

(** ** The claims about the compiler *)

Module CompilerClaims.
Import Js Double QueryExecutor Pg Executor Anatomy Runs Samples.
Import StringFacts DoubleFacts CompilerFacts PlacementFacts RunFacts.

(** C1. In all four compilers the values of the filter and value maps
    reach the output through the parameter array alone.  The text is what
    the anatomy says, and the anatomy mentions columns and placeholder
    numbers only; each value sits in the parameters at the position its
    placeholder number names; and two maps of the same shape, whatever
    their values, compile to the same text. *)
Theorem values_only_in_parameters :
  (forall t cols w ob l off,
      let q := buildSelectQuery (mkSelectOptions t cols (Some w) ob l off) in
      sql q = select_head t cols (Some w) ob
                ++ " LIMIT " ++ toString (Math_min [requested_or_default l; MAX_ROWS])
                ++ offset_text off
      /\ placed w (where_conds w 1) (params q)
      /\ (forall w', same_shape w w' ->
            sql (buildSelectQuery (mkSelectOptions t cols (Some w') ob l off))
            = sql q))
  /\ (forall t d q,
        buildInsertQuery (mkInsertOptions t d) = Ok q ->
        sql q = insert_text t d
        /\ params q = map snd d
        /\ (forall d', same_columns d d' ->
              text_of (buildInsertQuery (mkInsertOptions t d')) = Ok (sql q)))
  /\ (forall t d w q,
        buildUpdateQuery (mkUpdateOptions t d w) = Ok q ->
        sql q = update_text t d w
        /\ placed_all d (set_conds d 1) (params q)
        /\ placed w (where_conds w (List.length d + 1)) (params q)
        /\ (forall d' w', same_columns d d' -> same_shape w w' ->
              text_of (buildUpdateQuery (mkUpdateOptions t d' w')) = Ok (sql q)))
  /\ (forall t w q,
        buildDeleteQuery (mkDeleteOptions t w) = Ok q ->
        sql q = delete_text t w
        /\ placed w (where_conds w 1) (params q)
        /\ (forall w', same_shape w w' ->
              text_of (buildDeleteQuery (mkDeleteOptions t w')) = Ok (sql q))).
Proof.
  split; [|split; [|split]].
  - intros t cols w ob l off q. subst q.
    rewrite buildSelectQuery_spec. cbn [sql params select_params].
    split; [reflexivity|]. split.
    + exact (placed_where w []).
    + intros w' Hs. rewrite buildSelectQuery_spec. cbn [sql].
      f_equal. unfold select_head, select_where_text.
      pose proof (same_shape_length _ _ Hs) as Hl.
      destruct w as [|e w], w' as [|e' w']; try discriminate; [reflexivity|].
      unfold where_text. now rewrite (where_conds_shape _ _ 1 Hs).
  - intros t d q H. rewrite buildInsertQuery_spec in H.
    destruct d as [|e d]; [discriminate|]. injection H as <-.
    cbn [sql params]. repeat split.
    intros d' Hc. rewrite buildInsertQuery_spec.
    pose proof (f_equal (@List.length _) Hc) as Hl. rewrite !length_map in Hl.
    destruct d' as [|e' d']; [discriminate|]. cbn [text_of sql].
    unfold insert_text. unfold same_columns in Hc. now rewrite Hc, Hl.
  - intros t d w q H. rewrite buildUpdateQuery_spec in H.
    destruct d as [|e d]; [discriminate|].
    destruct w as [|f w]; [discriminate|]. injection H as <-.
    cbn [sql params]. split; [reflexivity|].
    split; [exact (placed_set (e :: d) (where_values (f :: w)))|]. split.
    + pose proof (placed_where (f :: w) (map snd (e :: d))) as P.
      rewrite length_map in P. exact P.
    + intros d' w' Hc Hs. rewrite buildUpdateQuery_spec.
      pose proof (f_equal (@List.length _) Hc) as Hl. rewrite !length_map in Hl.
      pose proof (same_shape_length _ _ Hs) as Hl'.
      destruct d' as [|e' d']; [discriminate|].
      destruct w' as [|f' w']; [discriminate|]. cbn [text_of sql].
      unfold update_text, where_text.
      now rewrite (set_conds_columns _ _ 1 Hc), Hl,
        (where_conds_shape _ _ _ Hs).
  - intros t w q H. rewrite buildDeleteQuery_spec in H.
    destruct w as [|f w]; [discriminate|]. injection H as <-.
    cbn [sql params]. split; [reflexivity|]. split.
    + exact (placed_where (f :: w) []).
    + intros w' Hs. rewrite buildDeleteQuery_spec.
      pose proof (same_shape_length _ _ Hs) as Hl'.
      destruct w' as [|f' w']; [discriminate|]. cbn [text_of sql].
      unfold delete_text, where_text.
      now rewrite (where_conds_shape _ _ _ Hs).
Qed.

(** C2 fails on the code: the compiler does not double an embedded
    double quote, it puts a backslash before it.  For the table name made
    of a, a double quote and b the compiled text has a backslash before
    the inner quote where the claim has a second double quote.  Read back
    the way doubled quotes are read, the claim's text gives the name again;
    the compiler's text gives a and a backslash, and leaves b and a double
    quote outside the identifier. *)
Theorem escape_is_not_doubling :
  sql (buildSelectQuery (mkSelectOptions quoted_name ["*"] None None None None))
  = "SELECT * FROM "
      ++ String dquote
           (String "a" (String backslash (String dquote (String "b" (String dquote " LIMIT 1000")))))
  /\ "SELECT * FROM " ++ escape_by_doubling quoted_name ++ " LIMIT 1000"
     = "SELECT * FROM "
         ++ String dquote
              (String "a" (String dquote (String dquote (String "b" (String dquote " LIMIT 1000")))))
  /\ escapeIdentifier quoted_name <> escape_by_doubling quoted_name
  /\ read_quoted (escape_by_doubling quoted_name) = Some (quoted_name, "")
  /\ read_quoted (escapeIdentifier quoted_name)
     = Some (String "a" (String backslash ""), String "b" (String dquote "")).
Proof.
  split; [reflexivity|]. split; [reflexivity|]. split; [discriminate|].
  split; reflexivity.
Qed.

(** What the compiler does with an identifier.  Every table or column name
    is emitted between two double quotes with each embedded double quote
    replaced by a backslash followed by that double quote, and nothing else
    changed: inside the wrapping quotes every double quote comes right
    after a backslash, and a name with no double quote is wrapped as it is.
    The same function escapes the table name and the column names of the
    SELECT list, of SET, of WHERE and of ORDER BY. *)
Lemma identifiers_backslash_escaped :
  (forall identifier,
      escapeIdentifier identifier
      = String dquote (expand escape_char identifier ++ String dquote ""))
  /\ (forall identifier n,
        String.get n (replace_dquotes identifier) = Some dquote ->
        exists m,
          n = S m
          /\ String.get m (replace_dquotes identifier) = Some backslash)
  /\ (forall identifier,
        (forall n, String.get n identifier <> Some dquote) ->
        escapeIdentifier identifier
        = String dquote (identifier ++ String dquote ""))
  /\ (forall identifier,
        occurs dquote identifier ->
        escapeIdentifier identifier <> escape_by_doubling identifier)
  /\ (forall t cols w ob l off,
        sql (buildSelectQuery (mkSelectOptions t cols w ob l off))
        = "SELECT " ++ select_columns cols ++ " FROM " ++ escapeIdentifier t
            ++ select_where_text w ++ select_order_text ob
            ++ " LIMIT " ++ toString (Math_min [requested_or_default l; MAX_ROWS])
            ++ offset_text off)
  /\ (forall c cols,
        c <> "*" ->
        select_columns (c :: cols) = join ", " (map escapeIdentifier (c :: cols)))
  /\ (forall t d q,
        buildInsertQuery (mkInsertOptions t d) = Ok q -> sql q = insert_text t d)
  /\ (forall t d w q,
        buildUpdateQuery (mkUpdateOptions t d w) = Ok q ->
        sql q = update_text t d w)
  /\ (forall t w q,
        buildDeleteQuery (mkDeleteOptions t w) = Ok q -> sql q = delete_text t w).
Proof.
  repeat apply conj.
  - intros identifier. unfold escapeIdentifier.
    now rewrite replace_dquotes_expand.
  - exact dquote_after_backslash.
  - intros identifier H. unfold escapeIdentifier.
    now rewrite replace_dquotes_plain.
  - intros identifier H E.
    assert (R : read_quoted (escapeIdentifier identifier) = Some (identifier, ""))
      by (rewrite E; apply doubling_reads_back).
    revert R. apply backslash_reads_short, H.
  - intros. rewrite buildSelectQuery_spec. cbn [sql]. unfold select_head.
    now rewrite !append_assoc.
  - intros c cols H. unfold select_columns. cbn [nth_error].
    destruct (String.eqb c "*") eqn:E; [|reflexivity].
    apply String.eqb_eq in E. contradiction.
  - intros t d q H. rewrite buildInsertQuery_spec in H.
    destruct d; [discriminate|]. now injection H as <-.
  - intros t d w q H. rewrite buildUpdateQuery_spec in H.
    destruct d; [discriminate|]. destruct w; [discriminate|].
    now injection H as <-.
  - intros t w q H. rewrite buildDeleteQuery_spec in H.
    destruct w; [discriminate|]. now injection H as <-.
Qed.

(** C4, amended.  A SELECT always carries a LIMIT clause, right after a
    head that the limit and the offset do not reach; the number printed
    is [Math.min] of 1000 and the requested limit, or of 1000 alone when
    none was requested.  For every requested limit but [NaN] that number
    is at most 1000: it is the requested limit when this is not above
    1000, and 1000 when it is, so asking for 2000, or for infinitely many
    rows, prints 1000.  A requested limit of [NaN] is printed as it is. *)
Theorem limit_capped_unless_nan :
  (forall t cols w ob,
      exists head,
        forall l off,
          sql (buildSelectQuery (mkSelectOptions t cols w ob l off))
          = head ++ " LIMIT "
              ++ toString (Math_min [requested_or_default l; MAX_ROWS])
              ++ offset_text off)
  /\ (forall l,
        is_nan (requested_or_default l) = false ->
        leb (Math_min [requested_or_default l; MAX_ROWS]) MAX_ROWS = true
        /\ (ltb MAX_ROWS (requested_or_default l) = false ->
            Math_min [requested_or_default l; MAX_ROWS]
            = requested_or_default l)
        /\ (ltb MAX_ROWS (requested_or_default l) = true ->
            Math_min [requested_or_default l; MAX_ROWS] = MAX_ROWS))
  /\ (forall t cols w ob l off,
        ltb MAX_ROWS l = true ->
        sql (buildSelectQuery (mkSelectOptions t cols w ob (Some l) off))
        = select_head t cols w ob ++ " LIMIT 1000" ++ offset_text off)
  /\ (forall t cols w ob off,
        sql (buildSelectQuery (mkSelectOptions t cols w ob None off))
        = select_head t cols w ob ++ " LIMIT 1000" ++ offset_text off)
  /\ (forall t cols w ob l off,
        is_nan l = true ->
        sql (buildSelectQuery (mkSelectOptions t cols w ob (Some l) off))
        = select_head t cols w ob ++ " LIMIT NaN" ++ offset_text off).
Proof.
  destruct MAX_ROWS_finite as (Hinf & Hz & Hn & Hle & Hs).
  assert (Two : forall x,
             is_nan x = false ->
             Math_min [x; MAX_ROWS] = if ltb MAX_ROWS x then MAX_ROWS else x).
  { intros x Hx. now apply Math_min_two. }
  split; [|split; [|split; [|split]]].
  - intros t cols w ob. exists (select_head t cols w ob). intros l off.
    now rewrite buildSelectQuery_spec.
  - intros l Hl. rewrite (Two _ Hl).
    destruct (ltb MAX_ROWS (requested_or_default l)) eqn:E.
    + split; [exact Hle|]. split; [discriminate|reflexivity].
    + split; [now apply not_above_is_below|].
      split; [reflexivity|discriminate].
  - intros t cols w ob l off Hl. rewrite buildSelectQuery_spec. cbn [sql].
    destruct (ltb_not_nan _ _ Hl) as [_ Hln].
    cbn [requested_or_default]. now rewrite (Two _ Hln), Hl, Hs.
  - intros t cols w ob off. rewrite buildSelectQuery_spec. cbn [sql].
    cbn [requested_or_default]. rewrite (Two _ Hn).
    destruct (ltb MAX_ROWS MAX_ROWS); now rewrite Hs.
  - intros t cols w ob l off Hl. rewrite buildSelectQuery_spec. cbn [sql].
    cbn [requested_or_default]. now rewrite (Math_min_nan _ _ Hl).
Qed.

(** A witness of C4 amended: a limit of 25 is kept, a limit of 2000 and
    an infinite one are cut to 1000. *)
Lemma limit_capped_unless_nan_witness :
  Math_min [of_Z 25; MAX_ROWS] = of_Z 25
  /\ sql (buildSelectQuery
            (mkSelectOptions "users" ["*"] None None (Some (of_Z 2000)) None))
     = "SELECT * FROM " ++ quoted "users" ++ " LIMIT 1000"
  /\ sql (buildSelectQuery
            (mkSelectOptions "users" ["*"] None None
               (Some (infinity false)) (Some (dyadic 5 (-1)))))
     = "SELECT * FROM " ++ quoted "users" ++ " LIMIT 1000 OFFSET 2.5".
Proof.
  destruct limit_capped_unless_nan as (_ & H2 & H3 & _).
  split; [|split].
  - exact (proj1 (proj2 (H2 (Some (of_Z 25)) eq_refl)) eq_refl).
  - exact (H3 "users" ["*"] None None (of_Z 2000) None eq_refl).
  - exact (H3 "users" ["*"] None None (infinity false)
              (Some (dyadic 5 (-1))) eq_refl).
Defined.

(** C4, as the claim states it, fails at the limit [NaN]: it comes out
    as [LIMIT NaN], and [NaN] is not below or equal to 1000. *)
Lemma nan_limit_is_emitted :
  sql (buildSelectQuery
         (mkSelectOptions "users" ["*"] None None (Some nan) None))
  = "SELECT * FROM " ++ quoted "users" ++ " LIMIT NaN"
  /\ leb (Math_min [requested_or_default (Some nan); MAX_ROWS]) MAX_ROWS
     = false.
Proof. split; reflexivity. Qed.


(** C5. Placeholders are numbered one after the other in the order of
    the text, from 1: over the filters for a SELECT and a DELETE, over the
    values and then the filters for an UPDATE, over the values for an
    INSERT; the parameter array lists the values in that same order.  A
    null filter becomes an IS NULL test with no placeholder and no
    parameter; any other filter takes exactly one placeholder and adds
    exactly one parameter. *)
Theorem placeholders_sequential :
  (forall w n,
      conditions (where_loop w n) = map render_cond (where_conds w n)
      /\ wparams (where_loop w n) = where_values w
      /\ paramIndex (where_loop w n) = n + List.length (where_values w)
      /\ Forall2 null_rule w (where_conds w n)
      /\ placeholders (where_conds w n) = seq n (List.length (where_values w))
      /\ List.length (where_values w)
         = List.length (filter (fun e => negb (is_null (snd e))) w))
  /\ (forall st k,
        where_step st (k, VNull)
        = mkWhereAcc (push (conditions st) (escapeIdentifier k ++ " IS NULL"))
                     (wparams st) (paramIndex st))
  /\ (forall st k v,
        is_null v = false ->
        where_step st (k, v)
        = mkWhereAcc
            (push (conditions st)
                  (escapeIdentifier k ++ " = $" ++ show_nat (paramIndex st)))
            (push (wparams st) v)
            (S (paramIndex st)))
  /\ (forall t cols w ob l off,
        let q := buildSelectQuery (mkSelectOptions t cols (Some w) ob l off) in
        sql q = select_head t cols (Some w) ob
                  ++ " LIMIT " ++ toString (Math_min [requested_or_default l; MAX_ROWS])
                  ++ offset_text off
        /\ params q = where_values w
        /\ placeholders (where_conds w 1) = seq 1 (List.length (params q)))
  /\ (forall t d q,
        buildInsertQuery (mkInsertOptions t d) = Ok q ->
        sql q = insert_text t d
        /\ params q = map snd d
        /\ seq 1 (List.length d) = seq 1 (List.length (params q)))
  /\ (forall t d w q,
        buildUpdateQuery (mkUpdateOptions t d w) = Ok q ->
        sql q = update_text t d w
        /\ params q = (map snd d ++ where_values w)%list
        /\ placeholders (set_conds d 1 ++ where_conds w (List.length d + 1))
           = seq 1 (List.length (params q)))
  /\ (forall t w q,
        buildDeleteQuery (mkDeleteOptions t w) = Ok q ->
        sql q = delete_text t w
        /\ params q = where_values w
        /\ placeholders (where_conds w 1) = seq 1 (List.length (params q)))
  /\ (forall n m, placeholder_text n = placeholder_text m -> n = m).
Proof.
  repeat apply conj.
  - intros w n. rewrite where_loop_spec. cbn [conditions wparams paramIndex].
    repeat apply conj; auto using null_rule_where, placeholders_where,
      where_values_shape_length.
  - reflexivity.
  - intros st k v H. rewrite where_step_eq, H. reflexivity.
  - intros t cols w ob l off q. subst q. rewrite buildSelectQuery_spec.
    cbn [sql params select_params]. auto using placeholders_where.
  - intros t d q H. rewrite buildInsertQuery_spec in H.
    destruct d as [|e d]; [discriminate|]. injection H as <-.
    cbn [sql params]. repeat split.
    change (snd e :: map snd d) with (map snd (e :: d)).
    now rewrite length_map.
  - intros t d w q H. rewrite buildUpdateQuery_spec in H.
    destruct d as [|e d]; [discriminate|].
    destruct w as [|f w]; [discriminate|].
    apply (f_equal (fun r => match r with Ok q' => q' | Throw _ => q end)) in H.
    subst q. cbn [sql params]. repeat split.
    rewrite placeholders_app, placeholders_set, placeholders_where.
    rewrite length_app, length_map, seq_app.
    now replace (1 + List.length (e :: d)) with (List.length (e :: d) + 1) by lia.
  - intros t w q H. rewrite buildDeleteQuery_spec in H.
    destruct w as [|f w]; [discriminate|]. injection H as <-.
    cbn [sql params]. auto using placeholders_where.
  - intros n m H. unfold placeholder_text in H.
    apply show_nat_inj. now injection H.
Qed.

(** A witness of C5: an update of two values under three filters, the
    second of them null. *)
Lemma placeholders_sequential_witness :
  let d := [("name", VStr "Jane"); ("age", VNum 30)] in
  let w := [("id", VNum 1); ("deleted_at", VNull); ("org", VStr "acme")] in
  where_step (mkWhereAcc [] [] 3) ("id", VNum 1)
  = mkWhereAcc [render_cond (Equals "id" 3)] [VNum 1] 4
  /\ (exists q,
        buildUpdateQuery (mkUpdateOptions "users" d w) = Ok q
        /\ sql q = update_text "users" d w
        /\ params q = [VStr "Jane"; VNum 30; VNum 1; VStr "acme"]
        /\ placeholders (set_conds d 1 ++ where_conds w 3) = [1; 2; 3; 4]).
Proof.
  cbv zeta.
  destruct placeholders_sequential
    as (H1 & H2 & H3 & H4 & H5 & H6 & H7 & H8).
  split.
  - exact (H3 (mkWhereAcc [] [] 3) "id" (VNum 1) eq_refl).
  - eexists. split; [reflexivity|].
    destruct (H6 "users"
                 [("name", VStr "Jane"); ("age", VNum 30)]
                 [("id", VNum 1); ("deleted_at", VNull); ("org", VStr "acme")]
                 _ eq_refl) as (E1 & E2 & E3).
    split; [exact E1|]. split; [exact E2|exact E3].
Defined.

(** A witness of C1: two updates of one shape and different values. *)
Lemma values_only_in_parameters_witness :
  let d := [("name", VStr "Jane")] in
  let d' := [("name", VStr "Robert'); DROP TABLE users; --")] in
  let w := [("id", VNum 1); ("deleted_at", VNull)] in
  let w' := [("id", VStr "1 OR 1=1"); ("deleted_at", VNull)] in
  same_columns d d'
  /\ same_shape w w'
  /\ text_of (buildUpdateQuery (mkUpdateOptions "users" d' w'))
     = Ok (update_text "users" d w)
  /\ placed w (where_conds w 2) [VStr "Jane"; VNum 1].
Proof.
  cbv zeta.
  destruct values_only_in_parameters as (_ & _ & H & _).
  destruct (H "users" [("name", VStr "Jane")]
              [("id", VNum 1); ("deleted_at", VNull)] _ eq_refl)
    as (E1 & E2 & E3 & E4).
  assert (C : same_columns [("name", VStr "Jane")]
                [("name", VStr "Robert'); DROP TABLE users; --")])
    by reflexivity.
  assert (S : same_shape [("id", VNum 1); ("deleted_at", VNull)]
                [("id", VStr "1 OR 1=1"); ("deleted_at", VNull)])
    by (split; reflexivity).
  split; [exact C|]. split; [exact S|]. split; [|exact E3].
  exact (E4 _ _ C S).
Defined.

(** C3. An insert with no value, an update with no value or with no
    filter and a delete with no filter throw, with the message of the
    guard that stopped them, and give no text; a compilation that gives a
    text had its maps non-empty.  The executors then send nothing to the
    driver. *)
Theorem empty_maps_rejected :
  (forall t,
      buildInsertQuery (mkInsertOptions t [])
      = Throw (Error "No data provided for insert"))
  /\ (forall t w,
        buildUpdateQuery (mkUpdateOptions t [] w)
        = Throw (Error "No data provided for update"))
  /\ (forall t e d,
        buildUpdateQuery (mkUpdateOptions t (e :: d) [])
        = Throw (Error "WHERE clause required for update"))
  /\ (forall t,
        buildDeleteQuery (mkDeleteOptions t [])
        = Throw (Error "WHERE clause required for delete"))
  /\ (forall t d q, buildInsertQuery (mkInsertOptions t d) = Ok q -> d <> [])
  /\ (forall t d w q,
        buildUpdateQuery (mkUpdateOptions t d w) = Ok q -> d <> [] /\ w <> [])
  /\ (forall t w q, buildDeleteQuery (mkDeleteOptions t w) = Ok q -> w <> [])
  /\ (forall config t d0 t0,
        queries_of
          (news t0 (snd (executeInsert config (mkInsertOptions t []) d0 t0)))
        = [])
  /\ (forall config t d w d0 t0,
        d = [] \/ w = [] ->
        queries_of
          (news t0 (snd (executeUpdate config (mkUpdateOptions t d w) d0 t0)))
        = [])
  /\ (forall config t d0 t0,
        queries_of
          (news t0 (snd (executeDelete config (mkDeleteOptions t []) d0 t0)))
        = []).
Proof.
  repeat apply conj; try reflexivity.
  - intros t d q H ->. discriminate.
  - intros t d w q H. rewrite buildUpdateQuery_spec in H.
    destruct d; [discriminate|]. destruct w; [discriminate|].
    split; discriminate.
  - intros t w q H ->. discriminate.
  - intros. rewrite executeInsert_eq, execute_with_issued. reflexivity.
  - intros config t d w d0 t0 H.
    rewrite executeUpdate_eq, execute_with_issued, buildUpdateQuery_spec.
    destruct H as [-> | ->]; [reflexivity|]. destruct d; reflexivity.
  - intros. rewrite executeDelete_eq, execute_with_issued. reflexivity.
Qed.

(** A witness of C3: a compiled insert, and an update with no filter run
    against a driver. *)
Lemma empty_maps_rejected_witness :
  [("name", VStr "John")] <> []
  /\ queries_of
       (news []
          (snd (executeUpdate sample_config
                  (mkUpdateOptions "users" [("name", VStr "Jane")] [])
                  quiet_driver [])))
     = [].
Proof.
  destruct empty_maps_rejected
    as (_ & _ & _ & _ & H5 & _ & _ & _ & H9 & _).
  split.
  - exact (H5 "users" [("name", VStr "John")] _ eq_refl).
  - apply H9. right. reflexivity.
Defined.

End CompilerClaims.

(** ** The claims about the executor and the introspector *)

Module RunClaims.
Import Js Double QueryExecutor Pg Executor SchemaIntrospector Anatomy Runs Samples.
Import StringFacts CompilerFacts PlacementFacts RunFacts.

(** C6. Whatever the driver answers, and from whatever trace a call
    starts, each executor function and each introspector function
    constructs one pool, queries it, and ends that pool exactly once, as
    the last thing it does: on success, when a query is rejected, and on
    the early return of the exact count.  When a query is rejected the
    error reaches the caller together with a trace that already holds the
    teardown. *)
Theorem pool_torn_down_once :
  (forall config options d t,
      torn_down_once t (snd (executeSelect config options d t)))
  /\ (forall config options d t,
        torn_down_once t (snd (executeInsert config options d t)))
  /\ (forall config options d t,
        torn_down_once t (snd (executeUpdate config options d t)))
  /\ (forall config options d t,
        torn_down_once t (snd (executeDelete config options d t)))
  /\ (forall config d t,
        torn_down_once t (snd (introspectPostgresSchema config d t)))
  /\ (forall config tableName d t,
        torn_down_once t (snd (getTableRowCount config tableName d t)))
  /\ (forall config options d t e,
        let p := fresh_pool t in
        let q := buildSelectQuery options in
        let t1 := (t ++ [Created p (executor_pool config)])%list in
        let t2 := (t1 ++ [Queried p (sql q) (params q)])%list in
        query_reply d t1 p (sql q) (params q) = Throw e ->
        end_reply d t2 p = Ok tt ->
        executeSelect config options d t = (Throw e, (t2 ++ [Ended p])%list))
  /\ (forall config d t e,
        let p := fresh_pool t in
        let t1 := (t ++ [Created p (introspector_pool config None)])%list in
        let t2 := (t1 ++ [Queried p TABLES_SQL []])%list in
        query_reply d t1 p TABLES_SQL [] = Throw e ->
        end_reply d t2 p = Ok tt ->
        introspectPostgresSchema config d t
        = (Throw e, (t2 ++ [Ended p])%list)).
Proof.
  repeat apply conj.
  - intros. rewrite executeSelect_eq.
    apply scoped_once, execute_with_scoped.
  - intros. rewrite executeInsert_eq.
    apply scoped_once, execute_with_scoped.
  - intros. rewrite executeUpdate_eq.
    apply scoped_once, execute_with_scoped.
  - intros. rewrite executeDelete_eq.
    apply scoped_once, execute_with_scoped.
  - intros. apply scoped_once, introspectPostgresSchema_scoped.
  - intros. apply scoped_once, getTableRowCount_scoped.
  - cbv zeta. intros config options d t e Hq He.
    rewrite executeSelect_eq, execute_with_run. cbv zeta.
    now rewrite Hq, He.
  - cbv zeta. intros config d t e Hq He.
    rewrite (introspect_rejected config d t e Hq). now rewrite He.
Qed.

(** A witness of C6: a select and an introspection against a driver that
    rejects every query. *)
Lemma pool_torn_down_once_witness :
  executeSelect sample_config
    (mkSelectOptions "users" ["*"] None None None None) failing_driver []
  = (Throw (Error "Connection refused"),
     [Created 0 (executor_pool sample_config);
      Queried 0 ("SELECT * FROM " ++ escapeIdentifier "users" ++ " LIMIT 1000") [];
      Ended 0])
  /\ introspectPostgresSchema sample_config failing_driver []
     = (Throw (Error "Connection refused"),
        [Created 0 (introspector_pool sample_config None);
         Queried 0 TABLES_SQL [];
         Ended 0]).
Proof.
  destruct pool_torn_down_once as (_ & _ & _ & _ & _ & _ & H7 & H8).
  split.
  - exact (H7 sample_config
              (mkSelectOptions "users" ["*"] None None None None)
              failing_driver [] _ eq_refl eq_refl).
  - exact (H8 sample_config failing_driver [] _ eq_refl eq_refl).
Defined.

(** C7, as the claim states it, fails at the threshold itself.  The
    catalogue estimates 10000 rows, which does not exceed 10000, and an
    exact count would find 9987; the estimator returns 10000 and sends no
    count. *)
Lemma estimate_at_threshold_returned :
  (10000 >? 10000)%Z = false
  /\ fst (getTableRowCount sample_config "orders" threshold_driver [])
     = Ok (Int 10000)
  /\ queries_of (snd (getTableRowCount sample_config "orders" threshold_driver []))
     = [(ESTIMATE_SQL, [VStr "orders"])]
  /\ query_reply threshold_driver [] 0 (count_sql "orders") []
     = Ok (mkQueryReply [[("count", VStr "9987")]] (VNum 1)).
Proof. repeat split. Qed.

(** C7, amended.  Once the catalogue query has answered, with an
    estimate that parses to the integer [n]: when [n] is at least 10000
    the estimator returns [n] and sends no other query; when [n] is below
    10000 it sends the exact count and returns what that count parses to,
    or the error of the count.  The teardown follows in both cases. *)
Theorem row_count_threshold :
  forall config tableName d t reply n,
    let p := fresh_pool t in
    let t1 := (t ++ [Created p (introspector_pool config (Some 5000%Z))])%list in
    let t2 := (t1 ++ [Queried p ESTIMATE_SQL [VStr tableName]])%list in
    let t3 := (t2 ++ [Queried p (count_sql tableName) []])%list in
    query_reply d t1 p ESTIMATE_SQL [VStr tableName] = Ok reply ->
    estimate_of reply = Int n ->
    ((10000 <= n)%Z ->
     getTableRowCount config tableName d t
     = (after_end (Ok (Int n)) (end_reply d t2 p), (t2 ++ [Ended p])%list))
    /\ ((n < 10000)%Z ->
        getTableRowCount config tableName d t
        = (after_end
             (match query_reply d t2 p (count_sql tableName) [] with
              | Ok c => Ok (count_of c)
              | Throw e => Throw e
              end)
             (end_reply d t3 p),
           (t3 ++ [Ended p])%list)).
Proof.
  cbv zeta. intros config tableName d t reply n Hq Hn.
  rewrite (getTableRowCount_run config tableName d t reply Hq), Hn.
  cbn [lt]. split; intros H.
  - apply Z.ltb_ge in H. now rewrite H.
  - apply Z.ltb_lt in H. now rewrite H.
Qed.

(** A witness of C7 amended: a table estimated at 250000 rows and one
    estimated at 42. *)
Lemma row_count_threshold_witness :
  getTableRowCount sample_config "events" large_driver []
  = (Ok (Int 250000),
     [Created 0 (introspector_pool sample_config (Some 5000%Z));
      Queried 0 ESTIMATE_SQL [VStr "events"];
      Ended 0])
  /\ getTableRowCount sample_config "teams" small_driver []
     = (Ok (Int 40),
        [Created 0 (introspector_pool sample_config (Some 5000%Z));
         Queried 0 ESTIMATE_SQL [VStr "teams"];
         Queried 0 (count_sql "teams") [];
         Ended 0]).
Proof.
  split.
  - apply (proj1 (row_count_threshold sample_config "events" large_driver []
                    _ 250000%Z eq_refl eq_refl)).
    discriminate.
  - apply (proj2 (row_count_threshold sample_config "teams" small_driver []
                    _ 42%Z eq_refl eq_refl)).
    reflexivity.
Defined.

(** C9. When the estimate is below the threshold the exact count is
    sent with the table name between two double quotes exactly as the
    caller gave it.  For a name that holds a double quote this text is not
    the one [escapeIdentifier], which every compiled query goes through,
    would give. *)
Theorem row_count_name_unescaped :
  forall config tableName d t reply,
    let p := fresh_pool t in
    let t1 := (t ++ [Created p (introspector_pool config (Some 5000%Z))])%list in
    query_reply d t1 p ESTIMATE_SQL [VStr tableName] = Ok reply ->
    lt (estimate_of reply) 10000 = true ->
    occurs dquote tableName ->
    queries_of (news t (snd (getTableRowCount config tableName d t)))
    = [(ESTIMATE_SQL, [VStr tableName]);
       ("SELECT COUNT(*) as count FROM "
          ++ String dquote (tableName ++ String dquote ""), [])]
    /\ "SELECT COUNT(*) as count FROM "
         ++ String dquote (tableName ++ String dquote "")
       <> "SELECT COUNT(*) as count FROM " ++ escapeIdentifier tableName.
Proof.
  cbv zeta. intros config tableName d t reply Hq Hlt Hocc. split.
  - rewrite (getTableRowCount_run config tableName d t reply Hq), Hlt.
    cbn [snd]. rewrite <- !app_assoc, news_app. reflexivity.
  - intros H. apply append_inv_head in H. injection H as H.
    apply append_inv_tail in H. symmetry in H.
    exact (replace_dquotes_changes tableName Hocc H).
Qed.

(** A witness of C9: the table named a, double quote, b, estimated at 42
    rows. *)
Lemma row_count_name_unescaped_witness :
  occurs dquote quoted_name
  /\ queries_of
       (news [] (snd (getTableRowCount sample_config quoted_name small_driver [])))
     = [(ESTIMATE_SQL, [VStr quoted_name]);
        ("SELECT COUNT(*) as count FROM "
           ++ String dquote (quoted_name ++ String dquote ""), [])]
  /\ "SELECT COUNT(*) as count FROM "
       ++ String dquote (quoted_name ++ String dquote "")
     <> "SELECT COUNT(*) as count FROM " ++ escapeIdentifier quoted_name.
Proof.
  assert (O : occurs dquote quoted_name) by (exists 1; reflexivity).
  split; [exact O|].
  exact (row_count_name_unescaped sample_config quoted_name small_driver []
           _ eq_refl eq_refl O).
Defined.

End RunClaims.

(** ** Facts about the credential store *)

Module EncryptionFacts.
Import Js Encryption StringFacts.

Lemma from_hex_byte (x : ascii) (s : string) :
  from_hex (byte_to_hex x ++ s) = x :: from_hex s.
Proof. destruct x as [[] [] [] [] [] [] [] []]; reflexivity. Qed.

Lemma from_hex_toString_hex (b : Buffer) : from_hex (toString_hex b) = b.
Proof.
  induction b as [|x b IH]; [reflexivity|].
  cbn [toString_hex]. now rewrite from_hex_byte, IH.
Qed.

Lemma toString_hex_length (b : Buffer) :
  String.length (toString_hex b) = 2 * List.length b.
Proof.
  induction b as [|x b IH]; [reflexivity|].
  cbn [toString_hex List.length]. rewrite length_append, IH.
  unfold byte_to_hex. cbn [String.length]. lia.
Qed.

Lemma count_colons_app (a b : string) :
  count_colons (a ++ b) = count_colons a + count_colons b.
Proof.
  induction a as [|c a IH]; [reflexivity|].
  cbn [append count_colons]. destruct (Ascii.eqb c colon); now rewrite IH.
Qed.

Lemma byte_to_hex_no_colon (x : ascii) : count_colons (byte_to_hex x) = 0.
Proof. destruct x as [[] [] [] [] [] [] [] []]; reflexivity. Qed.

Lemma toString_hex_no_colon (b : Buffer) : count_colons (toString_hex b) = 0.
Proof.
  induction b as [|x b IH]; [reflexivity|].
  cbn [toString_hex]. now rewrite count_colons_app, byte_to_hex_no_colon, IH.
Qed.

Lemma split_colon_length (s : string) :
  List.length (split_colon s) = S (count_colons s).
Proof.
  induction s as [|c s IH]; [reflexivity|].
  cbn [split_colon count_colons]. destruct (Ascii.eqb c colon).
  - cbn [List.length]. now rewrite IH.
  - destruct (split_colon s) as [|p ps]; [discriminate|exact IH].
Qed.

Lemma split_colon_plain (a : string) :
  count_colons a = 0 -> split_colon a = [a].
Proof.
  induction a as [|c a IH]; intros H; [reflexivity|].
  cbn [split_colon count_colons] in *.
  destruct (Ascii.eqb c colon); [discriminate|]. now rewrite (IH H).
Qed.

Lemma split_colon_app (a rest : string) :
  count_colons a = 0 ->
  split_colon (a ++ String colon rest) = a :: split_colon rest.
Proof.
  induction a as [|c a IH]; intros H.
  - cbn [append split_colon]. now rewrite Ascii.eqb_refl.
  - cbn [append split_colon count_colons] in *.
    destruct (Ascii.eqb c colon); [discriminate|]. now rewrite (IH H).
Qed.

Lemma split_three (a b c : string) :
  count_colons a = 0 -> count_colons b = 0 -> count_colons c = 0 ->
  split_colon (a ++ ":" ++ b ++ ":" ++ c) = [a; b; c].
Proof.
  intros Ha Hb Hc.
  change (a ++ ":" ++ b ++ ":" ++ c)
    with (a ++ String colon (b ++ String colon c)).
  now rewrite (split_colon_app a _ Ha), (split_colon_app b _ Hb),
    (split_colon_plain c Hc).
Qed.

Lemma from_hex_length (n : nat) :
  forall s,
    String.length s = 2 * n ->
    forallb is_hex_digit (list_ascii_of_string s) = true ->
    List.length (from_hex s) = n.
Proof.
  induction n as [|n IH]; intros s Hl Hh.
  - destruct s; [reflexivity|discriminate].
  - destruct s as [|a [|b s]]; try (cbn in Hl; lia).
    cbn [list_ascii_of_string forallb] in Hh.
    apply andb_prop in Hh. destruct Hh as [Ha Hh].
    apply andb_prop in Hh. destruct Hh as [Hb Hh].
    unfold is_hex_digit in Ha, Hb. cbn [from_hex].
    destruct (unhex a); [|discriminate]. destruct (unhex b); [|discriminate].
    cbn [List.length]. f_equal. apply IH; [|exact Hh].
    cbn [String.length] in Hl. lia.
Qed.

Lemma isValidKey_spec (key : string) :
  isValidKey key = true
  <-> String.length key = 64
      /\ forallb is_hex_digit (list_ascii_of_string key) = true.
Proof.
  unfold isValidKey, matches_hex64.
  destruct (String.length key =? 64)%nat eqn:E; cbn [negb andb].
  - apply Nat.eqb_eq in E. tauto.
  - apply Nat.eqb_neq in E. split; [discriminate|tauto].
Qed.

Lemma getKey_valid (keyHex : string) :
  isValidKey keyHex = true ->
  getKey (Some keyHex) = Ok (from_hex keyHex)
  /\ List.length (from_hex keyHex) = 32.
Proof.
  intros H. pose proof (proj1 (isValidKey_spec keyHex) H) as [Hl Hh].
  split.
  - unfold getKey. rewrite H.
    destruct keyHex; [discriminate|reflexivity].
  - now apply from_hex_length.
Qed.

Lemma getKey_invalid (keyHex : string) :
  isValidKey keyHex = false -> getKey (Some keyHex) = Throw key_error.
Proof.
  intros H. unfold getKey. rewrite H.
  now rewrite Bool.orb_true_r.
Qed.

Lemma toString_hex_nonempty (b : Buffer) :
  List.length b = 16 -> String.eqb (toString_hex b) "" = false.
Proof. destruct b; [discriminate|]. intros _. reflexivity. Qed.

Lemma toy_cipher_correct (key iv : Buffer) (p : string) :
  List.length (snd (toy_cipher key iv p)) = 16
  /\ toy_decipher key iv (snd (toy_cipher key iv p))
       (toString_hex (fst (toy_cipher key iv p)))
     = Ok p.
Proof.
  split; [reflexivity|].
  unfold toy_decipher, toy_cipher. cbn [fst snd].
  replace (buffer_eqb zero_tag zero_tag) with true by reflexivity.
  now rewrite from_hex_toString_hex, string_of_list_ascii_of_string.
Qed.

End EncryptionFacts.

(** ** Properties of the credential store *)

Module EncryptionProperties.
Import Js Encryption StringFacts EncryptionFacts.

(** X1. [getKey] succeeds exactly on an environment value of 64
    hexadecimal digits, and the key it then returns is the decoded value,
    of exactly 32 bytes; with no value, an empty one or any other one it
    throws the key error. *)
Theorem key_is_32_bytes_or_error :
  (forall env_key key,
      getKey env_key = Ok key ->
      List.length key = 32
      /\ exists keyHex,
           env_key = Some keyHex
           /\ String.length keyHex = 64
           /\ forallb is_hex_digit (list_ascii_of_string keyHex) = true
           /\ key = from_hex keyHex)
  /\ (forall keyHex,
        String.length keyHex = 64 ->
        forallb is_hex_digit (list_ascii_of_string keyHex) = true ->
        getKey (Some keyHex) = Ok (from_hex keyHex))
  /\ (forall env_key,
        (forall key, getKey env_key <> Ok key) ->
        getKey env_key = Throw key_error).
Proof.
  repeat apply conj.
  - intros [keyHex|] key H; [|discriminate].
    destruct (isValidKey keyHex) eqn:V.
    + destruct (getKey_valid keyHex V) as [E L]. rewrite E in H.
      injection H as <-. split; [exact L|].
      exists keyHex. pose proof (proj1 (isValidKey_spec keyHex) V) as [Hl Hh].
      auto.
    + rewrite (getKey_invalid keyHex V) in H. discriminate.
  - intros keyHex Hl Hh.
    apply getKey_valid, isValidKey_spec. auto.
  - intros [keyHex|] H; [|reflexivity].
    destruct (isValidKey keyHex) eqn:V.
    + destruct (getKey_valid keyHex V) as [E _]. now destruct (H _ E).
    + now apply getKey_invalid.
Qed.

Lemma key_is_32_bytes_or_error_witness :
  List.length (from_hex sample_key) = 32
  /\ getKey (Some sample_key) = Ok (from_hex sample_key)
  /\ getKey (Some "not-a-key") = Throw key_error.
Proof.
  destruct key_is_32_bytes_or_error as (H1 & H2 & H3).
  split; [exact (proj1 (H1 (Some sample_key) _ eq_refl))|].
  split; [exact (H2 sample_key eq_refl eq_refl)|].
  apply H3. intros key. discriminate.
Defined.

(** X2. Round trip.  With a valid key in the environment and sixteen
    random bytes, and a cipher whose tag has sixteen bytes and whose
    decipher gives the plaintext back under the same key, initialisation
    vector and tag, [encrypt] succeeds and [decrypt] of its output is the
    plaintext, the empty one included. *)
Theorem decrypt_encrypt_round_trip :
  forall (cipher : Buffer -> Buffer -> string -> Buffer * Buffer)
         (decipher : Buffer -> Buffer -> Buffer -> string -> result string),
    (forall key iv p,
        List.length key = 32 -> List.length iv = 16 ->
        List.length (snd (cipher key iv p)) = 16
        /\ decipher key iv (snd (cipher key iv p))
             (toString_hex (fst (cipher key iv p)))
           = Ok p) ->
    forall keyHex iv plaintext,
      isValidKey keyHex = true ->
      List.length iv = 16 ->
      exists encrypted,
        encrypt cipher (Some keyHex) iv plaintext = Ok encrypted
        /\ decrypt decipher (Some keyHex) encrypted = Ok plaintext.
Proof.
  intros cipher decipher Hc keyHex iv plaintext Hk Hiv.
  destruct (getKey_valid keyHex Hk) as [Eg Lk].
  destruct (Hc (from_hex keyHex) iv plaintext Lk Hiv) as [Lt Hd].
  unfold encrypt. rewrite Eg.
  destruct (cipher (from_hex keyHex) iv plaintext) as [ct tag] eqn:Ec.
  cbn [fst snd] in Lt, Hd.
  exists (toString_hex iv ++ ":" ++ toString_hex tag ++ ":" ++ toString_hex ct).
  split; [reflexivity|].
  unfold decrypt.
  assert (Hne : String.eqb
                  (toString_hex iv ++ ":" ++ toString_hex tag ++ ":"
                     ++ toString_hex ct) "" = false).
  { destruct iv; [discriminate|]. reflexivity. }
  rewrite Hne, split_three by apply toString_hex_no_colon.
  rewrite (toString_hex_nonempty iv Hiv), (toString_hex_nonempty tag Lt).
  cbn [orb]. rewrite Eg, !from_hex_toString_hex, Hiv, Lt.
  exact Hd.
Qed.

Lemma decrypt_encrypt_round_trip_witness :
  exists encrypted,
    encrypt toy_cipher (Some sample_key) sample_iv "" = Ok encrypted
    /\ decrypt toy_decipher (Some sample_key) encrypted = Ok "".
Proof.
  apply (decrypt_encrypt_round_trip toy_cipher toy_decipher).
  - intros key iv p _ _. apply toy_cipher_correct.
  - reflexivity.
  - reflexivity.
Defined.

(** X3. The text [encrypt] returns splits at its colons into exactly
    three parts: the hex of the initialisation vector, of the tag and of
    the ciphertext, each with two characters a byte, from which
    [Buffer.from] gets the bytes back. *)
Theorem encrypt_output_format :
  forall (cipher : Buffer -> Buffer -> string -> Buffer * Buffer)
         keyHex iv plaintext encrypted,
    encrypt cipher (Some keyHex) iv plaintext = Ok encrypted ->
    let ct := fst (cipher (from_hex keyHex) iv plaintext) in
    let tag := snd (cipher (from_hex keyHex) iv plaintext) in
    split_colon encrypted = [toString_hex iv; toString_hex tag; toString_hex ct]
    /\ String.length (toString_hex iv) = 2 * List.length iv
    /\ String.length (toString_hex tag) = 2 * List.length tag
    /\ from_hex (toString_hex iv) = iv
    /\ from_hex (toString_hex tag) = tag
    /\ from_hex (toString_hex ct) = ct.
Proof.
  intros cipher keyHex iv plaintext encrypted H. cbv zeta.
  unfold encrypt in H.
  destruct (isValidKey keyHex) eqn:V.
  - destruct (getKey_valid keyHex V) as [Eg _]. rewrite Eg in H.
    destruct (cipher (from_hex keyHex) iv plaintext) as [ct tag].
    assert (E : encrypted
                = toString_hex iv ++ ":" ++ toString_hex tag ++ ":"
                    ++ toString_hex ct) by congruence.
    subst encrypted. cbn [fst snd].
    rewrite split_three by apply toString_hex_no_colon.
    rewrite !toString_hex_length, !from_hex_toString_hex.
    repeat split; reflexivity.
  - rewrite (getKey_invalid keyHex V) in H. discriminate.
Qed.

Lemma encrypt_output_format_witness :
  split_colon
    ("30313233343536373839616263646566:00000000000000000000000000000000:7067")
  = [toString_hex sample_iv; toString_hex zero_tag;
     toString_hex (list_ascii_of_string "pg")]
  /\ String.length (toString_hex sample_iv) = 32.
Proof.
  destruct (encrypt_output_format toy_cipher sample_key sample_iv "pg" _ eq_refl)
    as (H1 & H2 & _).
  split; [exact H1|exact H2].
Defined.

(** X4. [decrypt] refuses a malformed text before it looks at the key or
    at the cipher: the empty text, and any text that does not hold exactly
    two colons, whatever the environment.  With three parts and a valid
    key, a first part that does not decode to sixteen bytes is an invalid
    IV and, after a good first part, a second part that does not decode to
    sixteen bytes is an invalid tag; the decipher is not reached. *)
Theorem decrypt_rejects_malformed :
  forall (decipher : Buffer -> Buffer -> Buffer -> string -> result string),
    (forall env_key,
        decrypt decipher env_key "" = Throw (Error "Invalid encrypted text"))
    /\ (forall env_key text,
          text <> "" -> count_colons text <> 2 ->
          decrypt decipher env_key text
          = Throw (Error "Invalid encrypted text format"))
    /\ (forall env_key tagHex ct,
          count_colons tagHex = 0 -> count_colons ct = 0 ->
          decrypt decipher env_key (":" ++ tagHex ++ ":" ++ ct)
          = Throw (Error "Invalid encrypted text format"))
    /\ (forall keyHex ivHex tagHex ct,
          isValidKey keyHex = true ->
          count_colons ivHex = 0 -> count_colons tagHex = 0 ->
          count_colons ct = 0 ->
          ivHex <> "" -> tagHex <> "" ->
          List.length (from_hex ivHex) <> 16 ->
          decrypt decipher (Some keyHex) (ivHex ++ ":" ++ tagHex ++ ":" ++ ct)
          = Throw (Error "Invalid IV length"))
    /\ (forall keyHex ivHex tagHex ct,
          isValidKey keyHex = true ->
          count_colons ivHex = 0 -> count_colons tagHex = 0 ->
          count_colons ct = 0 ->
          ivHex <> "" -> tagHex <> "" ->
          List.length (from_hex ivHex) = 16 ->
          List.length (from_hex tagHex) <> 16 ->
          decrypt decipher (Some keyHex) (ivHex ++ ":" ++ tagHex ++ ":" ++ ct)
          = Throw (Error "Invalid auth tag length")).
Proof.
  intros decipher. repeat apply conj.
  - reflexivity.
  - intros env_key text Hne Hc. unfold decrypt.
    destruct (String.eqb text "") eqn:E;
      [apply String.eqb_eq in E; contradiction|].
    pose proof (split_colon_length text) as L.
    destruct (split_colon text) as [|a [|b [|c [|x l]]]]; try reflexivity.
    cbn [List.length] in L. exfalso. apply Hc. lia.
  - intros env_key tagHex ct Ht Hc. unfold decrypt.
    change (":" ++ tagHex ++ ":" ++ ct) with ("" ++ ":" ++ tagHex ++ ":" ++ ct).
    rewrite split_three by (assumption || reflexivity). reflexivity.
  - intros keyHex ivHex tagHex ct Hk Hi Ht Hc Hine Htne Hl. unfold decrypt.
    destruct (getKey_valid keyHex Hk) as [Eg _].
    assert (E : String.eqb (ivHex ++ ":" ++ tagHex ++ ":" ++ ct) "" = false)
      by (destruct ivHex; [contradiction|reflexivity]).
    rewrite E, split_three, Eg by assumption.
    apply String.eqb_neq in Hine, Htne. rewrite Hine, Htne. cbn [orb].
    apply Nat.eqb_neq in Hl. unfold IV_LENGTH. now rewrite Hl.
  - intros keyHex ivHex tagHex ct Hk Hi Ht Hc Hine Htne Hl Hl'. unfold decrypt.
    destruct (getKey_valid keyHex Hk) as [Eg _].
    assert (E : String.eqb (ivHex ++ ":" ++ tagHex ++ ":" ++ ct) "" = false)
      by (destruct ivHex; [contradiction|reflexivity]).
    rewrite E, split_three, Eg by assumption.
    apply String.eqb_neq in Hine, Htne. rewrite Hine, Htne. cbn [orb].
    apply Nat.eqb_neq in Hl'. unfold IV_LENGTH, AUTH_TAG_LENGTH.
    now rewrite Hl, Hl'.
Qed.

Lemma decrypt_rejects_malformed_witness :
  decrypt toy_decipher None "a:b" = Throw (Error "Invalid encrypted text format")
  /\ decrypt toy_decipher (Some sample_key) "00ff:00:7067"
     = Throw (Error "Invalid IV length").
Proof.
  destruct (decrypt_rejects_malformed toy_decipher) as (_ & H2 & _ & H4 & _).
  split.
  - apply H2; discriminate.
  - apply (H4 sample_key "00ff" "00" "7067"); try reflexivity; discriminate.
Defined.

End EncryptionProperties.

(** ** Properties of the role hierarchy *)

Module OrganizationProperties.
Import Js Organization.

(** X5. [hasMinimumRole] is a total order on the four roles: every role
    meets itself, meeting is transitive, of two roles one meets the other,
    and two roles that meet each other are the same.  OWNER meets every
    requirement and every role meets VIEWER. *)
Theorem role_hierarchy_is_total_order :
  (forall r, hasMinimumRole r r = true)
  /\ (forall a b c,
        hasMinimumRole a b = true -> hasMinimumRole b c = true ->
        hasMinimumRole a c = true)
  /\ (forall a b, hasMinimumRole a b = true \/ hasMinimumRole b a = true)
  /\ (forall a b,
        hasMinimumRole a b = true -> hasMinimumRole b a = true -> a = b)
  /\ (forall r, hasMinimumRole OWNER r = true)
  /\ (forall r, hasMinimumRole r VIEWER = true).
Proof.
  repeat apply conj.
  - intros r. unfold hasMinimumRole. apply Nat.leb_refl.
  - intros a b c H1 H2. unfold hasMinimumRole in *.
    apply Nat.leb_le in H1, H2. apply Nat.leb_le. lia.
  - intros a b. unfold hasMinimumRole.
    destruct (Nat.le_ge_cases (ROLE_HIERARCHY a) (ROLE_HIERARCHY b)) as [H|H];
      [right|left]; now apply Nat.leb_le.
  - intros a b H1 H2. unfold hasMinimumRole in *.
    apply Nat.leb_le in H1, H2.
    destruct a, b; cbn in *; try reflexivity; lia.
  - intros []; reflexivity.
  - intros []; reflexivity.
Qed.

Lemma role_hierarchy_is_total_order_witness :
  hasMinimumRole OWNER EDITOR = true /\ ADMIN = ADMIN.
Proof.
  destruct role_hierarchy_is_total_order as (H1 & H2 & _ & H4 & H5 & H6).
  split.
  - exact (H2 OWNER ADMIN EDITOR eq_refl eq_refl).
  - exact (H4 ADMIN ADMIN eq_refl eq_refl).
Defined.

(** X6. [assertRole] passes exactly when the user's role meets the
    required one, and otherwise throws FORBIDDEN with a message that names
    the required role.  A user who passes for a role passes for every role
    that role meets, and a user who fails for a role fails for every role
    that meets it. *)
Theorem assertRole_follows_hierarchy :
  (forall u r, assertRole u r = Return tt <-> hasMinimumRole u r = true)
  /\ (forall u r,
        hasMinimumRole u r = false ->
        assertRole u r
        = Raise (mkTRPCError "FORBIDDEN" (show_role r ++ " access required")))
  /\ (forall u r r',
        assertRole u r = Return tt -> hasMinimumRole r r' = true ->
        assertRole u r' = Return tt)
  /\ (forall u r r',
        assertRole u r <> Return tt -> hasMinimumRole r' r = true ->
        assertRole u r' <> Return tt).
Proof.
  assert (P : forall u r, assertRole u r = Return tt <-> hasMinimumRole u r = true).
  { intros u r. unfold assertRole.
    destruct (hasMinimumRole u r); cbn [negb]; split;
      try reflexivity; discriminate. }
  assert (T : forall a b c,
             hasMinimumRole a b = true -> hasMinimumRole b c = true ->
             hasMinimumRole a c = true).
  { intros a b c H1 H2. unfold hasMinimumRole in *.
    apply Nat.leb_le in H1, H2. apply Nat.leb_le. lia. }
  repeat apply conj.
  - exact P.
  - intros u r H. unfold assertRole. now rewrite H.
  - intros u r r' H1 H2. apply P. apply P in H1. eauto.
  - intros u r r' H1 H2 H3. apply H1. apply P. apply P in H3. eauto.
Qed.

Lemma assertRole_follows_hierarchy_witness :
  assertRole ADMIN EDITOR = Return tt
  /\ assertRole EDITOR ADMIN
     = Raise (mkTRPCError "FORBIDDEN" "ADMIN access required")
  /\ assertRole ADMIN VIEWER = Return tt.
Proof.
  destruct assertRole_follows_hierarchy as (H1 & H2 & H3 & _).
  split; [exact (proj2 (H1 ADMIN EDITOR) eq_refl)|].
  split; [exact (H2 EDITOR ADMIN eq_refl)|].
  exact (H3 ADMIN EDITOR VIEWER (proj2 (H1 ADMIN EDITOR) eq_refl) eq_refl).
Defined.

End OrganizationProperties.

(** ** Facts about slugs *)

Module SlugFacts.
Import Js AppRouter.

Lemma dash_not_slug : is_slug_char dash = false.
Proof. reflexivity. Qed.

Lemma slug_not_dash (c : ascii) :
  is_slug_char c = true -> Ascii.eqb c dash = false.
Proof.
  intros H. destruct (Ascii.eqb c dash) eqn:E; [|reflexivity].
  apply Ascii.eqb_eq in E. subst c. discriminate.
Qed.

Lemma replace_runs_no_double (s : string) :
  forall b, no_double b (replace_runs b s) = true.
Proof.
  induction s as [|c s IH]; intros b; [reflexivity|].
  cbn [replace_runs]. destruct (is_slug_char c) eqn:E.
  - cbn [no_double]. now rewrite (slug_not_dash c E), E, IH.
  - destruct b; [apply IH|].
    cbn [no_double]. now rewrite Ascii.eqb_refl, IH.
Qed.

Lemma strip_leading_no_double (s : string) :
  no_double false s = true -> no_double true (strip_leading_dash s) = true.
Proof.
  destruct s as [|c s]; [reflexivity|].
  cbn [strip_leading_dash no_double]. destruct (Ascii.eqb c dash) eqn:E.
  - cbn [negb andb]. tauto.
  - intros H. cbn [no_double]. now rewrite E.
Qed.

Lemma strip_trailing_empty (s : string) :
  strip_trailing_dash s = "" -> s = "" \/ s = String dash "".
Proof.
  destruct s as [|c [|c' s]]; [now left| |discriminate].
  cbn [strip_trailing_dash]. destruct (Ascii.eqb c dash) eqn:E; [|discriminate].
  apply Ascii.eqb_eq in E. subst c. now right.
Qed.

Lemma strip_trailing_cons (c c' : ascii) (s : string) :
  strip_trailing_dash (String c (String c' s))
  = String c (strip_trailing_dash (String c' s)).
Proof. reflexivity. Qed.

Lemma ends_with_dash_cons (c c' : ascii) (s : string) :
  ends_with_dash (String c (String c' s)) = ends_with_dash (String c' s).
Proof. reflexivity. Qed.

Lemma strip_trailing_no_double (s : string) :
  forall b,
    no_double b s = true ->
    no_double b (strip_trailing_dash s) = true
    /\ ends_with_dash (strip_trailing_dash s) = false.
Proof.
  induction s as [|c s IH]; intros b H; [split; reflexivity|].
  destruct s as [|c' s].
  - cbn [strip_trailing_dash]. destruct (Ascii.eqb c dash) eqn:E.
    + split; reflexivity.
    + split; [exact H|]. cbn [ends_with_dash]. exact E.
  - rewrite strip_trailing_cons.
    cbn [no_double] in H. cbn [no_double].
    destruct (Ascii.eqb c dash) eqn:E.
    + apply andb_prop in H. destruct H as [Hb H].
      destruct (IH true H) as [I1 I2]. rewrite Hb, I1. split; [reflexivity|].
      destruct (strip_trailing_dash (String c' s)) as [|x r] eqn:S.
      * apply strip_trailing_empty in S. destruct S as [S|S]; [discriminate|].
        injection S as -> ->. cbn in H. discriminate.
      * destruct r; exact I2.
    + apply andb_prop in H. destruct H as [Hc H].
      destruct (IH false H) as [I1 I2]. rewrite Hc, I1. split; [reflexivity|].
      destruct (strip_trailing_dash (String c' s)) as [|x r] eqn:S.
      * cbn [ends_with_dash]. exact E.
      * destruct r; exact I2.
Qed.

Lemma no_double_chars (s : string) :
  forall b n c,
    no_double b s = true -> String.get n s = Some c ->
    is_slug_char c = true \/ c = dash.
Proof.
  induction s as [|x s IH]; intros b n c H G; [destruct n; discriminate|].
  cbn [no_double] in H. destruct (Ascii.eqb x dash) eqn:E.
  - apply andb_prop in H. destruct H as [_ H].
    destruct n as [|n]; simpl in G.
    + injection G as <-. right. now apply Ascii.eqb_eq.
    + eapply IH; eauto.
  - apply andb_prop in H. destruct H as [Hx H].
    destruct n as [|n]; simpl in G.
    + injection G as <-. now left.
    + eapply IH; eauto.
Qed.

Lemma no_double_first (s : string) :
  no_double true s = true -> String.get 0 s <> Some dash.
Proof.
  destruct s as [|x s]; [discriminate|].
  cbn [no_double]. destruct (Ascii.eqb x dash) eqn:E; [discriminate|].
  intros _ G. simpl in G. injection G as ->.
  rewrite Ascii.eqb_refl in E. discriminate.
Qed.

Lemma no_double_after_dash (s : string) :
  forall b n,
    no_double b s = true -> ends_with_dash s = false ->
    String.get n s = Some dash ->
    exists c, String.get (S n) s = Some c /\ is_slug_char c = true.
Proof.
  induction s as [|x s IH]; intros b n H L G; [destruct n; discriminate|].
  destruct s as [|y s].
  - destruct n as [|n]; simpl in G; [|destruct n; discriminate].
    injection G as ->. cbn in L. discriminate.
  - rewrite ends_with_dash_cons in L. cbn [no_double] in H.
    destruct n as [|n].
    + simpl in G. injection G as ->. rewrite Ascii.eqb_refl in H.
      apply andb_prop in H. destruct H as [_ H].
      cbn [no_double] in H. destruct (Ascii.eqb y dash); [discriminate|].
      apply andb_prop in H. destruct H as [Hy _].
      exists y. split; [reflexivity|exact Hy].
    + change (String.get (S n) (String x (String y s)))
        with (String.get n (String y s)) in G.
      change (String.get (S (S n)) (String x (String y s)))
        with (String.get (S n) (String y s)).
      destruct (Ascii.eqb x dash); apply andb_prop in H; destruct H as [_ H];
        eapply IH; eauto.
Qed.

Lemma slug_chars_cons (c : ascii) (s : string) :
  slug_chars (String c s)
  = if is_slug_char c then c :: slug_chars s else slug_chars s.
Proof. reflexivity. Qed.

Lemma slug_chars_replace_runs (s : string) :
  forall b, slug_chars (replace_runs b s) = slug_chars s.
Proof.
  induction s as [|c s IH]; intros b; [reflexivity|].
  cbn [replace_runs]. rewrite slug_chars_cons.
  destruct (is_slug_char c) eqn:E.
  - now rewrite slug_chars_cons, E, IH.
  - destruct b; [apply IH|]. now rewrite slug_chars_cons, dash_not_slug, IH.
Qed.

Lemma slug_chars_strip_leading (s : string) :
  slug_chars (strip_leading_dash s) = slug_chars s.
Proof.
  destruct s as [|c s]; [reflexivity|].
  cbn [strip_leading_dash]. destruct (Ascii.eqb c dash) eqn:E; [|reflexivity].
  apply Ascii.eqb_eq in E. subst c. now rewrite slug_chars_cons, dash_not_slug.
Qed.

Lemma slug_chars_strip_trailing (s : string) :
  slug_chars (strip_trailing_dash s) = slug_chars s.
Proof.
  induction s as [|c s IH]; [reflexivity|].
  destruct s as [|c' s].
  - cbn [strip_trailing_dash]. destruct (Ascii.eqb c dash) eqn:E; [|reflexivity].
    apply Ascii.eqb_eq in E. subst c. reflexivity.
  - rewrite strip_trailing_cons, !slug_chars_cons. now rewrite IH.
Qed.

Lemma replace_runs_no_slug (s : string) :
  slug_chars s = [] ->
  replace_runs true s = ""
  /\ (s = "" \/ replace_runs false s = String dash "").
Proof.
  induction s as [|c s IH]; intros H; [split; [reflexivity|now left]|].
  rewrite slug_chars_cons in H. cbn [replace_runs].
  destruct (is_slug_char c); [discriminate|].
  destruct (IH H) as [I1 _]. split; [exact I1|]. right. now rewrite I1.
Qed.

Lemma replace_runs_fixed (s : string) :
  forall b b',
    no_double b s = true -> (b' = true -> b = true) ->
    replace_runs b' s = s.
Proof.
  induction s as [|c s IH]; intros b b' H Hb; [reflexivity|].
  cbn [no_double] in H. cbn [replace_runs].
  destruct (Ascii.eqb c dash) eqn:E.
  - apply Ascii.eqb_eq in E. subst c. rewrite dash_not_slug.
    apply andb_prop in H. destruct H as [Hn H].
    destruct b'.
    + rewrite (Hb eq_refl) in Hn. discriminate.
    + f_equal. now apply (IH true true).
  - apply andb_prop in H. destruct H as [Hc H]. rewrite Hc.
    f_equal. apply (IH false false); [exact H|discriminate].
Qed.

Lemma strip_leading_fixed (s : string) :
  no_double true s = true -> strip_leading_dash s = s.
Proof.
  destruct s as [|c s]; [reflexivity|].
  cbn [no_double strip_leading_dash].
  destruct (Ascii.eqb c dash); [discriminate|reflexivity].
Qed.

Lemma strip_trailing_fixed (s : string) :
  ends_with_dash s = false -> strip_trailing_dash s = s.
Proof.
  induction s as [|c s IH]; intros H; [reflexivity|].
  destruct s as [|c' s].
  - cbn in *. now rewrite H.
  - rewrite strip_trailing_cons. rewrite ends_with_dash_cons in H.
    now rewrite (IH H).
Qed.

Lemma no_double_alphabet (s : string) :
  forall b,
    no_double b s = true ->
    forallb (fun c => is_slug_char c || Ascii.eqb c dash)%bool
            (list_ascii_of_string s) = true.
Proof.
  induction s as [|c s IH]; intros b H; [reflexivity|].
  cbn [no_double] in H. cbn [list_ascii_of_string forallb].
  destruct (Ascii.eqb c dash) eqn:E; apply andb_prop in H; destruct H as [Hc H].
  - rewrite Bool.orb_true_r. cbn [andb]. eapply IH; eauto.
  - rewrite Hc. cbn [orb andb]. eapply IH; eauto.
Qed.

Lemma generateSlug_shape (toLowerCase : string -> string) (name : string) :
  no_double true (generateSlug toLowerCase name) = true
  /\ ends_with_dash (generateSlug toLowerCase name) = false.
Proof.
  unfold generateSlug. apply strip_trailing_no_double.
  apply strip_leading_no_double. apply replace_runs_no_double.
Qed.

Lemma lower_fixed (s : string) :
  forallb (fun c => is_slug_char c || Ascii.eqb c dash)%bool
          (list_ascii_of_string s) = true ->
  lower s = s.
Proof.
  induction s as [|c s IH]; intros H; [reflexivity|].
  cbn [list_ascii_of_string forallb] in H.
  apply andb_prop in H. destruct H as [Hc H].
  cbn [lower]. rewrite (IH H). f_equal.
  destruct c as [[] [] [] [] [] [] [] []]; try discriminate; reflexivity.
Qed.

End SlugFacts.

(** ** Properties of slugs *)

Module SlugProperties.
Import Js AppRouter SlugFacts.

(** X7. Whatever the name, the slug is made of lower-case letters, digits
    and dashes only, does not begin with a dash, and every dash in it is
    followed by a letter or a digit: no dash at the end and no two dashes
    in a row. *)
Theorem slug_shape :
  forall (toLowerCase : string -> string) (name : string),
    let slug := generateSlug toLowerCase name in
    (forall n c,
        String.get n slug = Some c -> is_slug_char c = true \/ c = dash)
    /\ String.get 0 slug <> Some dash
    /\ (forall n,
          String.get n slug = Some dash ->
          exists c, String.get (S n) slug = Some c /\ is_slug_char c = true).
Proof.
  intros toLowerCase name slug.
  destruct (generateSlug_shape toLowerCase name) as [H L]. fold slug in H, L.
  repeat apply conj.
  - intros n c. now apply (no_double_chars slug true).
  - now apply no_double_first.
  - intros n. now apply (no_double_after_dash slug true).
Qed.

(** X8. The slug keeps the letters and digits of the lower-cased name,
    all of them and in their order; it is empty exactly when the
    lower-cased name holds no letter and no digit. *)
Theorem slug_keeps_letters_and_digits :
  forall (toLowerCase : string -> string) (name : string),
    slug_chars (generateSlug toLowerCase name) = slug_chars (toLowerCase name)
    /\ (generateSlug toLowerCase name = ""
        <-> slug_chars (toLowerCase name) = []).
Proof.
  intros toLowerCase name.
  assert (K : slug_chars (generateSlug toLowerCase name)
              = slug_chars (toLowerCase name)).
  { unfold generateSlug.
    now rewrite slug_chars_strip_trailing, slug_chars_strip_leading,
      slug_chars_replace_runs. }
  split; [exact K|]. split.
  - intros E. now rewrite <- K, E.
  - intros E. unfold generateSlug.
    destruct (replace_runs_no_slug _ E) as [_ [E0|E1]].
    + now rewrite E0.
    + now rewrite E1.
Qed.

(** X9. A slug is its own slug, as soon as [toLowerCase] leaves a string
    of lower-case letters, digits and dashes as it is. *)
Theorem slug_idempotent :
  forall (toLowerCase : string -> string),
    (forall s,
        forallb (fun c => is_slug_char c || Ascii.eqb c dash)%bool
                (list_ascii_of_string s) = true ->
        toLowerCase s = s) ->
    forall name,
      generateSlug toLowerCase (generateSlug toLowerCase name)
      = generateSlug toLowerCase name.
Proof.
  intros toLowerCase Hl name.
  destruct (generateSlug_shape toLowerCase name) as [H L].
  set (slug := generateSlug toLowerCase name) in *.
  unfold generateSlug at 1.
  rewrite (Hl slug (no_double_alphabet slug true H)).
  rewrite (replace_runs_fixed slug true false H) by discriminate.
  now rewrite (strip_leading_fixed slug H), (strip_trailing_fixed slug L).
Qed.

Lemma slug_idempotent_witness :
  generateSlug lower (generateSlug lower "  My App -- v2!  ")
  = generateSlug lower "  My App -- v2!  ".
Proof. exact (slug_idempotent lower lower_fixed "  My App -- v2!  "). Defined.

End SlugProperties.

(** ** More facts about runs *)

Module RunMoreFacts.
Import Js QueryExecutor Pg Executor SchemaIntrospector Runs Stops Snapshots.
Import DataSource RunFacts.

Lemma with_pool_run {A} (c : PoolConfig) (body : pool -> M A) d t :
  with_pool c body d t
  = (after_end
       (fst (body (fresh_pool t) d (t ++ [Created (fresh_pool t) c])%list))
       (end_reply d
          (snd (body (fresh_pool t) d (t ++ [Created (fresh_pool t) c])%list))
          (fresh_pool t)),
     (snd (body (fresh_pool t) d (t ++ [Created (fresh_pool t) c])%list)
        ++ [Ended (fresh_pool t)])%list).
Proof.
  unfold with_pool, bind, new_Pool, try_finally, pool_end, push, after_end.
  destruct (body (fresh_pool t) d (t ++ [Created (fresh_pool t) c])%list)
    as [r t'].
  cbn [fst snd]. destruct (end_reply d t' (fresh_pool t)); reflexivity.
Qed.

Lemma queries_of_app (a b : trace) :
  queries_of (a ++ b)%list = (queries_of a ++ queries_of b)%list.
Proof.
  induction a as [|[] a IH]; cbn [app queries_of]; now rewrite ?IH.
Qed.

Lemma executeSelect_with_pool config options :
  executeSelect config options
  = with_pool (executor_pool config)
      (execute_body (Ok (buildSelectQuery options))
         (fun reply =>
            mkSelectResult (rows reply) (coalesce (rowCount reply) (VNum 0)))).
Proof. reflexivity. Qed.

Lemma executeInsert_with_pool config options :
  executeInsert config options
  = with_pool (executor_pool config)
      (execute_body (buildInsertQuery options)
         (fun reply => mkInsertResult (nth_error (rows reply) 0))).
Proof. reflexivity. Qed.

Lemma executeUpdate_with_pool config options :
  executeUpdate config options
  = with_pool (executor_pool config)
      (execute_body (buildUpdateQuery options)
         (fun reply =>
            mkUpdateResult (rows reply) (coalesce (rowCount reply) (VNum 0)))).
Proof. reflexivity. Qed.

Lemma executeDelete_with_pool config options :
  executeDelete config options
  = with_pool (executor_pool config)
      (execute_body (buildDeleteQuery options)
         (fun reply =>
            mkDeleteResult (rows reply) (coalesce (rowCount reply) (VNum 0)))).
Proof. reflexivity. Qed.

Lemma introspect_with_pool config :
  introspectPostgresSchema config
  = with_pool (introspector_pool config None) introspect_body.
Proof. reflexivity. Qed.

Lemma with_pool_end_fails {A} (c : PoolConfig) (body : pool -> M A) d t tb e :
  snd (with_pool c body d t) = (tb ++ [Ended (fresh_pool t)])%list ->
  end_reply d tb (fresh_pool t) = Throw e ->
  fst (with_pool c body d t) = Throw e.
Proof.
  rewrite with_pool_run. cbn [fst snd]. intros Ht He.
  apply app_inj_tail in Ht. destruct Ht as [-> _]. now rewrite He.
Qed.

Lemma stops_ret {A} (p : pool) (a : A) : stops_at_rejection p (ret a).
Proof. intros d t e t' H. discriminate. Qed.

Lemma stops_lift_ok {A} (p : pool) (a : A) : stops_at_rejection p (lift (Ok a)).
Proof. intros d t e t' H. discriminate. Qed.

Lemma stops_query (p : pool) (text : string) (vs : list value) :
  stops_at_rejection p (pool_query p text vs).
Proof.
  intros d t e t' H. unfold pool_query, push in H.
  injection H as H1 H2. subst t'. now exists t, text, vs.
Qed.

Lemma stops_bind {A B} (p : pool) (m : M A) (f : A -> M B) :
  stops_at_rejection p m -> (forall a, stops_at_rejection p (f a)) ->
  stops_at_rejection p (bind m f).
Proof.
  intros Hm Hf d t e t' H. unfold bind in H.
  destruct (m d t) as [[a|e0] t0] eqn:E.
  - exact (Hf a d t0 e t' H).
  - injection H as <- <-. exact (Hm d t e0 t0 E).
Qed.

Lemma stops_if {A} (p : pool) (b : bool) (m m' : M A) :
  stops_at_rejection p m -> stops_at_rejection p m' ->
  stops_at_rejection p (if b then m else m').
Proof. now destruct b. Qed.

Lemma stops_introspect_tables (p : pool) (table_rows : list row) :
  forall tables, stops_at_rejection p (introspect_tables p table_rows tables).
Proof.
  induction table_rows as [|r rest IH]; intros tables; cbn [introspect_tables].
  - apply stops_ret.
  - apply stops_bind; [apply stops_query|]. intros columnsResult.
    apply stops_bind; [apply stops_query|]. intros pkResult. apply IH.
Qed.

Lemma stops_introspect_body (p : pool) : stops_at_rejection p (introspect_body p).
Proof.
  apply stops_bind; [apply stops_query|]. intros tablesResult.
  apply stops_bind; [apply stops_introspect_tables|]. intros tables.
  apply stops_ret.
Qed.

Lemma stops_row_count_body (tableName : string) (p : pool) :
  stops_at_rejection p (row_count_body tableName p).
Proof.
  apply stops_bind; [apply stops_query|]. intros estimateResult.
  apply stops_if; [|apply stops_ret].
  apply stops_bind; [apply stops_query|]. intros countResult. apply stops_ret.
Qed.

Lemma stops_execute_body {A} (q : QueryResult) (shape : QueryReply -> A)
      (p : pool) :
  stops_at_rejection p (execute_body (Ok q) shape p).
Proof.
  apply stops_bind; [apply stops_lift_ok|]. intros q'.
  apply stops_bind; [apply stops_query|]. intros reply. apply stops_ret.
Qed.

Lemma with_pool_throws {A} (c : PoolConfig) (body : pool -> M A) d t e t' :
  (forall p, stops_at_rejection p (body p)) ->
  with_pool c body d t = (Throw e, t') ->
  exists tb,
    t' = (tb ++ [Ended (fresh_pool t)])%list
    /\ (end_reply d tb (fresh_pool t) = Throw e
        \/ rejected_last d (fresh_pool t) e tb).
Proof.
  intros Hs H. rewrite with_pool_run in H.
  destruct (body (fresh_pool t) d (t ++ [Created (fresh_pool t) c])%list)
    as [r tb] eqn:E.
  cbn [fst snd] in H. exists tb. injection H as H1 H2. split; [now symmetry|].
  unfold after_end in H1.
  destruct (end_reply d tb (fresh_pool t)) as [u|e0].
  - subst r. right. exact (Hs _ _ _ _ _ E).
  - injection H1 as ->. now left.
Qed.

Lemma introspect_tables_ok (p : pool) (table_rows : list row) :
  forall acc d t ts t',
    introspect_tables p table_rows acc d t = (Ok ts, t') ->
    exists fresh qs,
      ts = (acc ++ fresh)%list
      /\ map name fresh = map table_name_of table_rows
      /\ Forall (table_from_replies d p) fresh
      /\ t' = (t ++ qs)%list
      /\ queries_of qs = flat_map table_queries table_rows.
Proof.
  induction table_rows as [|r rest IH]; intros acc d t ts t' H.
  - cbn in H. injection H as <- <-. exists [], [].
    rewrite !app_nil_r. repeat split. constructor.
  - cbn [introspect_tables] in H. unfold bind, pool_query in H.
    destruct (query_reply d t p COLUMNS_SQL [get r "table_name"])
      as [cr|e] eqn:E1; [|discriminate].
    destruct (query_reply d (push t (Queried p COLUMNS_SQL [get r "table_name"]))
                p PRIMARY_KEY_SQL [get r "table_name"])
      as [pr|e] eqn:E2; [|discriminate].
    apply IH in H. destruct H as (fresh & qs & -> & Hn & Hf & -> & Hq).
    eexists (_ :: fresh), (_ :: _ :: qs). unfold push in *.
    rewrite <- !app_assoc. cbn [app].
    split; [reflexivity|]. split; [cbn [map name]; now rewrite Hn|].
    split.
    + constructor; [|exact Hf].
      exists t, cr, pr. cbn [name columns primaryKey]. now rewrite E1, E2.
    + split; [reflexivity|]. cbn [queries_of flat_map table_queries app].
      now rewrite Hq.
Qed.

Lemma testPostgresConnection_run now config d t :
  testPostgresConnection now config d t
  = let p := fresh_pool t in
    let t1 := (t ++ [Created p (introspector_pool config (Some 5000%Z))])%list in
    let t2 := (t1 ++ [Queried p "SELECT NOW()" []])%list in
    (after_end
       (Ok (match query_reply d t1 p "SELECT NOW()" [] with
            | Ok _ => mkTestResult true None (Some (now t2 - now t)%Z)
            | Throw e => mkTestResult false (Some (error_text e)) None
            end))
       (end_reply d t2 p),
     (t2 ++ [Ended p])%list).
Proof.
  unfold testPostgresConnection, bind, new_Pool, try_finally, try_catch,
    pool_query, pool_end, ret, push, after_end, introspector_pool.
  cbv zeta.
  destruct (query_reply d _ (fresh_pool t) "SELECT NOW()" []);
    destruct (end_reply d _ (fresh_pool t)); reflexivity.
Qed.

Lemma estimate_defaults_to_zero (reply : QueryReply) :
  is_nullish (first_field (rows reply) "estimate") = true ->
  estimate_of reply = Int 0.
Proof. intros H. unfold estimate_of, coalesce. now rewrite H. Qed.

End RunMoreFacts.

(** ** Properties of the executor, the introspector and the connection test *)

Module RunProperties.
Import Js QueryExecutor Pg Executor SchemaIntrospector Runs Samples Stops.
Import Snapshots DataSource RunFacts RunMoreFacts.

(** X10. A successful introspection gives one table for each row of the
    list of tables, in the order of that list and under the name of the
    row; the columns and the key of each table are the driver's answers to
    the two queries sent for its name, in the order the driver gave them.
    The run sends the list query and then two queries a table, and nothing
    else. *)
Theorem snapshot_follows_catalogue :
  forall config d t schema t',
    introspectPostgresSchema config d t = (Ok schema, t') ->
    let p := fresh_pool t in
    let t1 := (t ++ [Created p (introspector_pool config None)])%list in
    exists tablesResult,
      query_reply d t1 p TABLES_SQL [] = Ok tablesResult
      /\ map name (tables schema) = map table_name_of (rows tablesResult)
      /\ Forall (table_from_replies d p) (tables schema)
      /\ queries_of (news t t')
         = (TABLES_SQL, []) :: flat_map table_queries (rows tablesResult).
Proof.
  intros config d t schema t' H. cbv zeta.
  rewrite introspect_with_pool, with_pool_run in H.
  set (p := fresh_pool t) in *.
  set (t1 := (t ++ [Created p (introspector_pool config None)])%list) in *.
  destruct (introspect_body p d t1) as [r tb] eqn:E. cbn [fst snd] in H.
  injection H as H1 H2.
  assert (Hr : r = Ok schema).
  { unfold after_end in H1. destruct (end_reply d tb p); [exact H1|discriminate]. }
  subst r. clear H1.
  unfold introspect_body in E. unfold bind at 1 in E. unfold pool_query at 1 in E.
  destruct (query_reply d t1 p TABLES_SQL []) as [tablesResult|e] eqn:Q;
    [|discriminate].
  exists tablesResult. split; [reflexivity|].
  unfold bind in E.
  destruct (introspect_tables p (rows tablesResult) []
              d (push t1 (Queried p TABLES_SQL []))) as [[ts|e] t2] eqn:I;
    [|discriminate].
  unfold ret in E. injection E as <- <-.
  apply introspect_tables_ok in I.
  destruct I as (fresh & qs & -> & Hn & Hf & -> & Hq).
  cbn [app tables]. split; [exact Hn|]. split; [exact Hf|].
  subst t'. unfold t1, push. rewrite <- !app_assoc, news_app.
  cbn [app queries_of].
  rewrite queries_of_app, Hq. cbn [queries_of]. now rewrite app_nil_r.
Qed.

Lemma snapshot_follows_catalogue_witness :
  exists tablesResult,
    query_reply order_items_driver
      [Created 0 (introspector_pool sample_config None)] 0 TABLES_SQL []
    = Ok tablesResult
    /\ map name
         [mkTableInfo (VStr "order_items")
            [mkColumnInfo (VStr "order_id") (VStr "integer") false false VNull;
             mkColumnInfo (VStr "quantity") (VStr "integer") true true (VStr "1")]
            [VStr "order_id"; VStr "product_id"]]
       = map table_name_of (rows tablesResult).
Proof.
  destruct (snapshot_follows_catalogue sample_config order_items_driver []
              _ _ eq_refl) as (tr & H1 & H2 & _).
  exists tr. split; [exact H1|exact H2].
Defined.

(** X11. When a select, an introspection or a row count throws, the
    teardown has run and is the last event, and the error is either the
    one the teardown was rejected with or the one the driver rejected a
    query with; in that case the rejected query is the last one sent:
    after a rejection no further query goes out. *)
Theorem no_query_after_rejection :
  (forall config options d t e t',
      executeSelect config options d t = (Throw e, t') ->
      exists tb,
        t' = (tb ++ [Ended (fresh_pool t)])%list
        /\ (end_reply d tb (fresh_pool t) = Throw e
            \/ rejected_last d (fresh_pool t) e tb))
  /\ (forall config d t e t',
        introspectPostgresSchema config d t = (Throw e, t') ->
        exists tb,
          t' = (tb ++ [Ended (fresh_pool t)])%list
          /\ (end_reply d tb (fresh_pool t) = Throw e
              \/ rejected_last d (fresh_pool t) e tb))
  /\ (forall config tableName d t e t',
        getTableRowCount config tableName d t = (Throw e, t') ->
        exists tb,
          t' = (tb ++ [Ended (fresh_pool t)])%list
          /\ (end_reply d tb (fresh_pool t) = Throw e
              \/ rejected_last d (fresh_pool t) e tb)).
Proof.
  repeat apply conj.
  - intros config options d t e t' H.
    rewrite executeSelect_with_pool in H.
    eapply with_pool_throws; [|exact H]. intros p. apply stops_execute_body.
  - intros config d t e t' H. rewrite introspect_with_pool in H.
    eapply with_pool_throws; [|exact H]. exact stops_introspect_body.
  - intros config tableName d t e t' H. rewrite getTableRowCount_eq in H.
    eapply with_pool_throws; [|exact H]. intros p. apply stops_row_count_body.
Qed.

Lemma no_query_after_rejection_witness :
  exists tb,
    [Created 0 (introspector_pool sample_config None);
     Queried 0 TABLES_SQL []; Ended 0]
    = (tb ++ [Ended 0])%list
    /\ (end_reply failing_driver tb 0 = Throw (Error "Connection refused")
        \/ rejected_last failing_driver 0 (Error "Connection refused") tb).
Proof.
  destruct no_query_after_rejection as (_ & H & _).
  exact (H sample_config failing_driver [] _ _ eq_refl).
Defined.

(** X12. A rejected teardown overrides everything: when [pool.end()] is
    rejected, each executor function and each introspector function throws
    the teardown's error, whether its queries succeeded or not. *)
Theorem teardown_error_wins :
  forall d t tb e,
    end_reply d tb (fresh_pool t) = Throw e ->
    (forall config options,
        snd (executeSelect config options d t)
        = (tb ++ [Ended (fresh_pool t)])%list ->
        fst (executeSelect config options d t) = Throw e)
    /\ (forall config options,
          snd (executeInsert config options d t)
          = (tb ++ [Ended (fresh_pool t)])%list ->
          fst (executeInsert config options d t) = Throw e)
    /\ (forall config options,
          snd (executeUpdate config options d t)
          = (tb ++ [Ended (fresh_pool t)])%list ->
          fst (executeUpdate config options d t) = Throw e)
    /\ (forall config options,
          snd (executeDelete config options d t)
          = (tb ++ [Ended (fresh_pool t)])%list ->
          fst (executeDelete config options d t) = Throw e)
    /\ (forall config,
          snd (introspectPostgresSchema config d t)
          = (tb ++ [Ended (fresh_pool t)])%list ->
          fst (introspectPostgresSchema config d t) = Throw e)
    /\ (forall config tableName,
          snd (getTableRowCount config tableName d t)
          = (tb ++ [Ended (fresh_pool t)])%list ->
          fst (getTableRowCount config tableName d t) = Throw e).
Proof.
  intros d t tb e He. repeat apply conj; intros.
  - rewrite executeSelect_with_pool in *. eapply with_pool_end_fails; eauto.
  - rewrite executeInsert_with_pool in *. eapply with_pool_end_fails; eauto.
  - rewrite executeUpdate_with_pool in *. eapply with_pool_end_fails; eauto.
  - rewrite executeDelete_with_pool in *. eapply with_pool_end_fails; eauto.
  - rewrite introspect_with_pool in *. eapply with_pool_end_fails; eauto.
  - rewrite getTableRowCount_eq in *. eapply with_pool_end_fails; eauto.
Qed.

Lemma teardown_error_wins_witness :
  fst (executeSelect sample_config
         (mkSelectOptions "users" ["*"] None None None None) stuck_driver [])
  = Throw (Error "end failed").
Proof.
  refine (proj1 (teardown_error_wins stuck_driver []
                   [Created 0 (executor_pool sample_config);
                    Queried 0 (sql (buildSelectQuery
                                      (mkSelectOptions "users" ["*"] None None
                                         None None))) []]
                   (Error "end failed") eq_refl)
                sample_config _ eq_refl).
Defined.

(** X13. What an executor returns on success is the driver's reply to the
    compiled query: select, update and delete return its rows as they are
    and its row count, or 0 when the driver gave null or no count; insert
    returns its first row, or nothing when it has no row. *)
Theorem executors_return_the_reply :
  (forall config options d t res t',
      executeSelect config options d t = (Ok res, t') ->
      exists reply,
        query_reply d (t ++ [Created (fresh_pool t) (executor_pool config)])%list
          (fresh_pool t) (sql (buildSelectQuery options))
          (params (buildSelectQuery options))
        = Ok reply
        /\ sr_rows res = rows reply
        /\ sr_rowCount res
           = (if is_nullish (rowCount reply) then VNum 0 else rowCount reply))
  /\ (forall config options d t res t',
        executeInsert config options d t = (Ok res, t') ->
        exists q reply,
          buildInsertQuery options = Ok q
          /\ query_reply d
               (t ++ [Created (fresh_pool t) (executor_pool config)])%list
               (fresh_pool t) (sql q) (params q)
             = Ok reply
          /\ ir_row res = nth_error (rows reply) 0)
  /\ (forall config options d t res t',
        executeUpdate config options d t = (Ok res, t') ->
        exists q reply,
          buildUpdateQuery options = Ok q
          /\ query_reply d
               (t ++ [Created (fresh_pool t) (executor_pool config)])%list
               (fresh_pool t) (sql q) (params q)
             = Ok reply
          /\ ur_rows res = rows reply
          /\ ur_rowCount res
             = (if is_nullish (rowCount reply) then VNum 0 else rowCount reply))
  /\ (forall config options d t res t',
        executeDelete config options d t = (Ok res, t') ->
        exists q reply,
          buildDeleteQuery options = Ok q
          /\ query_reply d
               (t ++ [Created (fresh_pool t) (executor_pool config)])%list
               (fresh_pool t) (sql q) (params q)
             = Ok reply
          /\ dr_rows res = rows reply
          /\ dr_rowCount res
             = (if is_nullish (rowCount reply) then VNum 0 else rowCount reply)).
Proof.
  assert (G : forall A config compile (shape : QueryReply -> A) d t res t',
             execute_with config compile shape d t = (Ok res, t') ->
             exists q reply,
               compile = Ok q
               /\ query_reply d
                    (t ++ [Created (fresh_pool t) (executor_pool config)])%list
                    (fresh_pool t) (sql q) (params q)
                  = Ok reply
               /\ res = shape reply).
  { intros A config compile shape d t res t' H.
    rewrite execute_with_run in H. cbv zeta in H.
    destruct compile as [q|e].
    - destruct (query_reply d _ (fresh_pool t) (sql q) (params q))
        as [reply|e] eqn:Q.
      + exists q, reply. split; [reflexivity|]. split; [exact Q|].
        unfold after_end in H. destruct (end_reply d _ (fresh_pool t));
          [|discriminate].
        now injection H as <- _.
      + unfold after_end in H. destruct (end_reply d _ (fresh_pool t));
          discriminate.
    - unfold after_end in H. destruct (end_reply d _ (fresh_pool t));
        discriminate. }
  repeat apply conj.
  - intros config options d t res t' H. rewrite executeSelect_eq in H.
    destruct (G _ _ _ _ _ _ _ _ H) as (q & reply & Hq & Hr & ->).
    injection Hq as <-. exists reply. repeat split; exact Hr.
  - intros config options d t res t' H. rewrite executeInsert_eq in H.
    destruct (G _ _ _ _ _ _ _ _ H) as (q & reply & Hq & Hr & ->).
    exists q, reply. repeat split; assumption.
  - intros config options d t res t' H. rewrite executeUpdate_eq in H.
    destruct (G _ _ _ _ _ _ _ _ H) as (q & reply & Hq & Hr & ->).
    exists q, reply. repeat split; assumption.
  - intros config options d t res t' H. rewrite executeDelete_eq in H.
    destruct (G _ _ _ _ _ _ _ _ H) as (q & reply & Hq & Hr & ->).
    exists q, reply. repeat split; assumption.
Qed.

Lemma executors_return_the_reply_witness :
  exists reply,
    query_reply quiet_driver [Created 0 (executor_pool sample_config)] 0
      (sql (buildSelectQuery (mkSelectOptions "users" ["*"] None None None None)))
      []
    = Ok reply
    /\ [] = rows reply
    /\ VNum 0 = (if is_nullish (rowCount reply) then VNum 0 else rowCount reply).
Proof.
  destruct executors_return_the_reply as (H & _).
  exact (H sample_config (mkSelectOptions "users" ["*"] None None None None)
           quiet_driver [] (mkSelectResult [] (VNum 0)) _ eq_refl).
Defined.

(** X14. The connection test never throws because the database refused:
    a query rejected with an [Error] is reported as a failure carrying its
    message, a query rejected with any other value as a failure with the
    text Unknown error, and an accepted one as a success with the time the
    clock measured.  It sends one query, ends its pool exactly once, and
    only a rejected teardown makes it throw. *)
Theorem connection_test_reports_failure :
  forall now config d t,
    let p := fresh_pool t in
    let t1 := (t ++ [Created p (introspector_pool config (Some 5000%Z))])%list in
    let t2 := (t1 ++ [Queried p "SELECT NOW()" []])%list in
    snd (testPostgresConnection now config d t) = (t2 ++ [Ended p])%list
    /\ torn_down_once t (snd (testPostgresConnection now config d t))
    /\ (forall e,
          fst (testPostgresConnection now config d t) = Throw e ->
          end_reply d t2 p = Throw e)
    /\ (forall u reply,
          end_reply d t2 p = Ok u ->
          query_reply d t1 p "SELECT NOW()" [] = Ok reply ->
          fst (testPostgresConnection now config d t)
          = Ok (mkTestResult true None (Some (now t2 - now t)%Z)))
    /\ (forall u message,
          end_reply d t2 p = Ok u ->
          query_reply d t1 p "SELECT NOW()" [] = Throw (Error message) ->
          fst (testPostgresConnection now config d t)
          = Ok (mkTestResult false (Some message) None))
    /\ (forall u v,
          end_reply d t2 p = Ok u ->
          query_reply d t1 p "SELECT NOW()" [] = Throw (Thrown v) ->
          fst (testPostgresConnection now config d t)
          = Ok (mkTestResult false (Some "Unknown error") None)).
Proof.
  intros now config d t. cbv zeta.
  rewrite testPostgresConnection_run. cbv zeta. cbn [fst snd].
  split; [|split; [|split; [|split; [|split]]]].
  - reflexivity.
  - apply scoped_once.
    exists (introspector_pool config (Some 5000%Z)),
      [Queried (fresh_pool t) "SELECT NOW()" []].
    split; [now rewrite <- !app_assoc|].
    constructor; [|constructor]. now exists "SELECT NOW()", [].
  - intros e H. unfold after_end in H.
    destruct (end_reply d _ (fresh_pool t)); [discriminate|].
    now injection H as <-.
  - intros u reply He Hq. now rewrite He, Hq.
  - intros u message He Hq. now rewrite He, Hq.
  - intros u v He Hq. now rewrite He, Hq.
Qed.

Lemma connection_test_reports_failure_witness :
  fst (testPostgresConnection event_clock sample_config failing_driver [])
  = Ok (mkTestResult false (Some "Connection refused") None)
  /\ fst (testPostgresConnection event_clock sample_config rude_driver [])
     = Ok (mkTestResult false (Some "Unknown error") None)
  /\ fst (testPostgresConnection event_clock sample_config quiet_driver [])
     = Ok (mkTestResult true None (Some 2%Z)).
Proof.
  destruct (connection_test_reports_failure event_clock sample_config
              failing_driver []) as (_ & _ & _ & _ & H5 & _).
  destruct (connection_test_reports_failure event_clock sample_config
              rude_driver []) as (_ & _ & _ & _ & _ & H6).
  destruct (connection_test_reports_failure event_clock sample_config
              quiet_driver []) as (_ & _ & _ & H4 & _).
  split; [|split].
  - exact (H5 tt _ eq_refl eq_refl).
  - exact (H6 tt _ eq_refl eq_refl).
  - exact (H4 tt _ eq_refl eq_refl).
Defined.

(** X15. A table the catalogue has no statistics for is counted: when the
    estimate query returns no row, or a row whose estimate is null or
    missing, the estimate is taken to be 0 and the exact count is sent; an
    exact count that returns no row, or a null count, gives 0. *)
Theorem row_count_without_statistics :
  forall config tableName d t reply,
    let p := fresh_pool t in
    let t1 := (t ++ [Created p (introspector_pool config (Some 5000%Z))])%list in
    let t2 := (t1 ++ [Queried p ESTIMATE_SQL [VStr tableName]])%list in
    let t3 := (t2 ++ [Queried p (count_sql tableName) []])%list in
    query_reply d t1 p ESTIMATE_SQL [VStr tableName] = Ok reply ->
    is_nullish (first_field (rows reply) "estimate") = true ->
    getTableRowCount config tableName d t
    = (after_end
         (match query_reply d t2 p (count_sql tableName) [] with
          | Ok c => Ok (count_of c)
          | Throw e => Throw e
          end)
         (end_reply d t3 p),
       (t3 ++ [Ended p])%list)
    /\ (rows reply = [] -> first_field (rows reply) "estimate" = VUndefined)
    /\ (forall c,
          is_nullish (first_field (rows c) "count") = true ->
          count_of c = Int 0).
Proof.
  cbv zeta. intros config tableName d t reply Hq Hn. repeat apply conj.
  - rewrite (getTableRowCount_run config tableName d t reply Hq).
    now rewrite (estimate_defaults_to_zero reply Hn).
  - intros E. now rewrite E.
  - intros c Hc. unfold count_of, coalesce. now rewrite Hc.
Qed.

Lemma row_count_without_statistics_witness :
  getTableRowCount sample_config "ghost" empty_driver []
  = (Ok (Int 0),
     [Created 0 (introspector_pool sample_config (Some 5000%Z));
      Queried 0 ESTIMATE_SQL [VStr "ghost"];
      Queried 0 (count_sql "ghost") [];
      Ended 0]).
Proof.
  exact (proj1 (row_count_without_statistics sample_config "ghost" empty_driver
                  [] _ eq_refl eq_refl)).
Defined.

(** X16. An estimate that does not parse as an integer is returned as it
    parses, NaN, and no exact count is sent: NaN is not below the
    threshold. *)
Theorem row_count_of_unparsable_estimate :
  forall config tableName d t reply,
    let p := fresh_pool t in
    let t1 := (t ++ [Created p (introspector_pool config (Some 5000%Z))])%list in
    let t2 := (t1 ++ [Queried p ESTIMATE_SQL [VStr tableName]])%list in
    query_reply d t1 p ESTIMATE_SQL [VStr tableName] = Ok reply ->
    estimate_of reply = NaN ->
    getTableRowCount config tableName d t
    = (after_end (Ok NaN) (end_reply d t2 p), (t2 ++ [Ended p])%list).
Proof.
  cbv zeta. intros config tableName d t reply Hq Hn.
  rewrite (getTableRowCount_run config tableName d t reply Hq), Hn.
  reflexivity.
Qed.

Lemma row_count_of_unparsable_estimate_witness :
  getTableRowCount sample_config "orders" odd_driver []
  = (Ok NaN,
     [Created 0 (introspector_pool sample_config (Some 5000%Z));
      Queried 0 ESTIMATE_SQL [VStr "orders"];
      Ended 0]).
Proof.
  exact (row_count_of_unparsable_estimate sample_config "orders" odd_driver []
           _ eq_refl eq_refl).
Defined.

(** X23. An executor hands the driver the query its compiler gave, and
    nothing else: one query, with the compiled text and parameters, or none
    at all when the compiler threw.  This holds whatever the driver
    answers, whatever the credentials and whatever happened before the
    call. *)
Theorem executors_send_the_compiled_query :
  (forall options config d t,
      queries_of (news t (snd (executeSelect config options d t)))
      = compiled (Ok (buildSelectQuery options)))
  /\ (forall options config d t,
        queries_of (news t (snd (executeInsert config options d t)))
        = compiled (buildInsertQuery options))
  /\ (forall options config d t,
        queries_of (news t (snd (executeUpdate config options d t)))
        = compiled (buildUpdateQuery options))
  /\ (forall options config d t,
        queries_of (news t (snd (executeDelete config options d t)))
        = compiled (buildDeleteQuery options)).
Proof.
  split; [|split; [|split]]; intros options config d t.
  - now rewrite executeSelect_eq, execute_with_issued.
  - now rewrite executeInsert_eq, execute_with_issued.
  - now rewrite executeUpdate_eq, execute_with_issued.
  - now rewrite executeDelete_eq, execute_with_issued.
Qed.

End RunProperties.

(** ** More properties of the compiler *)

Module CompilerProperties.
Import Js Double QueryExecutor Anatomy Samples.
Import StringFacts CompilerFacts PlacementFacts.

Lemma replace_dquotes_head (s : string) :
  String.get 0 (replace_dquotes s) <> Some dquote.
Proof.
  intros H. destruct (dquote_after_backslash s 0 H) as (m & Hm & _).
  discriminate.
Qed.

Lemma replace_dquotes_inj (a : string) :
  forall b, replace_dquotes a = replace_dquotes b -> a = b.
Proof.
  induction a as [|x a IH]; intros [|y b] H.
  - reflexivity.
  - cbn [replace_dquotes] in H. destruct (Ascii.eqb y dquote); discriminate.
  - cbn [replace_dquotes] in H. destruct (Ascii.eqb x dquote); discriminate.
  - cbn [replace_dquotes] in H.
    destruct (Ascii.eqb x dquote) eqn:Ex, (Ascii.eqb y dquote) eqn:Ey.
    + apply Ascii.eqb_eq in Ex, Ey. subst x y.
      injection H as H. f_equal. now apply IH.
    + injection H as Hy H. exfalso.
      apply (replace_dquotes_head b). now rewrite <- H.
    + injection H as Hx H. exfalso.
      apply (replace_dquotes_head a). now rewrite H.
    + injection H as -> H. f_equal. now apply IH.
Qed.

(** X17. Escaping loses nothing: two identifiers with the same escaped
    text are the same identifier, so two different table or column names
    never compile to the same quoted name. *)
Theorem escapeIdentifier_injective :
  forall a b, escapeIdentifier a = escapeIdentifier b -> a = b.
Proof.
  intros a b H. unfold escapeIdentifier in H. injection H as H.
  apply append_inv_tail in H. now apply replace_dquotes_inj.
Qed.

Lemma escapeIdentifier_injective_witness : quoted_name = quoted_name.
Proof. exact (escapeIdentifier_injective quoted_name quoted_name eq_refl). Defined.

End CompilerProperties.

(** ** Facts about the proxy *)

Module ProxyFacts.
Import Js Proxy StringFacts.

Lemma prefix_app (p s : string) : String.prefix p (p ++ s) = true.
Proof.
  induction p as [|c p IH]; [now destruct s|].
  cbn [append String.prefix].
  destruct (ascii_dec c c) as [_|N]; [exact IH|now destruct N].
Qed.

Lemma includes_char_app (c : ascii) (a b : string) :
  includes_char c (a ++ b) = (includes_char c a || includes_char c b)%bool.
Proof.
  induction a as [|x a IH]; [reflexivity|].
  cbn [append includes_char]. now rewrite IH, Bool.orb_assoc.
Qed.

Lemma slug_tail_not_slash (c : ascii) :
  is_slug_tail c = true -> Ascii.eqb c slash = false.
Proof.
  intros H. destruct (Ascii.eqb c slash) eqn:E; [|reflexivity].
  apply Ascii.eqb_eq in E. subst c. discriminate.
Qed.

Lemma lower_is_slug_tail (c : ascii) : is_lower c = true -> is_slug_tail c = true.
Proof. intros H. unfold is_slug_tail. now rewrite H. Qed.

Lemma split_on_segment (seg rest : string) :
  forallb is_slug_tail (list_ascii_of_string seg) = true ->
  split_on slash (seg ++ String slash rest) = seg :: split_on slash rest.
Proof.
  induction seg as [|c seg IH]; intros H.
  - cbn [append split_on]. now rewrite Ascii.eqb_refl.
  - cbn [list_ascii_of_string forallb] in H. apply andb_prop in H.
    destruct H as [Hc H]. cbn [append split_on].
    now rewrite (slug_tail_not_slash c Hc), (IH H).
Qed.

Lemma split_on_plain (seg : string) :
  forallb is_slug_tail (list_ascii_of_string seg) = true ->
  split_on slash seg = [seg].
Proof.
  induction seg as [|c seg IH]; intros H; [reflexivity|].
  cbn [list_ascii_of_string forallb] in H. apply andb_prop in H.
  destruct H as [Hc H]. cbn [split_on].
  now rewrite (slug_tail_not_slash c Hc), (IH H).
Qed.

Lemma slug_like_tail (seg : string) :
  slug_like seg = true ->
  forallb is_slug_tail (list_ascii_of_string seg) = true.
Proof.
  destruct seg as [|c rest]; [discriminate|].
  cbn [slug_like list_ascii_of_string forallb]. intros H.
  apply andb_prop in H. destruct H as [Hc H].
  now rewrite (lower_is_slug_tail c Hc), H.
Qed.

Lemma first_segment_of (seg : string) (tail : string) :
  slug_like seg = true ->
  (tail = "" \/ exists rest, tail = String slash rest) ->
  element_text (split_on slash ("/" ++ seg ++ tail)) 1 = seg.
Proof.
  intros H [->|[rest ->]].
  - rewrite append_nil_r.
    change ("/" ++ seg) with (String slash seg). cbn [split_on].
    rewrite Ascii.eqb_refl. now rewrite (split_on_plain seg (slug_like_tail seg H)).
  - change ("/" ++ seg ++ String slash rest)
      with (String slash (seg ++ String slash rest)).
    cbn [split_on]. rewrite Ascii.eqb_refl.
    now rewrite (split_on_segment seg rest (slug_like_tail seg H)).
Qed.

Lemma slug_segment_protected (seg : string) :
  slug_like seg = true -> seg <> "login" -> seg <> "register" ->
  (orgSlugPattern ("/" ++ seg)
   && negb (includes PUBLIC_ROUTES ("/" ++ seg))
   && negb (includes AUTH_ROUTES ("/" ++ seg)))%bool = true.
Proof.
  intros H Hl Hr.
  assert (P : orgSlugPattern ("/" ++ seg) = true).
  { destruct seg as [|c rest]; [discriminate|]. exact H. }
  assert (Q : includes PUBLIC_ROUTES ("/" ++ seg) = false).
  { unfold includes, PUBLIC_ROUTES. cbn [existsb].
    destruct (String.eqb ("/" ++ seg) "/") eqn:E1.
    - apply String.eqb_eq in E1. injection E1 as ->. discriminate.
    - destruct (String.eqb ("/" ++ seg) "/api/auth") eqn:E2; [|reflexivity].
      apply String.eqb_eq in E2. injection E2 as ->. discriminate. }
  assert (R : includes AUTH_ROUTES ("/" ++ seg) = false).
  { unfold includes, AUTH_ROUTES. cbn [existsb].
    destruct (String.eqb ("/" ++ seg) "/login") eqn:E1.
    - apply String.eqb_eq in E1. injection E1 as ->. now destruct Hl.
    - destruct (String.eqb ("/" ++ seg) "/register") eqn:E2; [|reflexivity].
      apply String.eqb_eq in E2. injection E2 as ->. now destruct Hr. }
  now rewrite P, Q, R.
Qed.

Lemma protected_by_segment (seg tail : string) :
  slug_like seg = true -> seg <> "login" -> seg <> "register" ->
  (tail = "" \/ exists rest, tail = String slash rest) ->
  isProtectedRoute ("/" ++ seg ++ tail) = true.
Proof.
  intros H Hl Hr Ht. unfold isProtectedRoute.
  destruct (existsb _ PROTECTED_ROUTES); [reflexivity|].
  cbv zeta. rewrite (first_segment_of seg tail H Ht).
  replace (negb (String.eqb ("/" ++ seg) "")) with true by reflexivity.
  cbn [andb]. now rewrite (slug_segment_protected seg H Hl Hr).
Qed.

Lemma auth_routes_unprotected (p : string) :
  includes AUTH_ROUTES p = true -> isProtectedRoute p = false.
Proof.
  unfold includes, AUTH_ROUTES. cbn [existsb]. intros H.
  apply Bool.orb_true_iff in H. destruct H as [H|H].
  - apply String.eqb_eq in H. subst p. reflexivity.
  - rewrite Bool.orb_false_r in H. apply String.eqb_eq in H. subst p.
    reflexivity.
Qed.

Lemma security_headers_set : addSecurityHeaders [] = SECURITY_HEADERS.
Proof. reflexivity. Qed.

Lemma rate_limit_headers_set (uuid : string) (req : request) :
  addRateLimitHeaders uuid SECURITY_HEADERS req
  = (SECURITY_HEADERS
       ++ [("X-RateLimit-Limit", "100"); ("X-RateLimit-Window", "60");
           ("X-Request-Id",
            match request_id req with Some v => v | None => uuid end)])%list.
Proof. reflexivity. Qed.

Lemma security_headers_present (extra : headers) (n v : string) :
  In (n, v) SECURITY_HEADERS ->
  get_header (SECURITY_HEADERS ++ extra)%list n = Some v.
Proof.
  intros H. unfold SECURITY_HEADERS in H. cbn [In] in H.
  repeat (destruct H as [H|H]; [injection H as <- <-; reflexivity|]).
  contradiction.
Qed.

End ProxyFacts.

(** ** Properties of the proxy *)

Module ProxyProperties.
Import Js Proxy StringFacts ProxyFacts.

(** X19. On a path the proxy does not skip, a request with no session is
    never let through to a protected route: it is redirected to the login
    page with the path as callback.  A session cookie that is there but
    empty is no session, even beside a good secure cookie; and a request
    with a session for the login or the register page is redirected to
    the root. *)
Theorem unauthenticated_is_sent_to_login :
  (forall uuid req,
      is_skipped (pathname req) = false ->
      isAuthenticated req = false ->
      isProtectedRoute (pathname req) = true ->
      proxy uuid req = Redirect "/login" (Some (pathname req)))
  /\ (forall path secure rid,
        isAuthenticated (mkRequest path (Some "") secure rid) = false)
  /\ (forall uuid req,
        is_skipped (pathname req) = false ->
        includes AUTH_ROUTES (pathname req) = true ->
        isAuthenticated req = true ->
        proxy uuid req = Redirect "/" None).
Proof.
  repeat apply conj.
  - intros uuid req Hs Ha Hp. unfold proxy. rewrite Hs, Hp, Ha.
    destruct (includes AUTH_ROUTES (pathname req)) eqn:E; [|reflexivity].
    rewrite (auth_routes_unprotected _ E) in Hp. discriminate.
  - reflexivity.
  - intros uuid req Hs Hr Ha. unfold proxy. now rewrite Hs, Hr, Ha.
Qed.

Lemma unauthenticated_is_sent_to_login_witness :
  proxy "uuid" (mkRequest "/acme/apps" (Some "") (Some "token") None)
  = Redirect "/login" (Some "/acme/apps")
  /\ proxy "uuid" (mkRequest "/login" (Some "token") None None)
     = Redirect "/" None.
Proof.
  destruct unauthenticated_is_sent_to_login as (H1 & _ & H3).
  split.
  - exact (H1 "uuid" (mkRequest "/acme/apps" (Some "") (Some "token") None)
              eq_refl eq_refl eq_refl).
  - exact (H3 "uuid" (mkRequest "/login" (Some "token") None None)
              eq_refl eq_refl eq_refl).
Defined.

(** X20. A path with a dot in it, like a path under [/_next] or
    [/api/auth], is let through as it is, with no look at the session and
    no header added; this holds for protected routes too, such as any
    dotted path under [/new]. *)
Theorem dotted_paths_are_skipped :
  (forall uuid req,
      includes_char "."%char (pathname req) = true ->
      proxy uuid req = Next [])
  /\ (forall uuid a b cookie secure rid,
        isProtectedRoute ("/new" ++ a ++ "." ++ b) = true
        /\ proxy uuid (mkRequest ("/new" ++ a ++ "." ++ b) cookie secure rid)
           = Next [])
  /\ (forall uuid rest cookie secure rid,
        proxy uuid (mkRequest ("/_next" ++ rest) cookie secure rid) = Next []
        /\ proxy uuid (mkRequest ("/api/auth" ++ rest) cookie secure rid)
           = Next []).
Proof.
  assert (D : forall uuid req,
             includes_char "."%char (pathname req) = true ->
             proxy uuid req = Next []).
  { intros uuid req H. unfold proxy, is_skipped. rewrite H.
    now rewrite !Bool.orb_true_r. }
  split; [exact D|]. split.
  - intros uuid a b cookie secure rid. split.
    + unfold isProtectedRoute, PROTECTED_ROUTES, startsWith. cbn [existsb].
      now rewrite prefix_app.
    + apply D. cbn [pathname].
      rewrite !includes_char_app. cbn [includes_char].
      rewrite Ascii.eqb_refl. now rewrite !Bool.orb_true_r.
  - intros uuid rest cookie secure rid. split.
    + unfold proxy, is_skipped, startsWith. cbn [pathname].
      now rewrite prefix_app.
    + unfold proxy, is_skipped, startsWith. cbn [pathname].
      rewrite (prefix_app "/api/auth" rest). now rewrite Bool.orb_true_r.
Qed.

Lemma dotted_paths_are_skipped_witness :
  proxy "uuid" (mkRequest "/new/report.pdf" None None None) = Next [].
Proof.
  exact (proj1 dotted_paths_are_skipped "uuid"
           (mkRequest "/new/report.pdf" None None None) eq_refl).
Defined.

(** X21. Which routes are protected.  Every path that begins with [/new]
    or with [/api/trpc] is, whatever follows; so is every path whose first
    segment is a lower-case letter followed by lower-case letters, digits
    and dashes, other than login and register, with or without further
    segments.  The login and register pages and what lies under them are
    not. *)
Theorem protected_routes :
  (forall rest,
      isProtectedRoute ("/new" ++ rest) = true
      /\ isProtectedRoute ("/api/trpc" ++ rest) = true)
  /\ (forall seg rest,
        slug_like seg = true -> seg <> "login" -> seg <> "register" ->
        isProtectedRoute ("/" ++ seg) = true
        /\ isProtectedRoute ("/" ++ seg ++ "/" ++ rest) = true)
  /\ (forall rest,
        isProtectedRoute "/login" = false
        /\ isProtectedRoute "/register" = false
        /\ isProtectedRoute ("/login/" ++ rest) = false
        /\ isProtectedRoute ("/register/" ++ rest) = false
        /\ isProtectedRoute "/" = false).
Proof.
  split; [|split].
  - intros rest. split.
    + unfold isProtectedRoute, PROTECTED_ROUTES, startsWith.
      cbn [existsb]. now rewrite prefix_app.
    + unfold isProtectedRoute, PROTECTED_ROUTES, startsWith.
      cbn [existsb]. rewrite (prefix_app "/api/trpc" rest).
      now rewrite Bool.orb_true_r.
  - intros seg rest H Hl Hr. split.
    + rewrite <- (append_nil_r seg).
      apply protected_by_segment; auto.
    + apply protected_by_segment; auto. right. now exists rest.
  - intros rest. split; [reflexivity|]. split; [reflexivity|].
    split; [|split; [|reflexivity]].
    + unfold isProtectedRoute. cbv zeta.
      replace (existsb (fun route => startsWith ("/login/" ++ rest) route)
                 PROTECTED_ROUTES) with false by reflexivity.
      change ("/login/" ++ rest) with ("/" ++ "login" ++ String slash rest).
      rewrite first_segment_of; [reflexivity|reflexivity|].
      right. now exists rest.
    + unfold isProtectedRoute. cbv zeta.
      replace (existsb (fun route => startsWith ("/register/" ++ rest) route)
                 PROTECTED_ROUTES) with false by reflexivity.
      change ("/register/" ++ rest) with ("/" ++ "register" ++ String slash rest).
      rewrite first_segment_of; [reflexivity|reflexivity|].
      right. now exists rest.
Qed.

Lemma protected_routes_witness :
  isProtectedRoute "/acme-2" = true
  /\ isProtectedRoute ("/acme-2" ++ "/" ++ "apps/1") = true.
Proof.
  destruct protected_routes as (_ & H & _).
  refine (H "acme-2" "apps/1" eq_refl _ _); discriminate.
Defined.

(** X22. Every response the proxy passes on a path it does not skip
    carries the seven security headers with their values.  Off the login
    and register pages it also carries the rate limit of 100 over a window
    of 60 and a request id, the one of the request when it has one and the
    fresh one otherwise.  A redirect carries none of them. *)
Theorem passed_responses_carry_security_headers :
  forall uuid req hs,
    is_skipped (pathname req) = false ->
    proxy uuid req = Next hs ->
    (forall n v, In (n, v) SECURITY_HEADERS -> get_header hs n = Some v)
    /\ (includes AUTH_ROUTES (pathname req) = false ->
        get_header hs "X-RateLimit-Limit" = Some "100"
        /\ get_header hs "X-RateLimit-Window" = Some "60"
        /\ get_header hs "X-Request-Id"
           = Some (match request_id req with Some v => v | None => uuid end)).
Proof.
  intros uuid req hs Hs H. unfold proxy in H. rewrite Hs in H.
  destruct (includes AUTH_ROUTES (pathname req)) eqn:A.
  - destruct (isAuthenticated req); [discriminate|].
    injection H as <-. rewrite security_headers_set. split.
    + intros n v Hin.
      rewrite <- (app_nil_r SECURITY_HEADERS).
      now apply security_headers_present.
    + discriminate.
  - destruct (isProtectedRoute (pathname req) && negb (isAuthenticated req))%bool;
      [discriminate|].
    injection H as <-. rewrite security_headers_set, rate_limit_headers_set.
    split.
    + intros n v Hin. now apply security_headers_present.
    + intros _. repeat split.
Qed.

Lemma passed_responses_carry_security_headers_witness :
  get_header
    (addRateLimitHeaders "uuid" (addSecurityHeaders [])
       (mkRequest "/acme" (Some "token") None (Some "req-7")))
    "X-Frame-Options"
  = Some "DENY"
  /\ get_header
       (addRateLimitHeaders "uuid" (addSecurityHeaders [])
          (mkRequest "/acme" (Some "token") None (Some "req-7")))
       "X-Request-Id"
     = Some "req-7".
Proof.
  destruct (passed_responses_carry_security_headers "uuid"
              (mkRequest "/acme" (Some "token") None (Some "req-7")) _
              eq_refl eq_refl) as [H1 H2].
  split.
  - apply H1. cbn. tauto.
  - exact (proj2 (proj2 (H2 eq_refl))).
Defined.

End ProxyProperties.
